(** * codevisualizer: a shallow embedding of the analysis pipeline

    The development models the parts of the analyzer that the
    specification makes promises about: the clone detector
    (cloneDetector.js), the export-usage pass and the fallback symbol of
    the structure graph (structureGraph.js), the smell detector
    (smellDetector.js), the per-file metrics (fileMetrics.js) and the
    source-snippet reader of the HTTP server (server.js).

    JavaScript strings are sequences of UTF-16 code units, numbers are
    IEEE-754 binary64 values, regular expressions are run by a small
    backtracking matcher that follows the ECMAScript rules for the
    constructs the sources use. *)

From Stdlib Require Import ZArith NArith List Ascii String Bool Lia.
From Stdlib Require Import Floats.SpecFloat.
From stdpp Require Import gmap strings list.

Set Default Proof Using "Type".

(** ** JavaScript strings *)

Module JS.

(** A string is the list of its UTF-16 code units. *)
Abbreviation jsstring := (list N).

Definition code (a : ascii) : N := N_of_ascii a.

(** [str "abc"] is the JavaScript literal ["abc"] (ASCII only). *)
Definition str (s : string) : jsstring :=
  List.map code (list_ascii_of_string s).

Definition in_range (lo hi c : N) : bool := (lo <=? c)%N && (c <=? hi)%N.

Definition is_upper (c : N) : bool := in_range 65 90 c.
Definition is_lower (c : N) : bool := in_range 97 122 c.
Definition is_digit (c : N) : bool := in_range 48 57 c.

(** [\w] without the unicode flag: [A-Za-z0-9_]. *)
Definition is_word (c : N) : bool :=
  is_upper c || is_lower c || is_digit c || (c =? 95)%N.

(** LineTerminator: LF, CR, LS, PS. *)
Definition is_line_terminator (c : N) : bool :=
  (c =? 10)%N || (c =? 13)%N || (c =? 8232)%N || (c =? 8233)%N.

(** [\s]: WhiteSpace and LineTerminator code units. *)
Definition is_space (c : N) : bool :=
  in_range 9 13 c || (c =? 32)%N || (c =? 160)%N || (c =? 5760)%N
  || in_range 8192 8202 c || (c =? 8232)%N || (c =? 8233)%N
  || (c =? 8239)%N || (c =? 8287)%N || (c =? 12288)%N || (c =? 65279)%N.

(** [toLowerCase] on the ASCII letters. The sources apply it to regex
    matches of [A-Za-z0-9_]+ and to kind, language and extension strings
    that are compared against ASCII constants. *)
Definition lower_char (c : N) : N := if is_upper c then (c + 32)%N else c.
Definition toLowerCase (s : jsstring) : jsstring := List.map lower_char s.

Fixpoint drop_spaces (s : jsstring) : jsstring :=
  match s with
  | c :: t => if is_space c then drop_spaces t else s
  | [] => []
  end.

(** [String.prototype.trim]. *)
Definition trim (s : jsstring) : jsstring :=
  rev (drop_spaces (rev (drop_spaces s))).

Definition eqb (a b : jsstring) : bool := bool_decide (a = b).

(** [s.startsWith(p)]. *)
Fixpoint startsWith (s p : jsstring) : bool :=
  match p, s with
  | [], _ => true
  | x :: p', y :: s' => (x =? y)%N && startsWith s' p'
  | _ :: _, [] => false
  end.

(** [s.split(sep)] for a one-unit separator. *)
Fixpoint split_on (sep : N) (s : jsstring) : list jsstring :=
  match s with
  | [] => [[]]
  | c :: t =>
      if (c =? sep)%N then [] :: split_on sep t
      else match split_on sep t with
           | h :: r => (c :: h) :: r
           | [] => [[c]]
           end
  end.

(** [parts.join(sep)]. *)
Fixpoint join (sep : jsstring) (parts : list jsstring) : jsstring :=
  match parts with
  | [] => []
  | [p] => p
  | p :: r => p ++ sep ++ join sep r
  end.

(** Truthiness of a string: non-empty. *)
Definition truthy (s : jsstring) : bool :=
  match s with [] => false | _ => true end.

End JS.

Import JS.

(** ** Regular expressions *)

Module Regex.

Inductive regex : Type :=
| RChar (c : N)
| RClass (p : N -> bool)
| REps
| RSeq (r1 r2 : regex)
| RAlt (r1 r2 : regex)
| RStar (greedy : bool) (r : regex)
| RGroup (r : regex)
| RWordB
| RBol (multiline : bool)
| REol (multiline : bool).

(** A position in the subject: the unit before it (if any), the rest of
    the subject, and the text of capture group 1. *)
Record cursor : Type := Cursor {
  prev : option N;
  rest : jsstring;
  cap : option jsstring
}.

Definition word_before (c : cursor) : bool :=
  match prev c with Some x => is_word x | None => false end.
Definition word_after (c : cursor) : bool :=
  match rest c with x :: _ => is_word x | [] => false end.

Definition consumed (c c' : cursor) : jsstring :=
  firstn (length (rest c) - length (rest c')) (rest c).

(** Backtracking matcher in continuation-passing style: alternatives are
    tried left to right, a greedy star tries one more iteration first, a
    lazy star tries the continuation first, and an iteration that
    consumes nothing is rejected. *)
Fixpoint rmatch (r : regex) (k : cursor -> option cursor) (c : cursor)
  : option cursor :=
  match r with
  | RChar x =>
      match rest c with
      | y :: t => if (x =? y)%N then k (Cursor (Some y) t (cap c)) else None
      | [] => None
      end
  | RClass p =>
      match rest c with
      | y :: t => if p y then k (Cursor (Some y) t (cap c)) else None
      | [] => None
      end
  | REps => k c
  | RSeq a b => rmatch a (rmatch b k) c
  | RAlt a b =>
      match rmatch a k c with
      | Some e => Some e
      | None => rmatch b k c
      end
  | RStar greedy a =>
      (fix loop (fuel : nat) (c : cursor) {struct fuel} : option cursor :=
         match fuel with
         | O => k c
         | S fuel' =>
             let again :=
               rmatch a
                 (fun c' =>
                    if (length (rest c') <? length (rest c))%nat
                    then loop fuel' c' else None) c in
             if greedy then
               match again with Some e => Some e | None => k c end
             else
               match k c with Some e => Some e | None => again end
         end) (S (length (rest c))) c
  | RGroup a =>
      rmatch a (fun c' => k (Cursor (prev c') (rest c') (Some (consumed c c')))) c
  | RWordB => if xorb (word_before c) (word_after c) then k c else None
  | RBol m =>
      match prev c with
      | None => k c
      | Some x => if m && is_line_terminator x then k c else None
      end
  | REol m =>
      match rest c with
      | [] => k c
      | x :: _ => if m && is_line_terminator x then k c else None
      end
  end.

(** One found match: its start offset, its text and capture group 1. *)
Record rmatch_result : Type := Match {
  m_index : nat;
  m_text : jsstring;
  m_group : option jsstring;
  m_after : cursor
}.

(** Leftmost match at or after the given position. *)
Fixpoint search (r : regex) (p : option N) (s : jsstring) (off : nat)
  : option rmatch_result :=
  match rmatch r Some (Cursor p s None) with
  | Some e => Some (Match off (consumed (Cursor p s None) e) (cap e) e)
  | None =>
      match s with
      | [] => None
      | x :: t => search r (Some x) t (S off)
      end
  end.

(** [regex.exec(s)] for a regex without the g flag. *)
Definition exec (r : regex) (s : jsstring) : option rmatch_result :=
  search r None s 0.

(** [regex.test(s)]. *)
Definition test (r : regex) (s : jsstring) : bool :=
  match exec r s with Some _ => true | None => false end.

(** Successive matches of a regex with the g flag, as [exec] in a loop,
    [String.prototype.match] and [replace] enumerate them: the search
    resumes where the last match ended, one unit further after an empty
    match. *)
Fixpoint matches_from (fuel : nat) (r : regex) (p : option N) (s : jsstring)
    (off : nat) : list rmatch_result :=
  match fuel with
  | O => []
  | S fuel' =>
      match search r p s off with
      | None => []
      | Some m =>
          let e := m_after m in
          let stop := (m_index m + length (m_text m))%nat in
          m ::
          match m_text m, rest e with
          | [], [] => []
          | [], x :: t => matches_from fuel' r (Some x) t (S stop)
          | _ :: _, _ => matches_from fuel' r (prev e) (rest e) stop
          end
      end
  end.

Definition matches (r : regex) (s : jsstring) : list rmatch_result :=
  matches_from (S (length s)) r None s 0.

(** [s.replace(r, f)] for a regex with the g flag and a callback. *)
Fixpoint replace_with (f : jsstring -> jsstring) (ms : list rmatch_result)
    (s : jsstring) (off : nat) : jsstring :=
  match ms with
  | [] => s
  | m :: ms' =>
      let skip := (m_index m - off)%nat in
      let len := length (m_text m) in
      firstn skip s ++ f (m_text m) ++
      replace_with f ms' (skipn (skip + len) s) (m_index m + len)
  end.

Definition replace (r : regex) (f : jsstring -> jsstring) (s : jsstring)
  : jsstring :=
  replace_with f (matches r s) s 0.

(** Number of pieces of [s.split(r)] for a regex that matches no empty
    string. *)
Definition split_count (r : regex) (s : jsstring) : nat :=
  S (length (matches r s)).

(** Notations of the regex literals. *)
Fixpoint lit_units (s : jsstring) : regex :=
  match s with
  | [] => REps
  | [c] => RChar c
  | c :: t => RSeq (RChar c) (lit_units t)
  end.
Definition lit (s : string) : regex := lit_units (str s).
Definition plus (r : regex) : regex := RSeq r (RStar true r).
Definition opt (r : regex) : regex := RAlt r REps.
Fixpoint alts (rs : list regex) : regex :=
  match rs with
  | [] => RClass (fun _ => false)
  | [r] => r
  | r :: t => RAlt r (alts t)
  end.
Fixpoint seqs (rs : list regex) : regex :=
  match rs with
  | [] => REps
  | [r] => r
  | r :: t => RSeq r (seqs t)
  end.
Definition any : regex := RClass (fun _ => true).
Definition dot : regex := RClass (fun c => negb (is_line_terminator c)).
Definition none_of (s : string) : regex :=
  RClass (fun c => negb (existsb (N.eqb c) (str s))).
Definition word : regex := RClass is_word.
Definition space : regex := RClass is_space.

End Regex.

Import Regex.

(** ** Numbers: IEEE-754 binary64 *)

Module F64.

Definition prec : Z := 53.
Definition emax : Z := 1024.

Abbreviation float := spec_float.

(** The double nearest to the quotient of two positive integers; this is
    what a division of two exactly representable integers returns, and
    what a decimal literal with that value denotes. *)
Definition ratio (n d : positive) : float :=
  SFdiv prec emax (S754_finite false n 0) (S754_finite false d 0).

Definition of_Z (n : Z) : float := binary_normalize prec emax n 0 false.
Definition of_nat (n : nat) : float := of_Z (Z.of_nat n).

Definition div : float -> float -> float := SFdiv prec emax.
Definition mul : float -> float -> float := SFmul prec emax.

(** [x >= y]. *)
Definition geb (x y : float) : bool := SFleb y x.
(** [x > y]. *)
Definition gtb (x y : float) : bool := SFltb y x.

(** [Math.max(x, y)]. *)
Definition max (x y : float) : float :=
  match SFcompare x y with
  | Some Lt => y
  | Some Gt => x
  | Some Eq => match x with S754_zero true => y | _ => x end
  | None => S754_nan
  end.

(** The integer [n] for which [n / 100 - m * 2^e] is as close to zero as
    possible, the larger one when there are two (Number.prototype.toFixed,
    step 10.a). *)
Definition scaled_round (m : positive) (e : Z) : Z :=
  match e with
  | Zneg p => (200 * Zpos m + 2 ^ Zpos p) / 2 ^ (Zpos p + 1)
  | _ => 100 * Zpos m * 2 ^ e
  end.

Definition signed (neg : bool) (x : float) : float :=
  if neg then SFopp x else x.

(** [Number(x.toFixed(2))]: the digits of toFixed are those of
    [scaled_round], and Number reads them back as the nearest double.
    From 1e21 on, toFixed returns [String(x)], which reads back as [x]. *)
Definition toFixed2 (x : float) : float :=
  match x with
  | S754_finite s m e =>
      if SFleb (of_Z (10 ^ 21)) (SFabs x) then x
      else match scaled_round m e with
           | Zpos n => signed s (ratio n 100)
           | _ => S754_zero s
           end
  | _ => x
  end.

(** Truthiness of a number: neither zero nor NaN. *)
Definition truthy (x : float) : bool :=
  match x with
  | S754_zero _ | S754_nan => false
  | _ => true
  end.

End F64.

(** ** Insertion-ordered maps and sets (JavaScript [Map] and [Set]) *)

Module OMap.

Section Defs.
Context {K V : Type} `{EqDecision K}.

Fixpoint get (m : list (K * V)) (k : K) : option V :=
  match m with
  | [] => None
  | (k', v) :: t => if decide (k' = k) then Some v else get t k
  end.

Definition has (m : list (K * V)) (k : K) : bool :=
  match get m k with Some _ => true | None => false end.

(** [m.set(k, v)]: an existing key keeps its place. *)
Fixpoint set (m : list (K * V)) (k : K) (v : V) : list (K * V) :=
  match m with
  | [] => [(k, v)]
  | (k', v') :: t =>
      if decide (k' = k) then (k, v) :: t else (k', v') :: set t k v
  end.

Definition keys (m : list (K * V)) : list K := List.map fst m.

Definition mem (s : list K) (k : K) : bool := bool_decide (k ∈ s).

(** [s.add(k)]. *)
Definition add (s : list K) (k : K) : list K :=
  if mem s k then s else s ++ [k].

End Defs.

End OMap.

(** ** cloneDetector.js *)

Module CloneDetector.

Definition MIN_TOKENS : nat := 5.
Definition MAX_PAIRS : N := 250000.
(** The literal [0.55]. *)
Definition DEFAULT_THRESHOLD : F64.float := F64.ratio 55 100.
Definition SHINGLE_SIZE : nat := 3.
Definition WINDOW_SIZE : nat := 4.
Definition MAX_MATCHES_PER_PAIR : nat := 200.
Definition JS_FAMILY : list jsstring :=
  [str "javascript"; str "typescript"; str "js"; str "ts"; str "jsx";
   str "tsx"].

(** A symbol entry of the structure graph. A missing string field is the
    empty string, a missing language is [None]. *)
Record symbol : Type := Symbol {
  sym_id : jsstring;
  sym_fileId : jsstring;
  sym_name : jsstring;
  sym_kind : jsstring;
  sym_path : jsstring;
  sym_language : option jsstring;
  sym_startLine : Z;
  sym_endLine : Z;
  sym_text : jsstring
}.

Record fingerprint : Type := Fingerprint { fp_hash : N; fp_index : nat }.

Record segment : Type := Segment { seg_start : nat; seg_end : nat }.

(** The object [enrichSymbol] returns. *)
Record enriched : Type := Enriched {
  e_id : jsstring;
  e_path : jsstring;
  e_fileId : jsstring;
  e_startLine : Z;
  e_endLine : Z;
  e_language : option jsstring;
  e_tokens : list jsstring;
  e_tokenOffsets : list nat;
  e_tokenLengths : list nat;
  e_lineOffsets : list nat;
  e_fingerprints : list fingerprint;
  e_fingerprintIndex : list (N * list nat);
  e_fingerprintHashes : list N;
  e_tokenCounts : list (jsstring * nat);
  e_tokenTotal : nat
}.

Record lineRange : Type := LineRange { r_startLine : Z; r_endLine : Z }.

Record cloneEntry : Type := CloneEntry {
  targetId : jsstring;
  filePath : jsstring;
  startLine : Z;
  endLine : Z;
  similarity : F64.float
}.

(** [String(entry.kind || "").toLowerCase()]; the two kinds compared
    against are ASCII and no other code unit lowercases to an ASCII
    letter that occurs in them. *)
Definition isFunctionLike (entry : symbol) : bool :=
  let kind := toLowerCase (sym_kind entry) in
  eqb kind (str "function") || eqb kind (str "component").

Definition blank (s : jsstring) : jsstring :=
  List.map (fun c => if (c =? 10)%N then c else 32%N) s.

Definition blockComment : regex :=
  seqs [lit "/*"; RStar false any; lit "*/"].
Definition lineComment : regex :=
  seqs [lit "//"; RStar true dot; REol true].

Definition stripCommentsPreserveLayout (text : jsstring) : jsstring :=
  replace lineComment blank (replace blockComment blank text).

Record tokenMeta : Type := TokenMeta {
  tokens : list jsstring;
  offsets : list nat;
  lengths : list nat
}.

Definition tokenRegex : regex := plus word.
Definition loneUnderscore : regex := seqs [RBol false; lit "_"; REol false].

(** The [exec] loop of [tokenizeWithMeta]: [count] is [tokens.length]. *)
Fixpoint tokenLoop (ms : list rmatch_result) (count : nat)
  : list (jsstring * nat * nat) :=
  match ms with
  | [] => []
  | m :: ms' =>
      let token := toLowerCase (m_text m) in
      if negb (JS.truthy token) || test loneUnderscore token
      then tokenLoop ms' count
      else (token, m_index m, length (m_text m)) ::
           (if (5000 <=? S count)%nat then [] else tokenLoop ms' (S count))
  end.

Definition tokenizeWithMeta (text : jsstring) : tokenMeta :=
  if negb (JS.truthy text) then TokenMeta [] [] []
  else
    let sanitized := stripCommentsPreserveLayout text in
    let found := tokenLoop (matches tokenRegex sanitized) 0 in
    TokenMeta (List.map (fun t => fst (fst t)) found)
              (List.map (fun t => snd (fst t)) found)
              (List.map snd found).

Definition buildTokenCounts (toks : list jsstring) : list (jsstring * nat) :=
  fold_left
    (fun counts token =>
       OMap.set counts token (default 0%nat (OMap.get counts token) + 1)%nat)
    toks [].

(** The inner loop of [hashShingle] over the code units of one token. *)
Definition hashToken (hash : N) (value : jsstring) : N :=
  fold_left (fun h c => ((h * 31 + c) mod 1000003)%N) value hash.

Definition hashShingle (toks : list jsstring) (start length : nat) : N :=
  fold_left
    (fun h value => ((hashToken h value * 131 + 1) mod 1000003)%N)
    (firstn length (skipn start toks)) 0%N.

Definition fp0 : fingerprint := Fingerprint 0 0.

(** [hashes[i]]; every use below is guarded so that [i] is in range. *)
Definition at_ (hashes : list fingerprint) (i : nat) : fingerprint :=
  nth i hashes fp0.

(** The comparison shared by the three selection sites of [winnow]:
    smaller hash, or equal hash and later index. *)
Definition beats (current best : fingerprint) : bool :=
  (fp_hash current <? fp_hash best)%N
  || ((fp_hash current =? fp_hash best)%N
      && (fp_index best <? fp_index current)%nat).

Definition pushFingerprint (fingerprints : list fingerprint)
    (candidate : fingerprint) : list fingerprint :=
  match last fingerprints with
  | Some prev =>
      if negb (fp_hash prev =? fp_hash candidate)%N
         || negb (fp_index prev =? fp_index candidate)%nat
      then fingerprints ++ [candidate]
      else fingerprints
  | None => fingerprints ++ [candidate]
  end.

(** The [for] loop that rescans the window [windowStart..windowEnd];
    [count] is the number of positions left. *)
Fixpoint rescan (hashes : list fingerprint) (i count minIndex : nat) : nat :=
  match count with
  | O => minIndex
  | S count' =>
      rescan hashes (S i) count'
        (if beats (at_ hashes i) (at_ hashes minIndex) then i else minIndex)
  end.

(** The [while (windowEnd < hashes.length)] loop. *)
Fixpoint slide (fuel : nat) (hashes : list fingerprint)
    (windowStart windowEnd : nat) (minIndex : Z)
    (fingerprints : list fingerprint) : list fingerprint :=
  match fuel with
  | O => fingerprints
  | S fuel' =>
      if (windowEnd <? length hashes)%nat then
        if (minIndex <? Z.of_nat windowStart)%Z then
          let m := rescan hashes windowStart (S (windowEnd - windowStart))
                     windowStart in
          slide fuel' hashes (S windowStart) (S windowEnd) (Z.of_nat m)
            (pushFingerprint fingerprints (at_ hashes m))
        else
          let next := at_ hashes windowEnd in
          let min := at_ hashes (Z.to_nat minIndex) in
          if beats next min then
            slide fuel' hashes (S windowStart) (S windowEnd)
              (Z.of_nat windowEnd) (pushFingerprint fingerprints next)
          else
            slide fuel' hashes (S windowStart) (S windowEnd) minIndex
              fingerprints
      else fingerprints
  end.

Definition winnow (hashes : list fingerprint) (windowSize : nat)
  : list fingerprint :=
  match hashes, windowSize with
  | [], _ | _, O => []
  | _, _ =>
      if (length hashes <=? windowSize)%nat then
        match fold_left
                (fun best current =>
                   match best with
                   | None => Some current
                   | Some b => if beats current b then Some current else Some b
                   end) hashes None with
        | Some min => [min]
        | None => []
        end
      else slide (length hashes) hashes 0 (windowSize - 1) (-1) []
  end.

(** The k-gram hashes [computeFingerprints] builds before winnowing. *)
Definition shingleHashes (toks : list jsstring) (shingleSize : nat)
  : list fingerprint :=
  List.map (fun i => Fingerprint (hashShingle toks i shingleSize) i)
    (seq 0 (S (length toks - shingleSize))).

Definition indexFingerprints (fps : list fingerprint) : list (N * list nat) :=
  fold_left
    (fun index fp =>
       let index' :=
         if OMap.has index (fp_hash fp) then index
         else OMap.set index (fp_hash fp) [] in
       let arr := default [] (OMap.get index' (fp_hash fp)) in
       if (length arr <? 64)%nat
       then OMap.set index' (fp_hash fp) (arr ++ [fp_index fp])
       else index')
    fps [].

Definition computeFingerprints (toks : list jsstring)
    (shingleSize windowSize : nat)
  : list fingerprint * list (N * list nat) * list N :=
  if (length toks <? shingleSize)%nat then ([], [], [])
  else
    let fingerprints := winnow (shingleHashes toks shingleSize) windowSize in
    let fingerprintIndex := indexFingerprints fingerprints in
    (fingerprints, fingerprintIndex, OMap.keys fingerprintIndex).

(** Offsets of the line starts: 0 and the position after every LF. *)
Fixpoint lineStarts (content : jsstring) (pos : nat) : list nat :=
  match content with
  | [] => []
  | c :: t =>
      if (c =? 10)%N then S pos :: lineStarts t (S pos)
      else lineStarts t (S pos)
  end.

Definition buildLineOffsets (content : jsstring) : list nat :=
  0%nat :: lineStarts content 0.

Definition enrichSymbol (rootPath : jsstring) (s : symbol) : option enriched :=
  if negb (JS.truthy (sym_text s)) || negb (JS.truthy (sym_id s)) then None
  else
    let tm := tokenizeWithMeta (sym_text s) in
    if (length (tokens tm) <? MIN_TOKENS)%nat then None
    else
      let '(fingerprints, fingerprintIndex, fingerprintHashes) :=
        computeFingerprints (tokens tm) SHINGLE_SIZE WINDOW_SIZE in
      Some {|
        e_id := sym_id s;
        e_path := sym_path s;
        e_fileId :=
          if JS.truthy (sym_fileId s) then sym_fileId s
          else str "file:" ++ sym_path s;
        e_startLine := sym_startLine s;
        e_endLine := sym_endLine s;
        e_language := sym_language s;
        e_tokens := tokens tm;
        e_tokenOffsets := offsets tm;
        e_tokenLengths := lengths tm;
        e_lineOffsets := buildLineOffsets (sym_text s);
        e_fingerprints := fingerprints;
        e_fingerprintIndex := fingerprintIndex;
        e_fingerprintHashes := fingerprintHashes;
        e_tokenCounts := buildTokenCounts (tokens tm);
        e_tokenTotal := length (tokens tm)
      |}.

Definition hasSharedFingerprints (a b : enriched) : bool :=
  let '(smaller, larger) :=
    if (length (e_fingerprintHashes a) <=? length (e_fingerprintHashes b))%nat
    then (e_fingerprintHashes a, e_fingerprintHashes b)
    else (e_fingerprintHashes b, e_fingerprintHashes a) in
  existsb (OMap.mem larger) smaller.

Record matchExtent : Type := MatchExtent {
  startA : nat; endA : nat; startB : nat; endB : nat
}.

(** [tokens[i]]; every use below is guarded so that [i] is in range. *)
Definition tok (toks : list jsstring) (i : nat) : jsstring := nth i toks [].

Fixpoint extendLeft (tokensA tokensB : list jsstring) (startA startB : nat)
  : nat * nat :=
  match startA, startB with
  | S a', S b' =>
      if eqb (tok tokensA a') (tok tokensB b')
      then extendLeft tokensA tokensB a' b'
      else (startA, startB)
  | _, _ => (startA, startB)
  end.

Fixpoint extendRight (fuel : nat) (tokensA tokensB : list jsstring)
    (endA endB : nat) : nat * nat :=
  match fuel with
  | O => (endA, endB)
  | S fuel' =>
      if (S endA <? length tokensA)%nat && (S endB <? length tokensB)%nat
         && eqb (tok tokensA (S endA)) (tok tokensB (S endB))
      then extendRight fuel' tokensA tokensB (S endA) (S endB)
      else (endA, endB)
  end.

Definition extendMatch (tokensA tokensB : list jsstring)
    (idxA idxB shingleSize : nat) : option matchExtent :=
  let limit :=
    Z.min (Z.of_nat (length tokensA) - Z.of_nat idxA)
          (Z.of_nat (length tokensB) - Z.of_nat idxB) in
  if (limit <? Z.of_nat shingleSize)%Z then None
  else
    let '(startA, startB) := extendLeft tokensA tokensB idxA idxB in
    let '(endA, endB) :=
      extendRight (length tokensA) tokensA tokensB
        (idxA + shingleSize - 1) (idxB + shingleSize - 1) in
    Some (MatchExtent startA endA startB endB).

(** Stable sort by [start], as [Array.prototype.sort] with the
    comparator [a.start - b.start]. *)
Fixpoint insertByStart (s : segment) (sorted : list segment) : list segment :=
  match sorted with
  | [] => [s]
  | y :: t =>
      if (seg_start s <=? seg_start y)%nat then s :: y :: t
      else y :: insertByStart s t
  end.

Definition sortByStart (segments : list segment) : list segment :=
  fold_right insertByStart [] segments.

(** The merging loop; [last] is [merged[merged.length - 1]], which the
    source updates in place. *)
Fixpoint mergeLoop (last : segment) (sorted : list segment) : list segment :=
  match sorted with
  | [] => [last]
  | current :: t =>
      if (seg_start current <=? seg_end last + 1)%nat
      then mergeLoop
             (Segment (seg_start last) (Nat.max (seg_end last) (seg_end current)))
             t
      else last :: mergeLoop (Segment (seg_start current) (seg_end current)) t
  end.

Definition mergeSegments (segments : list segment) : list segment :=
  match sortByStart segments with
  | [] => []
  | first :: t => mergeLoop first t
  end.

(** The state of the three nested loops of [computeSymbolOverlap];
    [seenPairs] holds the pair behind each key ["idxA:idxB"]. *)
Record matchState : Type := MatchState {
  segmentsA : list segment;
  segmentsB : list segment;
  seenPairs : list (nat * nat)
}.

Definition full (st : matchState) : bool :=
  (MAX_MATCHES_PER_PAIR <=? length (seenPairs st))%nat.

Fixpoint loopB (a b : enriched) (idxA : nat) (positionsB : list nat)
    (st : matchState) : matchState :=
  match positionsB with
  | [] => st
  | idxB :: t =>
      if full st then st
      else if OMap.mem (seenPairs st) (idxA, idxB) then loopB a b idxA t st
      else
        let seen := seenPairs st ++ [(idxA, idxB)] in
        match extendMatch (e_tokens a) (e_tokens b) idxA idxB SHINGLE_SIZE with
        | Some m =>
            loopB a b idxA t
              (MatchState
                 (segmentsA st ++ [Segment (startA m) (endA m)])
                 (segmentsB st ++ [Segment (startB m) (endB m)])
                 seen)
        | None => loopB a b idxA t (MatchState (segmentsA st) (segmentsB st) seen)
        end
  end.

Fixpoint loopA (a b : enriched) (positionsA positionsB : list nat)
    (st : matchState) : matchState :=
  match positionsA with
  | [] => st
  | idxA :: t =>
      let st' := loopB a b idxA positionsB st in
      if full st' then st' else loopA a b t positionsB st'
  end.

Fixpoint loopShared (a b : enriched) (shared : list N) (st : matchState)
  : matchState :=
  match shared with
  | [] => st
  | hash :: t =>
      let positionsA := default [] (OMap.get (e_fingerprintIndex a) hash) in
      let positionsB := default [] (OMap.get (e_fingerprintIndex b) hash) in
      let st' := loopA a b positionsA positionsB st in
      if full st' then st' else loopShared a b t st'
  end.

Record overlap : Type := Overlap {
  o_similarity : F64.float;
  o_segmentsA : list segment;
  o_segmentsB : list segment
}.

Definition segmentTokens (segments : list segment) : nat :=
  fold_left (fun sum seg => (sum + (seg_end seg - seg_start seg + 1))%nat)
    segments 0%nat.

Definition computeSymbolOverlap (a b : enriched) : option overlap :=
  let shared :=
    List.filter (OMap.mem (e_fingerprintHashes b)) (e_fingerprintHashes a) in
  match shared with
  | [] => None
  | _ =>
      let st := loopShared a b shared (MatchState [] [] []) in
      match segmentsA st, segmentsB st with
      | [], _ | _, [] => None
      | _, _ =>
          let mergedA := mergeSegments (segmentsA st) in
          let mergedB := mergeSegments (segmentsB st) in
          match mergedA, mergedB with
          | [], _ | _, [] => None
          | _, _ =>
              let overlapTokens := segmentTokens mergedA in
              let denominator :=
                Nat.max (length (e_tokens a)) (length (e_tokens b)) in
              if (denominator =? 0)%nat then None
              else Some (Overlap
                           (F64.div (F64.of_nat overlapTokens)
                                    (F64.of_nat denominator))
                           mergedA mergedB)
          end
      end
  end.

(** The binary search of [locateLine]. *)
Fixpoint locateLoop (fuel : nat) (position : nat) (offsets : list nat)
    (low high : Z) : nat :=
  match fuel with
  | O => length offsets
  | S fuel' =>
      if (low <=? high)%Z then
        let mid := ((low + high) / 2)%Z in
        let start := nth (Z.to_nat mid) offsets 0%nat in
        if (position <? start)%nat
        then locateLoop fuel' position offsets low (mid - 1)
        else match nth_error offsets (Z.to_nat mid + 1) with
             | Some next =>
                 if (next <=? position)%nat
                 then locateLoop fuel' position offsets (mid + 1) high
                 else (Z.to_nat mid + 1)%nat
             | None => (Z.to_nat mid + 1)%nat
             end
      else length offsets
  end.

Definition locateLine (position : nat) (offsets : list nat) : nat :=
  match offsets with
  | [] => 1%nat
  | _ =>
      locateLoop (S (length offsets)) position offsets 0
        (Z.of_nat (length offsets) - 1)
  end.

(** [x || y] on line numbers. *)
Definition orElse (x y : Z) : Z := if (x =? 0)%Z then y else x.

Definition segmentsToLines (s : enriched) (segments : list segment)
  : lineRange :=
  match segments, last segments with
  | first :: _, Some last =>
      let startOffset :=
        default 0%nat (nth_error (e_tokenOffsets s) (seg_start first)) in
      let endTokenOffset :=
        match nth_error (e_tokenOffsets s) (seg_end last) with
        | Some o =>
            (o + default 0 (nth_error (e_tokenLengths s) (seg_end last)))%nat
        | None => startOffset
        end in
      let startLine :=
        (e_startLine s
         + Z.of_nat (locateLine startOffset (e_lineOffsets s)) - 1)%Z in
      let endLine :=
        (e_startLine s
         + Z.of_nat (locateLine (Nat.max (endTokenOffset - 1) 0)
                       (e_lineOffsets s)) - 1)%Z in
      LineRange (orElse startLine (e_startLine s))
                (orElse endLine (e_endLine s))
  | _, _ => LineRange (e_startLine s) (e_endLine s)
  end.

(** Language names come from the table of language.js and are ASCII. *)
Definition normalizeLanguage (value : option jsstring) : option jsstring :=
  match value with
  | None | Some [] => None
  | Some v =>
      let normalized := toLowerCase v in
      if OMap.mem JS_FAMILY normalized then Some (str "js-family")
      else Some normalized
  end.

Definition languagesAreCompatible (a b : option jsstring) : bool :=
  match normalizeLanguage a, normalizeLanguage b with
  | Some normA, Some normB => eqb normA normB
  | _, _ => true
  end.

Definition diceCoefficient (countsA : list (jsstring * nat)) (totalA : nat)
    (countsB : list (jsstring * nat)) (totalB : nat) : F64.float :=
  if (totalA =? 0)%nat || (totalB =? 0)%nat then F64.of_Z 0
  else
    let intersection :=
      fold_left
        (fun acc '(token, count) =>
           match OMap.get countsB token with
           | Some countB => (acc + Nat.min count countB)%nat
           | None => acc
           end) countsA 0%nat in
    let combined := (totalA + totalB)%nat in
    if (combined =? 0)%nat then F64.of_Z 0
    else F64.div (F64.of_nat (2 * intersection)) (F64.of_nat combined).

Definition addClone (map : gmap jsstring (list cloneEntry))
    (source target : enriched) (sim : F64.float) (range : option lineRange)
  : gmap jsstring (list cloneEntry) :=
  let startLine :=
    match range with
    | Some r => if (r_startLine r =? 0)%Z then e_startLine target
                else r_startLine r
    | None => e_startLine target
    end in
  let endLine :=
    match range with
    | Some r => if (r_endLine r =? 0)%Z then e_endLine target
                else r_endLine r
    | None => e_endLine target
    end in
  <[ e_id source :=
       default [] (map !! e_id source) ++
       [CloneEntry (e_id target) (e_path target) startLine endLine
          (F64.toFixed2 sim)] ]> map.

(** What one iteration of the inner loop computes for a pair. *)
Definition pairSimilarity (a b : enriched) : F64.float * option overlap :=
  let shareFingerprints := hasSharedFingerprints a b in
  let overlap := if shareFingerprints then computeSymbolOverlap a b else None in
  let dice :=
    diceCoefficient (e_tokenCounts a) (e_tokenTotal a)
                    (e_tokenCounts b) (e_tokenTotal b) in
  (match overlap with
   | Some o => F64.max (o_similarity o) dice
   | None => dice
   end, overlap).

Record loopState : Type := LoopState {
  results : gmap jsstring (list cloneEntry);
  comparisons : N
}.

(** The inner [for (j = i + 1; ...)] loop over [symbols[i+1..]]. *)
Fixpoint innerLoop (threshold : F64.float) (a : enriched)
    (others : list enriched) (st : loopState) : loopState :=
  match others with
  | [] => st
  | b :: t =>
      if (MAX_PAIRS <=? comparisons st)%N then st
      else if negb (languagesAreCompatible (e_language a) (e_language b))
      then innerLoop threshold a t st
      else
        let '(sim, overlap) := pairSimilarity a b in
        let comparisons' := (comparisons st + 1)%N in
        if F64.geb sim threshold then
          let rangeForB :=
            option_map (fun o => segmentsToLines b (o_segmentsB o)) overlap in
          let rangeForA :=
            option_map (fun o => segmentsToLines a (o_segmentsA o)) overlap in
          innerLoop threshold a t
            (LoopState
               (addClone (addClone (results st) a b sim rangeForB)
                         b a sim rangeForA)
               comparisons')
        else innerLoop threshold a t (LoopState (results st) comparisons')
  end.

(** The outer [for (i = 0; ...)] loop. *)
Fixpoint outerLoop (threshold : F64.float) (symbols : list enriched)
    (st : loopState) : loopState :=
  match symbols with
  | [] => st
  | a :: t => outerLoop threshold t (innerLoop threshold a t st)
  end.

Definition prepare (rootPath : jsstring) (symbolEntries : list symbol)
  : list enriched :=
  omap (enrichSymbol rootPath) (List.filter isFunctionLike symbolEntries).

Definition findSymbolClones (rootPath : jsstring)
    (symbolEntries : list symbol) (threshold : F64.float)
  : gmap jsstring (list cloneEntry) :=
  match symbolEntries with
  | [] => ∅
  | _ =>
      match prepare rootPath symbolEntries with
      | [] => ∅
      | symbols => results (outerLoop threshold symbols (LoopState ∅ 0))
      end
  end.

End CloneDetector.

(** ** Node's [path] module (POSIX flavour) *)

Module NodePath.

Definition slash : N := 47.

(** [normalizeString] on the segments of an absolute path: empty and
    ["."] segments vanish, [".."] drops the segment before it and is
    itself dropped at the root. *)
Definition normalizeSegments (segments : list jsstring) : list jsstring :=
  rev (fold_left
         (fun stack seg =>
            if eqb seg [] || eqb seg (str ".") then stack
            else if eqb seg (str "..") then tl stack
            else seg :: stack)
         segments []).

(** The right-to-left loop of [path.resolve]: arguments are prepended
    until one of them is absolute; the working directory comes last. *)
Fixpoint joinUntilAbsolute (cwd : jsstring) (reversedArgs : list jsstring)
    (resolvedPath : jsstring) : jsstring :=
  match reversedArgs with
  | [] => cwd ++ [slash] ++ resolvedPath
  | [] :: t => joinUntilAbsolute cwd t resolvedPath
  | (c :: p) :: t =>
      if (c =? slash)%N then (c :: p) ++ [slash] ++ resolvedPath
      else joinUntilAbsolute cwd t ((c :: p) ++ [slash] ++ resolvedPath)
  end.

(** [path.resolve(...args)] in a process whose working directory is the
    absolute path [cwd]. *)
Definition resolve (cwd : jsstring) (args : list jsstring) : jsstring :=
  slash ::
  join [slash]
    (normalizeSegments (split_on slash (joinUntilAbsolute cwd (rev args) []))).

Fixpoint dropTrailingSlashes (reversed : jsstring) : jsstring :=
  match reversed with
  | c :: t => if (c =? slash)%N then dropTrailingSlashes t else reversed
  | [] => []
  end.

(** [path.basename(p)]. *)
Definition basename (p : jsstring) : jsstring :=
  default [] (last (split_on slash (rev (dropTrailingSlashes (rev p))))).

End NodePath.

(** ** language.js *)

Module Language.

Definition EXTENSION_TO_LANGUAGE : list (jsstring * jsstring) :=
  List.map (fun p => (str (fst p), str (snd p)))
    [(".js", "JavaScript"); (".jsx", "JavaScript"); (".ts", "TypeScript");
     (".tsx", "TypeScript"); (".mjs", "JavaScript"); (".cjs", "JavaScript");
     (".json", "JSON"); (".py", "Python"); (".rb", "Ruby"); (".java", "Java");
     (".kt", "Kotlin"); (".swift", "Swift"); (".go", "Go"); (".rs", "Rust");
     (".php", "PHP"); (".cs", "C#"); (".cpp", "C++"); (".cc", "C++");
     (".c", "C"); (".h", "C/C++ Header"); (".hpp", "C++ Header");
     (".sql", "SQL"); (".yml", "YAML"); (".yaml", "YAML"); (".toml", "TOML");
     (".md", "Markdown"); (".vue", "Vue"); (".svelte", "Svelte");
     (".scss", "SCSS"); (".css", "CSS"); (".html", "HTML"); (".xml", "XML");
     (".sh", "Shell"); (".bash", "Shell"); (".zsh", "Shell");
     (".ps1", "PowerShell")]%string.

(** The keys of the table are ASCII, so only the ASCII letters of
    [ext.toLowerCase()] matter for the lookup. *)
Definition detectLanguage (ext : jsstring) : jsstring :=
  default (str "Unknown") (OMap.get EXTENSION_TO_LANGUAGE (toLowerCase ext)).

End Language.

(** ** The file system seen by the analyzer *)

Module Fs.

(** The scanned entries ([File] of the walker). *)
Record file : Type := File {
  f_path : jsstring;
  f_name : jsstring;
  f_ext : jsstring;
  f_size : N
}.

(** The outcome of [fs.readFileSync(p, "utf8")]: the text, or the
    message of the error it throws. *)
Inductive readResult : Type :=
| ReadOk (content : jsstring)
| ReadError (message : jsstring).

End Fs.

(** ** structureGraph.js *)

Module StructureGraph.

Import CloneDetector.

Definition MAX_FILE_BYTES : N := 256 * 1024.
Definition MAX_SYMBOL_BYTES : N := 128 * 1024.

Definition normalizePath (value : jsstring) : jsstring :=
  List.map (fun c => if (c =? 92)%N then 47%N else c) value.

Definition buildLineOffsets (content : jsstring) : list nat :=
  0%nat :: lineStarts content 0.

Definition createFallbackSymbol (content relativePath language : jsstring)
  : list symbol :=
  if negb (JS.truthy content) || negb (JS.truthy (trim content)) then []
  else
    let normalizedPath := normalizePath relativePath in
    let snippet := firstn (N.to_nat MAX_SYMBOL_BYTES) content in
    let lineOffsets := buildLineOffsets content in
    let totalLines := length lineOffsets in
    [ {| sym_id := str "file:" ++ normalizedPath ++ str "#__file__";
         sym_fileId := str "file:" ++ normalizedPath;
         sym_name :=
           if JS.truthy (NodePath.basename normalizedPath)
           then NodePath.basename normalizedPath else normalizedPath;
         sym_kind := str "file";
         sym_path := normalizedPath;
         sym_language := Some language;
         sym_startLine := 1;
         sym_endLine := Z.of_nat totalLines;
         sym_text := snippet |} ].

(** [dedupeById]: the first entry of an id keeps its place, and is
    replaced by a later one with a longer text. *)
Fixpoint replaceLonger (unique : list symbol) (entry : symbol) : list symbol :=
  match unique with
  | [] => [entry]
  | existing :: t =>
      if eqb (sym_id existing) (sym_id entry) then
        (if (length (sym_text existing) <? length (sym_text entry))%nat
         then entry else existing) :: t
      else existing :: replaceLonger t entry
  end.

Definition dedupeById (entries : list symbol) : list symbol :=
  fold_left
    (fun unique entry =>
       if negb (JS.truthy (sym_id entry)) then unique
       else replaceLonger unique entry)
    entries [].

Section Extraction.

(** The Babel parser and the visitor pass over its tree are outside the
    repository: [parse] is [babelParser.parse] ([None] when it throws),
    [visit] is the list of entries the four visitors push. *)
Variable ast : Type.
Variable parse : jsstring -> jsstring -> option ast.
Variable visit : ast -> jsstring -> jsstring -> jsstring -> list symbol.

Definition isJs (language : jsstring) : bool :=
  eqb language (str "JavaScript") || eqb language (str "TypeScript").

Definition extractSymbolsFromContent (content relativePath language : jsstring)
  : list symbol :=
  if negb (isJs language)
  then createFallbackSymbol content relativePath language
  else
    match parse content language with
    | None => createFallbackSymbol content relativePath language
    | Some tree =>
        match visit tree content relativePath language with
        | [] => createFallbackSymbol content relativePath language
        | entries => dedupeById entries
        end
    end.

(** [exists] is [fs.existsSync], [readFile] is [fs.readFileSync] on the
    resolved path. *)
Variable cwd : jsstring.
Variable exists_ : jsstring -> bool.
Variable readFile : jsstring -> Fs.readResult.

Definition extractSymbolsForFile (rootPath : jsstring) (file : Fs.file)
    (language : jsstring) : list symbol :=
  let absPath := NodePath.resolve cwd [rootPath; Fs.f_path file] in
  if negb (exists_ absPath) then []
  else if (MAX_FILE_BYTES <? Fs.f_size file)%N then []
  else
    match readFile absPath with
    | Fs.ReadError _ => []
    | Fs.ReadOk content =>
        extractSymbolsFromContent content (Fs.f_path file) language
    end.

End Extraction.

(** *** Export usage (the last part of [buildStructureGraph]) *)

Record dependencyEdge : Type := DependencyEdge {
  dep_source : jsstring;
  dep_target : jsstring;
  dep_specifier : jsstring;
  dep_kind : jsstring
}.

Record importDescriptor : Type := ImportDescriptor {
  specifier : jsstring;
  names : list jsstring;
  hasNamespace : bool
}.

(** [resolution]: key [`${source}::${specifier}`] to the resolved local
    target. *)
Definition buildResolution (edges : list dependencyEdge)
  : gmap jsstring jsstring :=
  fold_left
    (fun resolution dep =>
       if negb (eqb (dep_kind dep) (str "local")) then resolution
       else
         <[ normalizePath (dep_source dep) ++ str "::" ++ dep_specifier dep
            := normalizePath (dep_target dep) ]> resolution)
    edges ∅.

Record usageState : Type := UsageState {
  seenPerSource : gset jsstring;
  exportUsageSets : gmap jsstring (gset jsstring)
}.

(** The body shared by the two [forEach] callbacks once the exported
    name is known. *)
Definition credit (target sourceFile exportName : jsstring) (st : usageState)
  : usageState :=
  let key := target ++ str "#" ++ exportName in
  let uniqueKey := key ++ str "::" ++ sourceFile in
  if bool_decide (uniqueKey ∈ seenPerSource st) then st
  else
    UsageState
      ({[uniqueKey]} ∪ seenPerSource st)
      (<[ key := {[sourceFile]} ∪ default ∅ (exportUsageSets st !! key) ]>
         (exportUsageSets st)).

(** One import descriptor of [sourceFile]. *)
Definition creditImport (resolution : gmap jsstring jsstring)
    (exportsByFile : list (jsstring * list jsstring))
    (sourceFile : jsstring) (st : usageState) (imp : importDescriptor)
  : usageState :=
  match resolution !! (sourceFile ++ str "::" ++ specifier imp) with
  | None | Some [] => st
  | Some target =>
      let exportSet := default [] (OMap.get exportsByFile target) in
      if hasNamespace imp then
        fold_left (fun st name => credit target sourceFile name st)
          exportSet st
      else
        fold_left
          (fun st name =>
             let exportName := if JS.truthy name then name else str "default" in
             if negb (OMap.mem exportSet exportName) then st
             else credit target sourceFile exportName st)
          (names imp) st
  end.

(** [importsByFile.forEach]: [seenPerSource] starts empty for every
    importing file. *)
Definition computeExportUsage (resolution : gmap jsstring jsstring)
    (exportsByFile : list (jsstring * list jsstring))
    (importsByFile : list (jsstring * list importDescriptor))
  : gmap jsstring (gset jsstring) :=
  fold_left
    (fun usage '(sourceFile, imports) =>
       exportUsageSets
         (fold_left (creditImport resolution exportsByFile sourceFile)
            imports (UsageState ∅ usage)))
    importsByFile ∅.

(** The [exportUsage] field of the returned graph. *)
Definition exportUsage (edges : list dependencyEdge)
    (exportsByFile : list (jsstring * list jsstring))
    (importsByFile : list (jsstring * list importDescriptor))
  : gmap jsstring nat :=
  size <$> computeExportUsage (buildResolution edges) exportsByFile
             importsByFile.

End StructureGraph.

(** ** smellDetector.js *)

Module SmellDetector.

Import CloneDetector.

Definition FUNCTION_KINDS : list jsstring := [str "function"; str "component"].
Definition CLASS_KINDS : list jsstring := [str "class"].

Definition LONG_FUNCTION_WARNING : Z := 50.
Definition LONG_FUNCTION_ERROR : Z := 100.
Definition PARAM_WARNING_THRESHOLD : nat := 5.
Definition PARAM_ERROR_THRESHOLD : nat := 8.
Definition BRANCH_WARNING_THRESHOLD : nat := 15.
Definition BRANCH_ERROR_THRESHOLD : nat := 25.
Definition LARGE_CLASS_METHOD_WARNING : nat := 15.
Definition LARGE_CLASS_METHOD_ERROR : nat := 25.

Inductive severity : Type := error | warning | info.

Inductive issueType : Type :=
| long_function | many_parameters | branch_heavy | large_class | many_methods.

(** The message templates with the values they interpolate: the symbol
    name (or its stand-in) and the measured number. *)
Inductive message : Type :=
| SpansLines (name : jsstring) (lineSpan : Z)
| TakesParameters (name : jsstring) (paramCount : nat)
| ContainsBranches (name : jsstring) (branchCount : nat)
| ClassSpansLines (name : jsstring) (lineSpan : Z)
| ExposesMethods (name : jsstring) (methodCount : nat).

Record issue : Type := Issue {
  i_category : jsstring;
  i_severity : severity;
  i_type : issueType;
  i_path : jsstring;
  i_message : message;
  i_symbolId : jsstring;
  i_line : option Z
}.

Definition createIssue (s : symbol) (sev : severity) (type : issueType)
    (msg : message) : issue :=
  {| i_category := str "smell";
     i_severity := sev;
     i_type := type;
     i_path := sym_path s;
     i_message := msg;
     i_symbolId := sym_id s;
     i_line := if (sym_startLine s =? 0)%Z then None
               else Some (sym_startLine s) |}.

Definition newline : regex := RSeq (opt (lit (String "013" ""))) (RChar 10).

Definition countLines (text : jsstring) : nat :=
  if negb (JS.truthy text) then 0%nat else split_count newline text.

Definition computeLineSpan (s : symbol) : Z :=
  let fallback := Z.of_nat (countLines (sym_text s)) in
  if negb (sym_startLine s =? 0)%Z && negb (sym_endLine s =? 0)%Z then
    let span := (sym_endLine s - sym_startLine s + 1)%Z in
    if (0 <? span)%Z then span else fallback
  else fallback.

Definition keyword (w : string) : regex := seqs [RWordB; lit w; RWordB].

Definition branchRegex : regex :=
  alts [keyword "if";
        seqs [RWordB; lit "else"; plus space; lit "if"; RWordB];
        keyword "for"; keyword "while"; keyword "switch"; keyword "case";
        keyword "catch"; lit "&&"; lit "||"].

Definition countBranches (text : jsstring) : nat :=
  if negb (JS.truthy text) then 0%nat else length (matches branchRegex text).

Definition signatureRegex : regex :=
  seqs [RBol true; RStar true (none_of "{=>"); lit "(";
        RGroup (RStar true (none_of ")")); lit ")"].

Definition restRegex : regex := seqs [RBol false; lit "..."].

Definition countParameters (text : jsstring) : nat :=
  if negb (JS.truthy text) then 0%nat
  else
    match exec signatureRegex text with
    | None => 0%nat
    | Some signatureMatch =>
        let params :=
          List.filter (fun p => JS.truthy p && negb (test restRegex p))
            (List.map trim
               (split_on 44 (default [] (m_group signatureMatch)))) in
        length params
    end.

Definition methodRegex : regex :=
  seqs [RChar 10; RStar true space;
        opt (RSeq (lit "async") (plus space));
        opt (RSeq (lit "static") (plus space));
        RClass (fun c => is_upper c || is_lower c || (c =? 95)%N);
        RStar true word; RStar true space; lit "("].

Definition countClassMethods (text : jsstring) : nat :=
  if negb (JS.truthy text) then 0%nat else length (matches methodRegex text).

Definition nameOr (s : symbol) (fallback : string) : jsstring :=
  if JS.truthy (sym_name s) then sym_name s else str fallback.

Definition detectFunctionSmells (s : symbol) : list issue :=
  let lineSpan := computeLineSpan s in
  let branchCount := countBranches (sym_text s) in
  let paramCount := countParameters (sym_text s) in
  (if (LONG_FUNCTION_WARNING <=? lineSpan)%Z then
     [createIssue s
        (if (LONG_FUNCTION_ERROR <=? lineSpan)%Z then error else warning)
        long_function (SpansLines (nameOr s "Anonymous function") lineSpan)]
   else [])
  ++ (if (PARAM_WARNING_THRESHOLD <=? paramCount)%nat then
        [createIssue s
           (if (PARAM_ERROR_THRESHOLD <=? paramCount)%nat then warning else info)
           many_parameters (TakesParameters (nameOr s "Function") paramCount)]
      else [])
  ++ (if (BRANCH_WARNING_THRESHOLD <=? branchCount)%nat then
        [createIssue s
           (if (BRANCH_ERROR_THRESHOLD <=? branchCount)%nat then error
            else warning)
           branch_heavy (ContainsBranches (nameOr s "Function") branchCount)]
      else []).

Definition detectClassSmells (s : symbol) : list issue :=
  let lineSpan := computeLineSpan s in
  let methodCount := countClassMethods (sym_text s) in
  (if (LONG_FUNCTION_WARNING * 2 <=? lineSpan)%Z then
     [createIssue s
        (if (LONG_FUNCTION_ERROR * 2 <=? lineSpan)%Z then error else warning)
        large_class (ClassSpansLines (nameOr s "Class") lineSpan)]
   else [])
  ++ (if (LARGE_CLASS_METHOD_WARNING <=? methodCount)%nat then
        [createIssue s
           (if (LARGE_CLASS_METHOD_ERROR <=? methodCount)%nat then error
            else warning)
           many_methods (ExposesMethods (nameOr s "Class") methodCount)]
      else []).

(** [structureGraph.symbols.forEach]: the issues one symbol adds. *)
Definition symbolSmells (s : symbol) : list issue :=
  if negb (JS.truthy (sym_text s)) || negb (JS.truthy (sym_path s)) then []
  else if OMap.mem FUNCTION_KINDS (sym_kind s) then detectFunctionSmells s
  else if OMap.mem CLASS_KINDS (sym_kind s) then detectClassSmells s
  else [].

Definition detectCodeSmells (symbols : list symbol) : list issue :=
  flat_map symbolSmells symbols.

End SmellDetector.

(** ** fileMetrics.js *)

Module FileMetrics.

Definition DEFAULT_MAX_FILE_SIZE : N := 512 * 1024.

Record fileMetrics : Type := FileMetricsRecord {
  language : jsstring;
  size : N;
  lineCount : option nat;
  complexityScore : option F64.float;
  todoCount : nat;
  skipped : bool
}.

Inductive severity : Type := warning | info.

Inductive issueType : Type :=
| file_too_large | file_read_error | large_file | high_complexity
| todo_comments.

(** The message templates with the values they interpolate. *)
Inductive message : Type :=
| SkippedReading (path : jsstring) (bytes : N)
| CouldNotRead (errorMessage : jsstring)
| HasLines (path : jsstring) (lineCount : nat)
| HighDensity (path : jsstring) (complexityScore : F64.float)
| TodoFound (todoCount : nat).

Record issue : Type := Issue {
  i_severity : severity;
  i_type : issueType;
  i_path : jsstring;
  i_message : message
}.

Definition newline : regex := RSeq (opt (lit (String "013" ""))) (RChar 10).

Definition decisionRegex : regex :=
  seqs [RWordB;
        alts [lit "if"; lit "else if"; lit "for"; lit "while"; lit "case";
              lit "catch"; lit "throw"; lit "function"; lit "class"; lit "=>";
              lit "switch"];
        RWordB].

Definition todoRegex : regex :=
  seqs [RWordB; alts [lit "TODO"; lit "FIXME"; lit "HACK"; lit "XXX"]; RWordB].

Definition countMatches (value : jsstring) (r : regex) : nat :=
  length (matches r value).

(** What the pass has produced so far; [reads] lists the paths given to
    [fs.readFileSync], in order. *)
Record passState : Type := PassState {
  metricsByFile : gmap jsstring fileMetrics;
  issues : list issue;
  reads : list jsstring
}.

Section Pass.

Variable cwd : jsstring.
Variable readFile : jsstring -> Fs.readResult.

(** The body of the [for (const file of files)] loop. *)
Definition fileStep (rootPath : jsstring) (maxFileSize : N) (st : passState)
    (file : Fs.file) : passState :=
  let absPath := NodePath.resolve cwd [rootPath; Fs.f_path file] in
  let fresh :=
    {| language := Language.detectLanguage (Fs.f_ext file);
       size := Fs.f_size file;
       lineCount := None;
       complexityScore := None;
       todoCount := 0;
       skipped := false |} in
  let path := Fs.f_path file in
  if (maxFileSize <? Fs.f_size file)%N then
    PassState
      (<[ path := {| language := language fresh; size := size fresh;
                     lineCount := None; complexityScore := None;
                     todoCount := 0; skipped := true |} ]> (metricsByFile st))
      (issues st ++
       [Issue info file_too_large path (SkippedReading path (Fs.f_size file))])
      (reads st)
  else
    match readFile absPath with
    | Fs.ReadError msg =>
        PassState
          (<[ path := {| language := language fresh; size := size fresh;
                         lineCount := None; complexityScore := None;
                         todoCount := 0; skipped := true |} ]>
             (metricsByFile st))
          (issues st ++ [Issue warning file_read_error path (CouldNotRead msg)])
          (reads st ++ [absPath])
    | Fs.ReadOk content =>
        let lineCount := split_count newline content in
        let decisionPoints := countMatches content decisionRegex in
        let todoCount := countMatches content todoRegex in
        let complexityScore :=
          if (lineCount =? 0)%nat then F64.of_Z 0
          else F64.toFixed2
                 (F64.mul (F64.div (F64.of_nat decisionPoints)
                                   (F64.of_nat lineCount))
                          (F64.of_Z 100)) in
        PassState
          (<[ path := {| language := language fresh; size := size fresh;
                         lineCount := Some lineCount;
                         complexityScore := Some complexityScore;
                         todoCount := todoCount; skipped := false |} ]>
             (metricsByFile st))
          (issues st
           ++ (if (300 <? lineCount)%nat
               then [Issue warning large_file path (HasLines path lineCount)]
               else [])
           ++ (if F64.gtb complexityScore (F64.of_Z 35)
               then [Issue warning high_complexity path
                       (HighDensity path complexityScore)]
               else [])
           ++ (if (0 <? todoCount)%nat
               then [Issue info todo_comments path (TodoFound todoCount)]
               else []))
          (reads st ++ [absPath])
    end.

Definition computeFileMetrics (rootPath : jsstring) (files : list Fs.file)
    (maxFileSize : N) : passState :=
  fold_left (fileStep rootPath maxFileSize) files (PassState ∅ [] []).

End Pass.

End FileMetrics.

(** ** server.js: the source-snippet reader *)

Module Server.

(** What [fs.statSync] finds at a path: a regular file with its bytes,
    or something that is not a file. *)
Inductive node : Type :=
| RegularFile (bytes : list N)
| Directory.

Inductive failure : Type :=
| AccessDenied          (* statusCode 403 *)
| NotAFile              (* statusCode 400 *)
| NoEntry.              (* code ENOENT, thrown by fs.statSync *)

Record snippet : Type := Snippet {
  path : jsstring;
  size : Z;
  content : jsstring;
  truncated : bool
}.

Section Reader.

Variable cwd : jsstring.
Variable fs : jsstring -> option node.
(** [buffer.toString("utf8")]. *)
Variable utf8 : list N -> jsstring.

Definition readSourceSnippet (rootPath relativePath : jsstring) (maxBytes : Z)
  : failure + snippet :=
  let absRoot := NodePath.resolve cwd [rootPath] in
  let absFile := NodePath.resolve cwd [absRoot; relativePath] in
  if negb (startsWith absFile absRoot) then inl AccessDenied
  else
    match fs absFile with
    | None => inl NoEntry
    | Some Directory => inl NotAFile
    | Some (RegularFile bytes) =>
        let statsSize := Z.of_nat (length bytes) in
        let limit := Z.max 1024 (Z.min maxBytes (512 * 1024)) in
        let size := Z.min limit statsSize in
        let buffer := firstn (Z.to_nat size) bytes in
        inr {| path := relativePath;
               size := statsSize;
               content := utf8 buffer;
               truncated := (size <? statsSize)%Z |}
    end.

End Reader.

End Server.

(** ** structureGraph.js: nodes and edges *)

Module GraphBuilder.

Import CloneDetector StructureGraph.

(** [s.replace(pattern, replacement)] for a non-empty string pattern:
    the first occurrence is replaced. *)
Fixpoint replaceFirst (pattern replacement s : jsstring) : jsstring :=
  if startsWith s pattern then replacement ++ skipn (length pattern) s
  else match s with
       | [] => []
       | c :: t => c :: replaceFirst pattern replacement t
       end.

Definition getGroupFromPath (filePath : jsstring) : jsstring :=
  let segments := split_on NodePath.slash filePath in
  if (length segments <=? 1)%nat then str "."
  else join [NodePath.slash] (removelast segments).

Definition getPackageNodeId (filePath : jsstring) : option jsstring :=
  let segments := split_on NodePath.slash filePath in
  if (length segments <? 2)%nat then None
  else
    let topLevel := hd [] segments in
    if negb (JS.truthy topLevel) || eqb topLevel (str ".")
       || startsWith topLevel (str ".")
    then None
    else Some (str "package:" ++ topLevel).

(** The three shapes of node objects. *)
Inductive node : Type :=
| PackageNode (id name path : jsstring)
| FileNode (id name path language group : jsstring) (size : N)
    (lineCount : option nat) (complexityScore : option F64.float)
| SymbolNode (id kind name path language : jsstring) (startLine endLine : Z).

Definition nodeId (n : node) : jsstring :=
  match n with
  | PackageNode id _ _ => id
  | FileNode id _ _ _ _ _ _ _ => id
  | SymbolNode id _ _ _ _ _ _ => id
  end.

Inductive edgeType : Type := contains | defines | import.

Record edge : Type := Edge {
  source : jsstring;
  target : jsstring;
  type : edgeType
}.

Record call : Type := Call { callerName : jsstring; calleeName : jsstring }.

(** The maps and arrays [buildStructureGraph] fills. *)
Record build : Type := Build {
  fileNodes : list (jsstring * node);
  packageNodes : list (jsstring * node);
  symbolNodes : list (jsstring * node);
  edges : list edge;
  symbolDetails : list symbol;
  incomingCalls : list (jsstring * list jsstring);
  exportsByFile : list (jsstring * list jsstring);
  importsByFile : list (jsstring * list importDescriptor)
}.

Record totals : Type := Totals {
  t_packages : nat;
  t_files : nat;
  t_symbols : nat;
  t_relations : nat
}.

Record graph : Type := Graph {
  g_nodes : list node;
  g_edges : list edge;
  g_symbols : list symbol;
  g_incomingCalls : list (jsstring * nat);
  g_exports : list (jsstring * list jsstring);
  g_exportUsage : gmap jsstring nat;
  g_totals : totals
}.

Section Builder.

(** The parser passes and the file system, as in the extraction of
    symbols; [extname] is [path.extname]. The two extraction passes
    over the syntax tree give [None] when they throw. *)
Variable ast : Type.
Variable parse : jsstring -> jsstring -> option ast.
Variable visit : ast -> jsstring -> jsstring -> jsstring -> list symbol.
Variable cwd : jsstring.
Variable exists_ : jsstring -> bool.
Variable readFile : jsstring -> Fs.readResult.
Variable extname : jsstring -> jsstring.
Variable extractCallsForFile :
  jsstring -> Fs.file -> jsstring -> option (list call).
Variable extractExportsAndImportsForFile :
  jsstring -> Fs.file -> jsstring
  -> option (list jsstring * list importDescriptor).

(** The callback of [symbols.forEach]; [byName] is
    [functionSymbolIdsByName]. *)
Definition symbolStep (id normalizedPath language : jsstring)
    (st : build * list (jsstring * jsstring)) (s : symbol)
  : build * list (jsstring * jsstring) :=
  let '(b, byName) := st in
  let symbolId := sym_id s in
  let symbolNodes' :=
    if OMap.has (symbolNodes b) symbolId then symbolNodes b
    else OMap.set (symbolNodes b) symbolId
           (SymbolNode symbolId (sym_kind s) (sym_name s) normalizedPath
              language (sym_startLine s) (sym_endLine s)) in
  (Build (fileNodes b) (packageNodes b) symbolNodes'
     (edges b ++ [Edge id symbolId defines])
     (symbolDetails b ++ [s]) (incomingCalls b) (exportsByFile b)
     (importsByFile b),
   if eqb (sym_kind s) (str "function") || eqb (sym_kind s) (str "component")
   then OMap.set byName (sym_name s) symbolId else byName).

(** The body of the loop over the calls of a file. *)
Definition callStep (byName : list (jsstring * jsstring))
    (incoming : list (jsstring * list jsstring)) (c : call)
  : list (jsstring * list jsstring) :=
  match OMap.get byName (calleeName c), OMap.get byName (callerName c) with
  | Some calleeId, Some callerId =>
      if negb (JS.truthy calleeId) || negb (JS.truthy callerId) then incoming
      else
        OMap.set incoming calleeId
          (OMap.add (default [] (OMap.get incoming calleeId)) callerId)
  | _, _ => incoming
  end.

(** The callback of [files.forEach]. *)
Definition fileStep (normalizedRoot : jsstring)
    (metricsMap : gmap jsstring FileMetrics.fileMetrics) (b : build)
    (file : Fs.file) : build :=
  let normalizedPath := normalizePath (Fs.f_path file) in
  let id := str "file:" ++ normalizedPath in
  let metrics :=
    match metricsMap !! Fs.f_path file with
    | Some m => Some m
    | None => metricsMap !! normalizedPath
    end in
  let language :=
    Language.detectLanguage
      (if JS.truthy (Fs.f_ext file) then Fs.f_ext file
       else extname (Fs.f_path file)) in
  let node :=
    FileNode id (Fs.f_name file) normalizedPath language
      (getGroupFromPath normalizedPath) (Fs.f_size file)
      (match metrics with
       | Some m =>
           match FileMetrics.lineCount m with
           | Some (S n) => Some (S n)
           | _ => None
           end
       | None => None
       end)
      (match metrics with
       | Some m =>
           match FileMetrics.complexityScore m with
           | Some score => if F64.truthy score then Some score else None
           | None => None
           end
       | None => None
       end) in
  let fileNodes' := OMap.set (fileNodes b) id node in
  let '(packageNodes', edges') :=
    match getPackageNodeId normalizedPath with
    | Some pkgId =>
        ((if OMap.has (packageNodes b) pkgId then packageNodes b
          else OMap.set (packageNodes b) pkgId
                 (PackageNode pkgId
                    (replaceFirst (str "package:") [] pkgId)
                    (replaceFirst (str "package:") [] pkgId))),
         edges b ++ [Edge pkgId id contains])
    | None => (packageNodes b, edges b)
    end in
  let symbols :=
    extractSymbolsForFile ast parse visit cwd exists_ readFile
      normalizedRoot file language in
  let '(b1, functionSymbolIdsByName) :=
    fold_left (symbolStep id normalizedPath language) symbols
      (Build fileNodes' packageNodes' (symbolNodes b) edges'
         (symbolDetails b) (incomingCalls b) (exportsByFile b)
         (importsByFile b), []) in
  let incomingCalls' :=
    match extractCallsForFile normalizedRoot file language with
    | Some calls =>
        fold_left (callStep functionSymbolIdsByName) calls (incomingCalls b1)
    | None => incomingCalls b1
    end in
  let '(exportsByFile', importsByFile') :=
    match extractExportsAndImportsForFile normalizedRoot file language with
    | Some (exportNames, imports) =>
        (match exportNames with
         | [] => exportsByFile b1
         | _ => OMap.set (exportsByFile b1) normalizedPath exportNames
         end,
         match imports with
         | [] => importsByFile b1
         | _ => OMap.set (importsByFile b1) normalizedPath imports
         end)
    | None => (exportsByFile b1, importsByFile b1)
    end in
  Build (fileNodes b1) (packageNodes b1) (symbolNodes b1) (edges b1)
    (symbolDetails b1) incomingCalls' exportsByFile' importsByFile'.

(** The callback of [dependencyEdges.forEach]. *)
Definition dependencyStep (fileNodes : list (jsstring * node))
    (edges : list edge) (dep : dependencyEdge) : list edge :=
  if negb (eqb (dep_kind dep) (str "local")) then edges
  else
    let source := str "file:" ++ normalizePath (dep_source dep) in
    let target := str "file:" ++ normalizePath (dep_target dep) in
    if OMap.has fileNodes source && OMap.has fileNodes target
    then edges ++ [Edge source target import]
    else edges.

Definition buildStructureGraph (rootPath : jsstring) (files : list Fs.file)
    (metricsByFile : gmap jsstring FileMetrics.fileMetrics)
    (dependencyEdges : list dependencyEdge) : graph :=
  let normalizedRoot := NodePath.resolve cwd [rootPath] in
  let b :=
    fold_left (fileStep normalizedRoot metricsByFile) files
      (Build [] [] [] [] [] [] [] []) in
  let edges' :=
    fold_left (dependencyStep (fileNodes b)) dependencyEdges (edges b) in
  Graph
    (List.map snd (packageNodes b) ++ List.map snd (fileNodes b)
     ++ List.map snd (symbolNodes b))
    edges'
    (symbolDetails b)
    (List.map (fun e => (fst e, length (snd e))) (incomingCalls b))
    (exportsByFile b)
    (exportUsage dependencyEdges (exportsByFile b) (importsByFile b))
    (Totals (length (packageNodes b)) (length (fileNodes b))
       (length (symbolNodes b)) (length edges')).

End Builder.

End GraphBuilder.

(** ** server.js: static files *)

Module StaticServer.

Import NodePath.

(** [normalizeString(path, allowAboveRoot, "/")] on the segments of a
    path: empty and ["."] segments vanish; [".."] drops the segment
    before it, and where there is none to drop it is kept if
    [allowAboveRoot] and dropped otherwise. *)
Definition normalizeString (allowAboveRoot : bool) (segments : list jsstring)
  : list jsstring :=
  rev (fold_left
         (fun stack seg =>
            if eqb seg [] || eqb seg (str ".") then stack
            else if eqb seg (str "..") then
              match stack with
              | top :: below =>
                  if eqb top (str "..")
                  then (if allowAboveRoot then seg :: stack else stack)
                  else below
              | [] => if allowAboveRoot then [seg] else []
              end
            else seg :: stack)
         segments []).

(** [path.posix.normalize(path)]. *)
Definition normalize (path : jsstring) : jsstring :=
  match path with
  | [] => str "."
  | c :: _ =>
      let isAbsolute := (c =? slash)%N in
      let trailingSeparator :=
        match last path with
        | Some l => (l =? slash)%N
        | None => false
        end in
      let normalized :=
        join [slash]
          (normalizeString (negb isAbsolute) (split_on slash path)) in
      match normalized with
      | [] =>
          if isAbsolute then str "/"
          else if trailingSeparator then str "./" else str "."
      | _ =>
          let withSeparator :=
            if trailingSeparator then normalized ++ [slash] else normalized in
          if isAbsolute then slash :: withSeparator else withSeparator
      end
  end.

Definition sanitizePath (relativePath : jsstring) : jsstring :=
  let normalized := normalize relativePath in
  if startsWith normalized (str "/") then skipn 1 normalized else normalized.

(** [s.endsWith(suffix)]. *)
Definition endsWith (s suffix : jsstring) : bool :=
  startsWith (rev s) (rev suffix).

Definition getMimeType (filePath : jsstring) : jsstring :=
  if endsWith filePath (str ".html") then str "text/html; charset=utf-8"
  else if endsWith filePath (str ".js")
  then str "text/javascript; charset=utf-8"
  else if endsWith filePath (str ".css") then str "text/css; charset=utf-8"
  else if endsWith filePath (str ".json")
  then str "application/json; charset=utf-8"
  else if endsWith filePath (str ".svg") then str "image/svg+xml"
  else if endsWith filePath (str ".png") then str "image/png"
  else if endsWith filePath (str ".ico") then str "image/x-icon"
  else str "application/octet-stream".

(** What [fs.readFile] hands to its callback. *)
Inductive readOutcome : Type :=
| Data (bytes : list N)
| Enoent
| OtherError.

(** The response written: a JSON error with its status, or the file
    with its content type. *)
Inductive response : Type :=
| JsonError (status : nat) (error : jsstring)
| FileBody (contentType : jsstring) (bytes : list N).

Section Static.

Variable cwd : jsstring.
(** [path.join(__dirname, "..", "public")]. *)
Variable PUBLIC_DIR : jsstring.
Variable readFile : jsstring -> readOutcome.

Definition serveStaticFile (relativePath : jsstring) : response :=
  let safeRelativePath := sanitizePath relativePath in
  let filePath := resolve cwd [PUBLIC_DIR; safeRelativePath] in
  if negb (startsWith filePath PUBLIC_DIR)
  then JsonError 403 (str "Access denied")
  else
    match readFile filePath with
    | Enoent => JsonError 404 (str "Not found")
    | OtherError => JsonError 500 (str "Internal server error")
    | Data bytes => FileBody (getMimeType filePath) bytes
    end.

End Static.

End StaticServer.

(** ** The browser side: escaping *)

Module AppUi.

(** [&], [<], [>] and the double quote. *)
Definition special (c : N) : bool :=
  (c =? 38)%N || (c =? 60)%N || (c =? 62)%N || (c =? 34)%N.

Definition entities : list (jsstring * jsstring) :=
  [(str "&", str "&amp;"); (str "<", str "&lt;"); (str ">", str "&gt;");
   ([34%N], str "&quot;")].

(** The replacement callback: [table[match] || match]. *)
Definition entityOr (entities : list (jsstring * jsstring)) (m : jsstring)
  : jsstring :=
  match OMap.get entities m with
  | Some e => if JS.truthy e then e else m
  | None => m
  end.

(** [escapeHtml] of the report page; its regex matches one or more of
    the four units in a row. *)
Definition escapeHtml (value : jsstring) : jsstring :=
  replace (plus (RClass special)) (entityOr entities) value.

End AppUi.

Module DiagramShared.

(** [&], [<], [>], the double quote and the apostrophe. *)
Definition special (c : N) : bool :=
  AppUi.special c || (c =? 39)%N.

Definition entities : list (jsstring * jsstring) :=
  AppUi.entities ++ [(str "'", str "&#39;")].

(** [escapeHtml] of the diagram page; its regex matches one of the five
    units. *)
Definition escapeHtml (value : jsstring) : jsstring :=
  replace (RClass special) (AppUi.entityOr entities) value.

End DiagramShared.

(** ** Arrays *)

Module JSArray.

Section Sort.
Context {A : Type} (key : A -> Z).

(** [array.sort((a, b) => key(b) - key(a))]: descending by key; the
    sort is stable, so entries with equal keys keep their order. *)
Fixpoint insertDescending (x : A) (sorted : list A) : list A :=
  match sorted with
  | [] => [x]
  | y :: t =>
      if (key y <=? key x)%Z then x :: y :: t
      else y :: insertDescending x t
  end.

Definition sortDescending (l : list A) : list A :=
  fold_right insertDescending [] l.

End Sort.

End JSArray.

(** ** dependencyInsights.js *)

Module DependencyInsights.

Import StructureGraph.

Definition MAX_ITEMS : nat := 5.

(** [map.set(k, (map.get(k) || 0) + 1)]. *)
Definition bump (m : list (jsstring * nat)) (k : jsstring)
  : list (jsstring * nat) :=
  OMap.set m k (default 0%nat (OMap.get m k) + 1)%nat.

Definition extractPackageName (specifier : jsstring) : option jsstring :=
  if negb (JS.truthy specifier) then None
  else if startsWith specifier (str ".") || startsWith specifier (str "/")
  then None
  else if startsWith specifier (str "@") then
    match split_on NodePath.slash specifier with
    | scope :: name :: _ => Some (scope ++ str "/" ++ name)
    | _ => Some specifier
    end
  else
    match split_on NodePath.slash specifier with
    | firstSegment :: _ =>
        if JS.truthy firstSegment then Some firstSegment else None
    | [] => None
    end.

Record maps : Type := Maps {
  fanOutMap : list (jsstring * nat);
  fanInMap : list (jsstring * nat);
  externalMap : list (jsstring * nat)
}.

(** The callback of [dependencies.edges.forEach]. *)
Definition edgeStep (st : maps) (edge : dependencyEdge) : maps :=
  if negb (JS.truthy (dep_source edge)) then st
  else
    let fanOut := bump (fanOutMap st) (dep_source edge) in
    if eqb (dep_kind edge) (str "local") && JS.truthy (dep_target edge) then
      Maps fanOut (bump (fanInMap st) (dep_target edge)) (externalMap st)
    else if eqb (dep_kind edge) (str "external")
            && JS.truthy (dep_target edge) then
      match extractPackageName (dep_target edge) with
      | Some pkg =>
          if JS.truthy pkg
          then Maps fanOut (fanInMap st) (bump (externalMap st) pkg)
          else Maps fanOut (fanInMap st) (externalMap st)
      | None => Maps fanOut (fanInMap st) (externalMap st)
      end
    else Maps fanOut (fanInMap st) (externalMap st).

Definition pickTopEntries (map : list (jsstring * nat))
  : list (jsstring * nat) :=
  firstn MAX_ITEMS
    (JSArray.sortDescending (fun e => Z.of_nat (snd e)) map).

Record insights : Type := Insights {
  fanOut : list (jsstring * nat);
  fanIn : list (jsstring * nat);
  externalPackages : list (jsstring * nat)
}.

Definition computeDependencyInsights (edges : list dependencyEdge)
  : insights :=
  let st := fold_left edgeStep edges (Maps [] [] []) in
  Insights (pickTopEntries (fanOutMap st)) (pickTopEntries (fanInMap st))
           (pickTopEntries (externalMap st)).

End DependencyInsights.

(** ** projectAnalyzer.js: the summary *)

Module ProjectAnalyzer.

Record languageEntry : Type := LanguageEntry {
  l_language : jsstring;
  l_files : nat;
  l_lines : nat;
  l_bytes : N
}.

(** The body of the [for (const file of files)] loop of
    [aggregateLanguages]. *)
Definition languageStep (metricsByFile : gmap jsstring FileMetrics.fileMetrics)
    (counts : list (jsstring * languageEntry)) (file : Fs.file)
  : list (jsstring * languageEntry) :=
  let language := Language.detectLanguage (Fs.f_ext file) in
  let counts' :=
    if OMap.has counts language then counts
    else OMap.set counts language (LanguageEntry language 0 0 0) in
  match OMap.get counts' language with
  | None => counts'
  | Some entry =>
      let lines :=
        match metricsByFile !! Fs.f_path file with
        | Some metrics =>
            match FileMetrics.lineCount metrics with
            | Some (S n) => (l_lines entry + S n)%nat
            | _ => l_lines entry
            end
        | None => l_lines entry
        end in
      OMap.set counts' language
        (LanguageEntry (l_language entry) (l_files entry + 1)
           lines (l_bytes entry + Fs.f_size file))
  end.

Definition aggregateLanguages (files : list Fs.file)
    (metricsByFile : gmap jsstring FileMetrics.fileMetrics)
  : list languageEntry :=
  JSArray.sortDescending (fun e => Z.of_nat (l_files e))
    (List.map snd (fold_left (languageStep metricsByFile) files [])).

Record largeFile : Type := LargeFile {
  lf_path : jsstring;
  lf_size : N;
  lf_language : jsstring
}.

(** The [largestFiles] field of [buildSummary]. *)
Definition largestFiles (files : list Fs.file) : list largeFile :=
  List.map
    (fun file =>
       LargeFile (Fs.f_path file) (Fs.f_size file)
         (Language.detectLanguage (Fs.f_ext file)))
    (firstn 8 (JSArray.sortDescending (fun f => Z.of_N (Fs.f_size f)) files)).

End ProjectAnalyzer.

(** ** The properties the specification states, in terms of the model *)

Module Spec.

Import CloneDetector StructureGraph.

(** *** Winnowing *)

#[global] Instance fingerprint_eq_dec : EqDecision fingerprint.
Proof. solve_decision. Defined.

(** The k-gram hash sequence as [computeFingerprints] hands it to
    [winnow]: the hash at position [i] carries index [i]. *)
Definition indexed (hs : list N) : list fingerprint :=
  imap (fun i h => Fingerprint h i) hs.

(** [fp] is the minimum of the window of [w] hashes that starts at
    [start], the latest one among equal hashes. *)
Definition isWindowMin (hs : list N) (start w : nat) (fp : fingerprint)
  : Prop :=
  (start <= fp_index fp < start + w)%nat
  /\ hs !! fp_index fp = Some (fp_hash fp)
  /\ forall j h, (start <= j < start + w)%nat -> hs !! j = Some h ->
       (fp_hash fp < h)%N \/ (fp_hash fp = h /\ (j <= fp_index fp)%nat).

(** Drop every element equal to the one right before it. *)
Fixpoint dedupAdjacent (l : list fingerprint) : list fingerprint :=
  match l with
  | x :: t =>
      match t with
      | y :: _ => if decide (x = y) then dedupAdjacent t
                  else x :: dedupAdjacent t
      | [] => [x]
      end
  | [] => []
  end.

(** *** Similarity of a pair *)

Definition count (t : jsstring) (toks : list jsstring) : nat :=
  length (List.filter (fun u => eqb u t) toks).

(** [Σ min(countA, countB)] over the distinct tokens. *)
Definition multisetIntersection (A B : list jsstring) : nat :=
  sum_list_with (fun t => Nat.min (count t A) (count t B)) (remove_dups A).

(** The Dice coefficient [2·Σ min(countA, countB) / (|A| + |B|)]. *)
Definition dice (A B : list jsstring) : F64.float :=
  F64.div (F64.of_nat (2 * multisetIntersection A B))
          (F64.of_nat (length A + length B)).

Definition segmentLength (s : segment) : nat :=
  (seg_end s - seg_start s + 1)%nat.


(** Token position [i] lies in one of the segments. *)
Definition covers (segments : list segment) (i : nat) : Prop :=
  exists seg, seg ∈ segments /\ (seg_start seg <= i <= seg_end seg)%nat.

(** Ascending starts: every segment starts no later than those after
    it. *)
Definition ascending (l : list segment) : Prop :=
  forall i j x y, (i <= j)%nat -> l !! i = Some x -> l !! j = Some y ->
    (seg_start x <= seg_start y)%nat.

(** Consecutive segments are in ascending order with a gap between
    them. *)
Fixpoint separated (segments : list segment) : Prop :=
  match segments with
  | s :: ((s' :: _) as rest) =>
      (seg_end s + 1 < seg_start s')%nat /\ separated rest
  | _ => True
  end.



(** The pairs the nested loops compare, in order: the languages are
    compatible and fewer than [MAX_PAIRS] comparisons came before. *)
Fixpoint comparedWith (a : enriched) (others : list enriched) (n : N)
  : list (enriched * enriched) * N :=
  match others with
  | [] => ([], n)
  | b :: t =>
      if (MAX_PAIRS <=? n)%N then ([], n)
      else if negb (languagesAreCompatible (e_language a) (e_language b))
      then comparedWith a t n
      else let '(ps, n') := comparedWith a t (n + 1)%N in ((a, b) :: ps, n')
  end.

Fixpoint comparedFrom (symbols : list enriched) (n : N)
  : list (enriched * enriched) :=
  match symbols with
  | [] => []
  | a :: t =>
      let '(ps, n') := comparedWith a t n in ps ++ comparedFrom t n'
  end.

Definition comparedPairs (symbols : list enriched)
  : list (enriched * enriched) :=
  comparedFrom symbols 0.

(** The clones map holds the entry [e] under the source id [A]. *)
Definition entry (m : gmap jsstring (list cloneEntry)) (A : jsstring)
    (e : cloneEntry) : Prop :=
  exists l, m !! A = Some l /\ e ∈ l.

(** The clones map holds an entry [A→B] with similarity [s]. *)
Definition hasEntry (m : gmap jsstring (list cloneEntry)) (A B : jsstring)
    (s : F64.float) : Prop :=
  exists e, entry m A e /\ targetId e = B /\ similarity e = s.

(** The final similarity of a pair. *)
Definition similarityOf (a b : enriched) : F64.float :=
  fst (pairSimilarity a b).


(** The line range reported for the target [b] of the pair [(a, b)], and
    for the target [a]. *)
Definition rangeForB (a b : enriched) : option lineRange :=
  option_map (fun o => segmentsToLines b (o_segmentsB o))
    (snd (pairSimilarity a b)).
Definition rangeForA (a b : enriched) : option lineRange :=
  option_map (fun o => segmentsToLines a (o_segmentsA o))
    (snd (pairSimilarity a b)).

(** What comparing one pair does to the clones map. *)
Definition emit (threshold : F64.float) (m : gmap jsstring (list cloneEntry))
    (p : enriched * enriched) : gmap jsstring (list cloneEntry) :=
  if F64.geb (similarityOf p.1 p.2) threshold then
    addClone
      (addClone m p.1 p.2 (similarityOf p.1 p.2) (rangeForB p.1 p.2))
      p.2 p.1 (similarityOf p.1 p.2) (rangeForA p.1 p.2)
  else m.


(** *** Export usage *)

Definition exportNameOf (name : jsstring) : jsstring :=
  if JS.truthy name then name else str "default".

(** The descriptor [imp] of [sourceFile] credits the export behind
    [key]: its specifier resolves locally to [target], [key] is
    ["target#name"] for a name of the target's export set, and the
    descriptor is a namespace import or imports that name. *)
Definition creditsVia (resolution : gmap jsstring jsstring)
    (exportsByFile : list (jsstring * list jsstring))
    (sourceFile : jsstring) (imp : importDescriptor) (key : jsstring)
  : Prop :=
  exists target exportName,
    resolution !! (sourceFile ++ str "::" ++ specifier imp) = Some target
    /\ target <> []
    /\ exportName ∈ default [] (OMap.get exportsByFile target)
    /\ key = target ++ str "#" ++ exportName
    /\ (hasNamespace imp = true
        \/ exists name, name ∈ names imp /\ exportName = exportNameOf name).

(** [sourceFile] is an importer file crediting [key]. *)
Definition importerCredits (resolution : gmap jsstring jsstring)
    (exportsByFile : list (jsstring * list jsstring))
    (importsByFile : list (jsstring * list importDescriptor))
    (sourceFile key : jsstring) : Prop :=
  exists imports imp,
    (sourceFile, imports) ∈ importsByFile /\ imp ∈ imports
    /\ creditsVia resolution exportsByFile sourceFile imp key.

(** The importer files recorded for a key. *)
Definition usageOf (usage : gmap jsstring (gset jsstring)) (key : jsstring)
  : gset jsstring :=
  default ∅ (usage !! key).

(** Every recorded set has a member. *)
Definition inhabitedSets (usage : gmap jsstring (gset jsstring)) : Prop :=
  forall key importers, usage !! key = Some importers ->
    exists f, f ∈ importers.

(** A key marked as seen for [sourceFile] already lists it. *)
Definition seenSound (sourceFile : jsstring) (st : usageState) : Prop :=
  forall key, key ++ str "::" ++ sourceFile ∈ seenPerSource st ->
    sourceFile ∈ usageOf (exportUsageSets st) key.

(** *** Fallback symbol *)

(** Number of lines of a text: one more than its line feeds. *)
Definition lineTotal (content : jsstring) : nat :=
  S (length (List.filter (fun c => (c =? 10)%N) content)).

(** *** Source snippets *)

(** [absFile] is [absRoot] or lies below it. *)
Definition insideRoot (absRoot absFile : jsstring) : bool :=
  eqb absFile absRoot || eqb absRoot [NodePath.slash]
  || startsWith absFile (absRoot ++ [NodePath.slash]).

(** *** Metrics *)

(** What the metrics pass adds for one file, whatever came before. *)
Definition metricsAdded (cwd : jsstring) (readFile : jsstring -> Fs.readResult)
    (rootPath : jsstring) (maxFileSize : N) (f : Fs.file)
  : FileMetrics.passState :=
  FileMetrics.fileStep cwd readFile rootPath maxFileSize
    (FileMetrics.PassState ∅ [] []) f.

(** *** Smells *)

(** The issue list holds an issue of the given type and severity. *)
Definition emits (issues : list SmellDetector.issue)
    (type : SmellDetector.issueType) (sev : SmellDetector.severity) : Prop :=
  exists i, i ∈ issues /\ SmellDetector.i_type i = type
            /\ SmellDetector.i_severity i = sev.

End Spec.

(** ** Concrete inputs *)

Module Examples.

Import CloneDetector StructureGraph.

Definition nl : jsstring := [10%N].

Fixpoint times (n : nat) (s : jsstring) : jsstring :=
  match n with
  | O => []
  | S n' => s ++ times n' s
  end.

(** A 120-line function of [util.js] with 30 if/else branches. *)
Definition branchBlock : jsstring :=
  str "  if (x > 0) {" ++ nl ++ str "    x = x - 1;" ++ nl
  ++ str "  } else {" ++ nl ++ str "    x = x + 1; }" ++ nl.

Definition text120 : jsstring :=
  str "function util(x) {" ++ nl
  ++ times 29 branchBlock
  ++ str "  if (x) x = 1; else x = 2;" ++ nl
  ++ str "  return x;" ++ nl
  ++ str "}".

Definition sym120 : symbol :=
  {| sym_id := str "function:util.js#util";
     sym_fileId := str "file:util.js";
     sym_name := str "util";
     sym_kind := str "function";
     sym_path := str "util.js";
     sym_language := Some (str "JavaScript");
     sym_startLine := 1;
     sym_endLine := 120;
     sym_text := text120 |}.

Definition fn (file name text : string) : symbol :=
  {| sym_id := str "function:" ++ str file ++ str "#" ++ str name;
     sym_fileId := str "file:" ++ str file;
     sym_name := str name;
     sym_kind := str "function";
     sym_path := str file;
     sym_language := Some (str "JavaScript");
     sym_startLine := 1;
     sym_endLine := 1;
     sym_text := str text |}.

(** Five tokens each: function, name, a, return, a. *)
Definition five1 : symbol := fn "a.js" "f" "function f(a) { return a }".
Definition five2 : symbol := fn "b.js" "g" "function g(a) { return a }".
(** Four tokens: function, h, return, a. *)
Definition four : symbol := fn "c.js" "h" "function h() { return a }".

(** [a.js] exports [foo]; [b.js] imports it from ["./a.js"]. *)
Definition edges2 : list dependencyEdge :=
  [DependencyEdge (str "b.js") (str "a.js") (str "./a.js") (str "local")].
Definition exports2 : list (jsstring * list jsstring) :=
  [(str "a.js", [str "foo"])].
Definition imports2 : list (jsstring * list importDescriptor) :=
  [(str "b.js", [ImportDescriptor (str "./a.js") [str "foo"] false])].

(** A file system with a project at [/srv/app] and a sibling directory
    whose name extends the project's. *)
Definition siblingFs (p : jsstring) : option Server.node :=
  if eqb p (str "/srv/app-secret/key.txt")
  then Some (Server.RegularFile (str "hunter2"))
  else if eqb p (str "/srv/app/index.js")
  then Some (Server.RegularFile (str "main();"))
  else if eqb p (str "/srv/app") || eqb p (str "/srv/app-secret")
  then Some Server.Directory
  else None.

(** A parser that always throws. *)
Definition noParse (content language : jsstring) : option unit := None.
Definition noVisit (tree : unit) (content path language : jsstring)
  : list symbol := [].

Definition notes : Fs.file :=
  Fs.File (str "notes.txt") (str "notes.txt") (str ".txt") 10.

Definition unreadable (p : jsstring) : Fs.readResult :=
  Fs.ReadError (str "EACCES: permission denied").

(** Two files at the size limit of the metrics pass and just above it. *)
Definition exact512 : Fs.file :=
  Fs.File (str "at-limit.js") (str "at-limit.js") (str ".js") (512 * 1024).
Definition oneMore : Fs.file :=
  Fs.File (str "over-limit.js") (str "over-limit.js") (str ".js")
    (512 * 1024 + 1).
Definition readable (p : jsstring) : Fs.readResult :=
  Fs.ReadOk (str "if (a) { b(); } // TODO" ++ nl ++ str "c();").

Definition hashes10 : list N := [5; 3; 3; 9; 9; 1; 7; 8; 9; 9]%N.

End Examples.

(** ** Notions used to state further properties of the code *)

Module Notions.

Import CloneDetector StructureGraph.

(** A code unit after comment stripping: unchanged, or a space put in
    place of a unit that is no line feed. *)
Definition keptOrBlank (a b : N) : Prop :=
  b = a \/ (b = 32%N /\ a <> 10%N).

(** The matches lie in [s], one after the other, [off] being the offset
    of [s] in the whole subject. *)
Fixpoint fits (ms : list rmatch_result) (s : jsstring) (off : nat) : Prop :=
  match ms with
  | [] => True
  | m :: ms' =>
      exists i,
        m_index m = (off + i)%nat
        /\ firstn (length (m_text m)) (skipn i s) = m_text m
        /\ (i + length (m_text m) <= length s)%nat
        /\ fits ms' (skipn (i + length (m_text m)) s)
             (off + i + length (m_text m))
  end.

(** The units a token is made of: [a-z0-9_]. *)
Definition isTokenUnit (c : N) : bool :=
  is_lower c || is_digit c || (c =? 95)%N.

(** The loop [rmatch] runs for a starred expression, with a name. *)
Section StarLoop.
Variables (greedy : bool) (a : regex) (k : cursor -> option cursor).

Fixpoint starLoop (fuel : nat) (c : cursor) {struct fuel} : option cursor :=
  match fuel with
  | O => k c
  | S fuel' =>
      let again :=
        rmatch a
          (fun c' =>
             if (length (rest c') <? length (rest c))%nat
             then starLoop fuel' c' else None) c in
      if greedy then
        match again with Some e => Some e | None => k c end
      else
        match k c with Some e => Some e | None => again end
  end.
End StarLoop.

(** The shortest shared run of tokens that winnowing cannot miss: a
    window of [WINDOW_SIZE] shingles of [SHINGLE_SIZE] tokens. *)
Definition guaranteeLength : nat := (SHINGLE_SIZE + WINDOW_SIZE - 1)%nat.

(** Two functions that differ in their names only. *)
Definition copy1 : symbol :=
  Examples.fn "a.js" "f" "function f(a, b) { const c = a; return c }".
Definition copy2 : symbol :=
  Examples.fn "b.js" "g" "function g(a, b) { const c = a; return c }".

(** A segment of token positions of an array of [n] tokens. *)
Definition within (n : nat) (seg : segment) : Prop :=
  (seg_start seg <= seg_end seg < n)%nat.

(** Strictly ascending offsets. *)
Fixpoint increasing (l : list nat) : Prop :=
  match l with
  | x :: ((y :: _) as t) => (x < y)%nat /\ increasing t
  | _ => True
  end.

(** How many of the offsets are at or before a position. *)
Definition startsUpTo (position : nat) (offsets : list nat) : nat :=
  length (List.filter (fun x => (x <=? position)%nat) offsets).

(** What follows the first line feed of a text, if it has one. *)
Fixpoint afterFirstLF (s : jsstring) : option jsstring :=
  match s with
  | [] => None
  | c :: t => if (c =? 10)%N then Some t else afterFirstLF t
  end.

(** Recorded tokens lie one after the other from [off] on. *)
Fixpoint ordered (off : nat) (found : list (jsstring * nat * nat)) : Prop :=
  match found with
  | [] => True
  | (_, o, n) :: r => (off <= o)%nat /\ ordered (o + n) r
  end.

(** Descending keys: no entry has a smaller key than one after it. *)
Definition descending {A : Type} (key : A -> Z) (l : list A) : Prop :=
  forall i j x y, (i <= j)%nat -> l !! i = Some x -> l !! j = Some y ->
    (key y <= key x)%Z.

(** The edges that count for the fan-out of a file, for the fan-in of a
    file and for an external package. *)
Definition countsOut (edge : dependencyEdge) : option jsstring :=
  if JS.truthy (dep_source edge) then Some (dep_source edge) else None.
Definition countsIn (edge : dependencyEdge) : option jsstring :=
  if JS.truthy (dep_source edge) && eqb (dep_kind edge) (str "local")
     && JS.truthy (dep_target edge)
  then Some (dep_target edge) else None.
Definition countsExternal (edge : dependencyEdge) : option jsstring :=
  if JS.truthy (dep_source edge)
     && negb (eqb (dep_kind edge) (str "local") && JS.truthy (dep_target edge))
     && eqb (dep_kind edge) (str "external") && JS.truthy (dep_target edge)
  then match DependencyInsights.extractPackageName (dep_target edge) with
       | Some pkg => if JS.truthy pkg then Some pkg else None
       | None => None
       end
  else None.

(** How many edges count for [p] under a selection. *)
Definition degree (sel : dependencyEdge -> option jsstring)
    (edges : list dependencyEdge) (p : jsstring) : nat :=
  length (List.filter (fun e => bool_decide (sel e = Some p)) edges).

(** A path segment that stays where it is: not empty, not ["."], not
    [".."]. *)
Definition cleanSegment (seg : jsstring) : Prop :=
  seg <> [] /\ seg <> str "." /\ seg <> str "..".

(** A file system in which only one file of the public directory can be
    read. *)
Definition onlyIndex (p : jsstring) : StaticServer.readOutcome :=
  if eqb p (str "/srv/app/public/index.html")
  then StaticServer.Data (str "<html></html>")
  else StaticServer.Enoent.

(** The files of a language, and what [aggregateLanguages] reports for
    them. *)
Definition filesIn (language : jsstring) (files : list Fs.file)
  : list Fs.file :=
  List.filter
    (fun f => eqb (Language.detectLanguage (Fs.f_ext f)) language) files.

Definition lineCountOf (metricsByFile : gmap jsstring FileMetrics.fileMetrics)
    (f : Fs.file) : nat :=
  match metricsByFile !! Fs.f_path f with
  | Some metrics => default 0%nat (FileMetrics.lineCount metrics)
  | None => 0%nat
  end.

Definition sumN {A : Type} (g : A -> N) (l : list A) : N :=
  fold_right (fun x acc => (g x + acc)%N) 0%N l.

Definition entryFor (metricsByFile : gmap jsstring FileMetrics.fileMetrics)
    (language : jsstring) (files : list Fs.file)
  : ProjectAnalyzer.languageEntry :=
  ProjectAnalyzer.LanguageEntry language
    (length (filesIn language files))
    (sum_list_with (lineCountOf metricsByFile) (filesIn language files))
    (sumN Fs.f_size (filesIn language files)).

Definition asLargeFile (f : Fs.file) : ProjectAnalyzer.largeFile :=
  ProjectAnalyzer.LargeFile (Fs.f_path f) (Fs.f_size f)
    (Language.detectLanguage (Fs.f_ext f)).

(** The kind of a node of the structure graph. *)
Definition isPackage (n : GraphBuilder.node) : Prop :=
  match n with GraphBuilder.PackageNode _ _ _ => True | _ => False end.
Definition isFile (n : GraphBuilder.node) : Prop :=
  match n with GraphBuilder.FileNode _ _ _ _ _ _ _ _ => True | _ => False end.
Definition isSymbol (n : GraphBuilder.node) : Prop :=
  match n with GraphBuilder.SymbolNode _ _ _ _ _ _ _ => True | _ => False end.

(** Every node of a map sits under its own id and has the kind of the
    map. *)
Definition keyed (kind : GraphBuilder.node -> Prop)
    (m : list (jsstring * GraphBuilder.node)) : Prop :=
  forall k n, (k, n) ∈ m -> GraphBuilder.nodeId n = k /\ kind n.

(** The ends of an edge are among the given ids, by its type: a
    package contains a file, a file defines a symbol, a file imports a
    file. *)
Definition connects (packages files symbols : list jsstring)
    (e : GraphBuilder.edge) : Prop :=
  match GraphBuilder.type e with
  | GraphBuilder.contains =>
      GraphBuilder.source e ∈ packages /\ GraphBuilder.target e ∈ files
  | GraphBuilder.defines =>
      GraphBuilder.source e ∈ files /\ GraphBuilder.target e ∈ symbols
  | GraphBuilder.import =>
      GraphBuilder.source e ∈ files /\ GraphBuilder.target e ∈ files
  end.

(** What the loops of [buildStructureGraph] keep true. *)
Definition okBuild (b : GraphBuilder.build) : Prop :=
  keyed isFile (GraphBuilder.fileNodes b)
  /\ keyed isPackage (GraphBuilder.packageNodes b)
  /\ keyed isSymbol (GraphBuilder.symbolNodes b)
  /\ Forall (connects (OMap.keys (GraphBuilder.packageNodes b))
               (OMap.keys (GraphBuilder.fileNodes b))
               (OMap.keys (GraphBuilder.symbolNodes b)))
       (GraphBuilder.edges b).

(** Two nodes of the graph that an edge connects, by its type. *)
Definition joins (nodes : list GraphBuilder.node) (e : GraphBuilder.edge)
  : Prop :=
  exists from to,
    from ∈ nodes /\ to ∈ nodes
    /\ GraphBuilder.nodeId from = GraphBuilder.source e
    /\ GraphBuilder.nodeId to = GraphBuilder.target e
    /\ match GraphBuilder.type e with
       | GraphBuilder.contains => isPackage from /\ isFile to
       | GraphBuilder.defines => isFile from /\ isSymbol to
       | GraphBuilder.import => isFile from /\ isFile to
       end.

(** An issue of the smell detector that belongs to a symbol. *)
Definition raisedBy (s : symbol) (i : SmellDetector.issue) : Prop :=
  SmellDetector.i_category i = str "smell"
  /\ SmellDetector.i_symbolId i = sym_id s
  /\ SmellDetector.i_path i = sym_path s
  /\ SmellDetector.i_line i
     = (if (sym_startLine s =? 0)%Z then None else Some (sym_startLine s))
  /\ sym_text s <> [] /\ sym_path s <> []
  /\ match SmellDetector.i_type i with
     | SmellDetector.long_function | SmellDetector.branch_heavy =>
         sym_kind s ∈ SmellDetector.FUNCTION_KINDS
     | SmellDetector.many_parameters =>
         sym_kind s ∈ SmellDetector.FUNCTION_KINDS
         /\ SmellDetector.i_severity i <> SmellDetector.error
     | SmellDetector.large_class | SmellDetector.many_methods =>
         sym_kind s ∈ SmellDetector.CLASS_KINDS
         /\ SmellDetector.i_severity i <> SmellDetector.info
     end.

(** The longest prefix of units of a class, and what follows it. *)
Fixpoint runOf (p : N -> bool) (s : jsstring) : jsstring :=
  match s with
  | c :: t => if p c then c :: runOf p t else []
  | [] => []
  end.
Fixpoint afterRun (p : N -> bool) (s : jsstring) : jsstring :=
  match s with
  | c :: t => if p c then afterRun p t else s
  | [] => []
  end.

(** A text with every maximal run of units of a class replaced. *)
Fixpoint mapRuns (p : N -> bool) (f : jsstring -> jsstring) (fuel : nat)
    (s : jsstring) : jsstring :=
  match fuel with
  | O => s
  | S fuel' =>
      match s with
      | [] => []
      | c :: t =>
          if p c then f (c :: runOf p t) ++ mapRuns p f fuel' (afterRun p t)
          else c :: mapRuns p f fuel' t
      end
  end.

(** What the diagram page writes for one code unit. *)
Definition escapeUnit (c : N) : jsstring :=
  if DiagramShared.special c
  then AppUi.entityOr DiagramShared.entities [c] else [c].

(** The entity the report page writes for a lone special unit. *)
Definition entityOf (c : N) : jsstring :=
  if (c =? 38)%N then str "&amp;"
  else if (c =? 60)%N then str "&lt;"
  else if (c =? 62)%N then str "&gt;"
  else str "&quot;".

(** A metrics record as the pass writes it: skipped records have no
    counts, the others have both, and a line count is at least one. *)
Definition consistentRecord (m : FileMetrics.fileMetrics) : Prop :=
  (FileMetrics.skipped m = true <-> FileMetrics.lineCount m = None)
  /\ (FileMetrics.lineCount m = None <-> FileMetrics.complexityScore m = None)
  /\ (FileMetrics.skipped m = true -> FileMetrics.todoCount m = 0%nat)
  /\ (forall n, FileMetrics.lineCount m = Some n -> (1 <= n)%nat).

(** Fingerprints in strictly ascending token order. *)
Fixpoint risingIndex (l : list fingerprint) : Prop :=
  match l with
  | x :: ((y :: _) as t) => (fp_index x < fp_index y)%nat /\ risingIndex t
  | _ => True
  end.

End Notions.

(** * Properties *)

Import CloneDetector StructureGraph Spec Examples.

(** Membership in a list at its head, or further down. *)
Ltac in_head := apply elem_of_cons; by left.
Ltac in_tail := apply elem_of_cons; by right.

(** ** Smell detector *)

Section Smells.

Import SmellDetector.

Lemma symbolSmells_function (s : symbol) :
  sym_text s <> [] -> sym_path s <> [] ->
  OMap.mem FUNCTION_KINDS (sym_kind s) = true ->
  detectCodeSmells [s] = detectFunctionSmells s.
Proof.
  intros Ht Hp Hk. unfold detectCodeSmells, symbolSmells. simpl.
  rewrite app_nil_r, Hk.
  destruct (sym_text s); [done|]. destruct (sym_path s); [done|]. reflexivity.
Qed.

(** C5, as amended: a function symbol spanning 120 lines with 30
    branches gets a long-function issue of severity error (the span is at
    least [LONG_FUNCTION_ERROR]) and a branch-heavy issue of severity
    error. *)
Theorem smells_120_lines_30_branches (s : symbol) :
  OMap.mem FUNCTION_KINDS (sym_kind s) = true ->
  sym_text s <> [] -> sym_path s <> [] ->
  computeLineSpan s = 120%Z ->
  countBranches (sym_text s) = 30%nat ->
  emits (detectCodeSmells [s]) long_function error
  /\ emits (detectCodeSmells [s]) branch_heavy error.
Proof.
  intros Hk Ht Hp Hspan Hbr.
  rewrite (symbolSmells_function s Ht Hp Hk).
  unfold detectFunctionSmells. rewrite Hspan, Hbr. cbn [Z.leb Nat.leb].
  change (LONG_FUNCTION_WARNING <=? 120)%Z with true.
  change (LONG_FUNCTION_ERROR <=? 120)%Z with true.
  change (BRANCH_WARNING_THRESHOLD <=? 30)%nat with true.
  change (BRANCH_ERROR_THRESHOLD <=? 30)%nat with true.
  split.
  - eexists. split; [apply elem_of_app; left; apply list_elem_of_singleton; reflexivity|].
    split; reflexivity.
  - eexists. split.
    + apply elem_of_app; right. apply elem_of_app; right.
      apply list_elem_of_singleton; reflexivity.
    + split; reflexivity.
Qed.

Lemma smells_120_lines_30_branches_witness :
  emits (detectCodeSmells [sym120]) long_function error
  /\ emits (detectCodeSmells [sym120]) branch_heavy error.
Proof.
  apply (smells_120_lines_30_branches sym120);
    [vm_compute; reflexivity | discriminate | discriminate
    | vm_compute; reflexivity | vm_compute; reflexivity].
Defined.

(** C5 as stated fails: on the 120-line, 30-branch function of the
    scenario no long-function issue of severity warning is emitted. *)
Lemma long_function_120_lines_is_not_warning :
  computeLineSpan sym120 = 120%Z
  /\ countBranches (sym_text sym120) = 30%nat
  /\ ~ (emits (detectCodeSmells [sym120]) long_function warning
        /\ emits (detectCodeSmells [sym120]) branch_heavy error).
Proof.
  split; [vm_compute; reflexivity|]. split; [vm_compute; reflexivity|].
  intros [[i (Hin & Hty & Hsev)] _].
  assert (Hall : Forall (fun i => i_type i = long_function -> i_severity i = error)
                   (detectCodeSmells [sym120])).
  { vm_compute. repeat constructor; discriminate. }
  rewrite Forall_forall in Hall.
  specialize (Hall i Hin Hty). congruence.
Qed.

End Smells.

(** ** Source snippets *)

Section Snippets.

Import Server.

(** C9, the defect: a path that resolves into a sibling directory whose
    name extends the root's passes the [startsWith] test, so the file
    outside the root is read instead of being refused. *)
Theorem snippet_sibling_prefix_escapes :
  let absRoot := NodePath.resolve (str "/") [str "/srv/app"] in
  let absFile :=
    NodePath.resolve (str "/") [absRoot; str "../app-secret/key.txt"] in
  insideRoot absRoot absFile = false
  /\ readSourceSnippet (str "/") siblingFs (fun bytes => bytes)
       (str "/srv/app") (str "../app-secret/key.txt") 1024
     = inr {| path := str "../app-secret/key.txt";
              size := 7;
              content := str "hunter2";
              truncated := false |}.
Proof. split; vm_compute; reflexivity. Qed.

(** What an accepted request returns: the path as given, the full size,
    the first [min(size, clamp(maxBytes, 1 KiB, 512 KiB))] bytes decoded,
    and [truncated] exactly when the file is larger than that slice. *)
Lemma snippet_fields (cwd : jsstring) (fs : jsstring -> option node)
    (utf8 : list N -> jsstring) (rootPath relativePath : jsstring)
    (maxBytes : Z) (s : snippet) :
  readSourceSnippet cwd fs utf8 rootPath relativePath maxBytes = inr s ->
  exists bytes,
    fs (NodePath.resolve cwd [NodePath.resolve cwd [rootPath]; relativePath])
    = Some (RegularFile bytes)
    /\ let limit := Z.max 1024 (Z.min maxBytes (512 * 1024)) in
       let taken := Z.min limit (Z.of_nat (length bytes)) in
       path s = relativePath
       /\ size s = Z.of_nat (length bytes)
       /\ content s = utf8 (firstn (Z.to_nat taken) bytes)
       /\ (truncated s = true <-> (taken < size s)%Z).
Proof.
  unfold readSourceSnippet.
  destruct (startsWith _ _); cbn [negb]; [|done].
  destruct (fs _) as [[bytes|]|]; [|done..].
  intros [= <-]. exists bytes. split; [done|]. cbn.
  repeat split; try done; by rewrite Z.ltb_lt.
Qed.

End Snippets.

(** ** Fallback symbol *)

Section Fallback.

Context {ast : Type}.
Variable parse : jsstring -> jsstring -> option ast.
Variable visit : ast -> jsstring -> jsstring -> jsstring -> list symbol.
Variable cwd : jsstring.
Variable exists_ : jsstring -> bool.
Variable readFile : jsstring -> Fs.readResult.

Lemma lineStarts_length (content : jsstring) (pos : nat) :
  length (lineStarts content pos)
  = length (List.filter (fun c => (c =? 10)%N) content).
Proof.
  revert pos. induction content as [|c t IH]; intros pos; simpl; [done|].
  destruct (c =? 10)%N; simpl; by rewrite IH.
Qed.

Lemma createFallbackSymbol_nonblank (content path language : jsstring) :
  trim content <> [] ->
  exists s,
    createFallbackSymbol content path language = [s]
    /\ sym_kind s = str "file"
    /\ sym_id s = str "file:" ++ normalizePath path ++ str "#__file__"
    /\ sym_startLine s = 1%Z
    /\ sym_endLine s = Z.of_nat (lineTotal content).
Proof.
  intros Hne. unfold createFallbackSymbol.
  destruct content as [|c t]; [by destruct Hne|].
  destruct (trim (c :: t)) eqn:Htrim; [by destruct Hne|].
  cbn [JS.truthy negb orb].
  eexists. split; [reflexivity|]. cbn [sym_kind sym_id sym_startLine sym_endLine].
  repeat split; try reflexivity.
  unfold StructureGraph.buildLineOffsets, lineTotal. cbn [length].
  by rewrite lineStarts_length.
Qed.

(** C8, as amended: for a readable file of at most 256 KiB whose content
    is not blank, which is not in the JS/TypeScript family or whose parse
    fails, symbol extraction yields exactly one symbol; it has kind
    [file], id ["file:{path}#__file__"] and spans lines 1 to the number
    of lines of the file. *)
Theorem fallback_symbol_for_non_js_or_unparsed
    (rootPath language content : jsstring) (file : Fs.file) :
  exists_ (NodePath.resolve cwd [rootPath; Fs.f_path file]) = true ->
  (Fs.f_size file <= MAX_FILE_BYTES)%N ->
  readFile (NodePath.resolve cwd [rootPath; Fs.f_path file])
    = Fs.ReadOk content ->
  trim content <> [] ->
  isJs language = false \/ parse content language = None ->
  exists s,
    extractSymbolsForFile ast parse visit cwd exists_ readFile
      rootPath file language = [s]
    /\ sym_kind s = str "file"
    /\ sym_id s
       = str "file:" ++ normalizePath (Fs.f_path file) ++ str "#__file__"
    /\ sym_startLine s = 1%Z
    /\ sym_endLine s = Z.of_nat (lineTotal content).
Proof.
  intros Hex Hsize Hread Hne Hcase.
  unfold extractSymbolsForFile. rewrite Hex. cbn [negb].
  destruct (N.ltb_spec MAX_FILE_BYTES (Fs.f_size file)) as [Hlt|_]; [lia|].
  rewrite Hread. unfold extractSymbolsFromContent.
  destruct Hcase as [Hjs|Hparse].
  - rewrite Hjs. cbn [negb]. by apply createFallbackSymbol_nonblank.
  - destruct (isJs language); cbn [negb].
    + rewrite Hparse. by apply createFallbackSymbol_nonblank.
    + by apply createFallbackSymbol_nonblank.
Qed.

End Fallback.

Lemma fallback_symbol_for_non_js_or_unparsed_witness :
  exists s,
    extractSymbolsForFile unit noParse noVisit (str "/") (fun _ => true)
      (fun _ => Fs.ReadOk (str "remember the milk"))
      (str "/p") notes (str "Unknown") = [s]
    /\ sym_kind s = str "file"
    /\ sym_id s
       = str "file:" ++ normalizePath (Fs.f_path notes) ++ str "#__file__"
    /\ sym_startLine s = 1%Z
    /\ sym_endLine s = Z.of_nat (lineTotal (str "remember the milk")).
Proof.
  apply (fallback_symbol_for_non_js_or_unparsed noParse noVisit (str "/")
           (fun _ => true) (fun _ => Fs.ReadOk (str "remember the milk"))
           (str "/p") (str "Unknown") (str "remember the milk") notes);
    [reflexivity | vm_compute; discriminate | reflexivity
    | vm_compute; discriminate | left; vm_compute; reflexivity].
Defined.

(** C8 as stated fails: a file outside the JS/TypeScript family whose
    content is only white space gets no symbol at all. *)
Lemma blank_file_has_no_fallback_symbol :
  isJs (str "Unknown") = false
  /\ extractSymbolsForFile unit noParse noVisit (str "/") (fun _ => true)
       (fun _ => Fs.ReadOk (str "   " ++ nl))
       (str "/p") notes (str "Unknown") = [].
Proof. split; vm_compute; reflexivity. Qed.

(** ** File metrics *)

Section Metrics.

Import FileMetrics.

Variable cwd : jsstring.
Variable readFile : jsstring -> Fs.readResult.
Variable rootPath : jsstring.
Variable maxFileSize : N.

Let abs (f : Fs.file) : jsstring :=
  NodePath.resolve cwd [rootPath; Fs.f_path f].
Let step := fileStep cwd readFile rootPath maxFileSize.
Let about (p : jsstring) (i : issue) : bool := bool_decide (i_path i = p).

Let added := metricsAdded cwd readFile rootPath maxFileSize.

Lemma step_metrics (st : passState) (f : Fs.file) (p : jsstring) :
  metricsByFile (step st f) !! p
  = if decide (Fs.f_path f = p) then metricsByFile (added f) !! p
    else metricsByFile st !! p.
Proof using Type.
  unfold added, metricsAdded, step, fileStep.
  destruct (maxFileSize <? Fs.f_size f)%N; [|destruct (readFile _)];
    cbn [metricsByFile]; case_decide as Hp;
    try (subst p; by rewrite !lookup_insert_eq);
    by rewrite lookup_insert_ne.
Qed.

Lemma step_issues (st : passState) (f : Fs.file) :
  issues (step st f) = issues st ++ issues (added f).
Proof using Type.
  unfold added, metricsAdded, step, fileStep.
  destruct (maxFileSize <? Fs.f_size f)%N; [|destruct (readFile _)];
    cbn [issues app]; reflexivity.
Qed.

Lemma step_reads (st : passState) (f : Fs.file) :
  reads (step st f) = reads st ++ reads (added f).
Proof using Type.
  unfold added, metricsAdded, step, fileStep.
  destruct (maxFileSize <? Fs.f_size f)%N; [|destruct (readFile _)];
    cbn [reads app]; by rewrite ?app_nil_r.
Qed.

Lemma added_issues_about (f : Fs.file) :
  Forall (fun i => i_path i = Fs.f_path f) (issues (added f)).
Proof using Type.
  unfold added, metricsAdded, step, fileStep.
  destruct (maxFileSize <? Fs.f_size f)%N; [|destruct (readFile _)];
    cbn [issues app].
  - by repeat constructor.
  - repeat (apply Forall_app; split);
      repeat match goal with |- context [if ?b then _ else _] => destruct b end;
      by repeat constructor.
  - by repeat constructor.
Qed.

Lemma added_reads (f : Fs.file) :
  reads (added f)
  = if (maxFileSize <? Fs.f_size f)%N then [] else [abs f].
Proof using Type.
  unfold added, metricsAdded, step, fileStep, abs.
  destruct (maxFileSize <? Fs.f_size f)%N; [|destruct (readFile _)];
    reflexivity.
Qed.

Lemma abs_path_inj (files : list Fs.file) :
  NoDup (List.map abs files) -> NoDup (List.map Fs.f_path files).
Proof using Type.
  induction files as [|f t IH]; simpl; intros Hnd; [constructor|].
  apply NoDup_cons in Hnd as [Hnot Hnd]. apply NoDup_cons. split; [|auto].
  intros Hin. apply Hnot.
  apply list_elem_of_fmap in Hin as (g & Hg & Hin).
  apply list_elem_of_fmap. exists g. split; [|done].
  unfold abs. by rewrite Hg.
Qed.

Lemma pass_metrics (files : list Fs.file) (st : passState) (f : Fs.file) :
  NoDup (List.map Fs.f_path files) -> f ∈ files ->
  metricsByFile (fold_left step files st) !! Fs.f_path f
  = metricsByFile (added f) !! Fs.f_path f.
Proof using Type.
  revert st. induction files as [|g t IH]; intros st Hnd Hin.
  - by apply elem_of_nil in Hin.
  - simpl in Hnd. apply NoDup_cons in Hnd as [Hnot Hnd]. simpl.
    apply elem_of_cons in Hin as [->|Hin]; [|by apply IH].
    clear IH. assert (Hkeep : forall st',
      metricsByFile (fold_left step t st') !! Fs.f_path g
      = metricsByFile st' !! Fs.f_path g).
    { clear Hnd. induction t as [|h t IH]; intros st'; [done|]. simpl.
      rewrite IH.
      - rewrite step_metrics. case_decide as Heq; [|done].
        exfalso. apply Hnot. simpl. rewrite Heq. apply elem_of_cons. by left.
      - intros Hin. apply Hnot. simpl. apply elem_of_cons. by right. }
    rewrite Hkeep, step_metrics. by rewrite decide_True.
Qed.

Lemma pass_issues (files : list Fs.file) (st : passState) :
  issues (fold_left step files st)
  = issues st ++ flat_map (fun f => issues (added f)) files.
Proof using Type.
  revert st. induction files as [|g t IH]; intros st; simpl.
  - by rewrite app_nil_r.
  - by rewrite IH, step_issues, <- app_assoc.
Qed.

Lemma pass_reads (files : list Fs.file) (st : passState) :
  reads (fold_left step files st)
  = reads st ++ flat_map (fun f => reads (added f)) files.
Proof using Type.
  revert st. induction files as [|g t IH]; intros st; simpl.
  - by rewrite app_nil_r.
  - by rewrite IH, step_reads, <- app_assoc.
Qed.

Lemma issues_about_one (files : list Fs.file) (f : Fs.file) :
  NoDup (List.map Fs.f_path files) -> f ∈ files ->
  List.filter (about (Fs.f_path f))
    (flat_map (fun g => issues (added g)) files)
  = issues (added f).
Proof using Type.
  assert (Hall : forall g, List.filter (about (Fs.f_path g)) (issues (added g))
                           = issues (added g)).
  { intros g. pose proof (added_issues_about g) as HF.
    induction HF as [|i l Hi _ IH]; simpl; [done|].
    unfold about at 1. rewrite bool_decide_true by done. by rewrite IH. }
  assert (Hnone : forall g, Fs.f_path g <> Fs.f_path f ->
            List.filter (about (Fs.f_path f)) (issues (added g)) = []).
  { intros g Hne. pose proof (added_issues_about g) as HF.
    induction HF as [|i l Hi _ IH]; simpl; [done|].
    unfold about at 1. rewrite bool_decide_false by congruence. done. }
  induction files as [|g t IH]; intros Hnd Hin.
  - by apply elem_of_nil in Hin.
  - simpl in Hnd. apply NoDup_cons in Hnd as [Hnot Hnd]. simpl.
    rewrite List.filter_app.
    apply elem_of_cons in Hin as [->|Hin].
    + rewrite Hall.
      assert (Hrest : List.filter (about (Fs.f_path g))
                        (flat_map (fun g => issues (added g)) t) = []).
      { clear IH Hnd. induction t as [|h t IH]; simpl; [done|].
        rewrite List.filter_app, Hnone, IH; [done| |].
        - intros Hin. apply Hnot. simpl. apply elem_of_cons. by right.
        - intros Heq. apply Hnot. simpl. apply elem_of_cons. by left. }
      by rewrite Hrest, app_nil_r.
    + rewrite Hnone, IH; [done|done|done|].
      intros Heq. apply Hnot. rewrite Heq. apply list_elem_of_fmap. by exists f.
Qed.

Lemma NoDup_fmap_elem_inj (files : list Fs.file) (f g : Fs.file) :
  NoDup (List.map abs files) -> f ∈ files -> g ∈ files -> abs f = abs g ->
  f = g.
Proof using Type.
  induction files as [|h t IH]; intros Hnd Hf Hg Heq.
  - by apply elem_of_nil in Hf.
  - simpl in Hnd. apply NoDup_cons in Hnd as [Hnot Hnd].
    apply elem_of_cons in Hf as [->|Hf]; apply elem_of_cons in Hg as [->|Hg].
    + done.
    + exfalso. apply Hnot. rewrite Heq. apply list_elem_of_fmap. by exists g.
    + exfalso. apply Hnot. rewrite <- Heq. apply list_elem_of_fmap. by exists f.
    + by apply IH.
Qed.

Lemma pass_reads_elem (files : list Fs.file) (f : Fs.file) :
  NoDup (List.map abs files) -> f ∈ files ->
  abs f ∈ reads (fold_left step files (PassState ∅ [] []))
  <-> (Fs.f_size f <= maxFileSize)%N.
Proof using Type.
  intros Hnd Hin. rewrite pass_reads. cbn [reads app].
  rewrite list_elem_of_In, in_flat_map. split.
  - intros (g & Hg & Hr). apply list_elem_of_In in Hg, Hr.
    fold added in Hr. rewrite added_reads in Hr.
    destruct (N.ltb_spec maxFileSize (Fs.f_size g)) as [Hlt|Hle].
    + by apply elem_of_nil in Hr.
    + apply list_elem_of_singleton in Hr.
      by rewrite (NoDup_fmap_elem_inj files f g Hnd Hin Hg Hr).
  - intros Hle. exists f. split; [by apply list_elem_of_In|].
    apply list_elem_of_In. fold added. rewrite added_reads.
    destruct (N.ltb_spec maxFileSize (Fs.f_size f)) as [Hlt|_]; [lia|].
    by apply list_elem_of_singleton.
Qed.

End Metrics.

(** C7, as amended: a file of at most 512 KiB is read, and when the read
    succeeds its record gets lineCount, complexityScore and todoCount
    (when it fails the record is marked skipped and one file-read-error
    warning is emitted); a file even one byte larger is not read, its
    record has skipped = true with lineCount and complexityScore null,
    and the only issue about it is one file-too-large issue of severity
    info. *)
Theorem metrics_size_boundary (cwd : jsstring)
    (readFile : jsstring -> Fs.readResult) (rootPath : jsstring)
    (files : list Fs.file) (file : Fs.file) :
  NoDup (List.map (fun f => NodePath.resolve cwd [rootPath; Fs.f_path f])
           files) ->
  file ∈ files ->
  let st := FileMetrics.computeFileMetrics cwd readFile rootPath files
              FileMetrics.DEFAULT_MAX_FILE_SIZE in
  let absPath := NodePath.resolve cwd [rootPath; Fs.f_path file] in
  let path := Fs.f_path file in
  let about := fun i => bool_decide (FileMetrics.i_path i = path) in
  let record := FileMetrics.FileMetricsRecord
                  (Language.detectLanguage (Fs.f_ext file)) (Fs.f_size file) in
  ((Fs.f_size file <= 512 * 1024)%N ->
     absPath ∈ FileMetrics.reads st
     /\ (forall content, readFile absPath = Fs.ReadOk content ->
           FileMetrics.metricsByFile st !! path
           = Some (record
                     (Some (split_count FileMetrics.newline content))
                     (Some (F64.toFixed2
                              (F64.mul
                                 (F64.div
                                    (F64.of_nat
                                       (FileMetrics.countMatches content
                                          FileMetrics.decisionRegex))
                                    (F64.of_nat
                                       (split_count FileMetrics.newline
                                          content)))
                                 (F64.of_Z 100))))
                     (FileMetrics.countMatches content FileMetrics.todoRegex)
                     false))
     /\ (forall msg, readFile absPath = Fs.ReadError msg ->
           FileMetrics.metricsByFile st !! path
           = Some (record None None 0%nat true)
           /\ List.filter about (FileMetrics.issues st)
              = [FileMetrics.Issue FileMetrics.warning
                   FileMetrics.file_read_error path
                   (FileMetrics.CouldNotRead msg)]))
  /\ ((512 * 1024 < Fs.f_size file)%N ->
      (absPath ∉ FileMetrics.reads st)
      /\ FileMetrics.metricsByFile st !! path
         = Some (record None None 0%nat true)
      /\ List.filter about (FileMetrics.issues st)
         = [FileMetrics.Issue FileMetrics.info FileMetrics.file_too_large path
              (FileMetrics.SkippedReading path (Fs.f_size file))]).
Proof.
  intros Hnd Hin st absPath path about record.
  pose proof (abs_path_inj cwd rootPath files Hnd) as Hndp.
  pose proof (pass_reads_elem cwd readFile rootPath
                FileMetrics.DEFAULT_MAX_FILE_SIZE files file Hnd Hin) as Hreads.
  cbv beta in Hreads.
  assert (Hm : FileMetrics.metricsByFile st !! path
               = FileMetrics.metricsByFile
                   (metricsAdded cwd readFile rootPath
                      FileMetrics.DEFAULT_MAX_FILE_SIZE file) !! path).
  { apply pass_metrics; done. }
  assert (Hi : List.filter about (FileMetrics.issues st)
               = FileMetrics.issues
                   (metricsAdded cwd readFile rootPath
                      FileMetrics.DEFAULT_MAX_FILE_SIZE file)).
  { unfold st, FileMetrics.computeFileMetrics. rewrite pass_issues.
    cbn [FileMetrics.issues app]. by apply issues_about_one. }
  change (512 * 1024)%N with FileMetrics.DEFAULT_MAX_FILE_SIZE.
  split.
  - intros Hle. split; [by apply Hreads|].
    unfold metricsAdded, FileMetrics.fileStep in Hm, Hi.
    destruct (N.ltb_spec FileMetrics.DEFAULT_MAX_FILE_SIZE (Fs.f_size file))
      as [Hlt|_]; [lia|].
    fold absPath in Hm, Hi. split.
    + intros content Hread. rewrite Hread in Hm.
      cbn [FileMetrics.metricsByFile] in Hm.
      rewrite Hm. fold path. by rewrite lookup_insert_eq.
    + intros msg Hread. rewrite Hread in Hm, Hi.
      cbn [FileMetrics.metricsByFile FileMetrics.issues app] in Hm, Hi.
      rewrite Hm, Hi. fold path. by rewrite lookup_insert_eq.
  - intros Hgt. split; [intros Hr; apply Hreads in Hr; lia|].
    unfold metricsAdded, FileMetrics.fileStep in Hm, Hi.
    destruct (N.ltb_spec FileMetrics.DEFAULT_MAX_FILE_SIZE (Fs.f_size file))
      as [_|Hle]; [|lia].
    cbn [FileMetrics.metricsByFile FileMetrics.issues app] in Hm, Hi.
    rewrite Hm, Hi. fold path. by rewrite lookup_insert_eq.
Qed.


Lemma metrics_size_boundary_witness :
  let st := FileMetrics.computeFileMetrics (str "/") readable (str "/p")
              [exact512; oneMore] FileMetrics.DEFAULT_MAX_FILE_SIZE in
  NodePath.resolve (str "/") [str "/p"; Fs.f_path exact512]
    ∈ FileMetrics.reads st
  /\ NodePath.resolve (str "/") [str "/p"; Fs.f_path oneMore]
       ∉ FileMetrics.reads st.
Proof.
  assert (Hnd : NoDup (List.map
                         (fun f => NodePath.resolve (str "/")
                                     [str "/p"; Fs.f_path f])
                         [exact512; oneMore])).
  { apply (bool_decide_unpack _). vm_compute. reflexivity. }
  split.
  - apply (metrics_size_boundary (str "/") readable (str "/p")
             [exact512; oneMore] exact512 Hnd).
    + apply elem_of_cons. by left.
    + vm_compute. discriminate.
  - apply (metrics_size_boundary (str "/") readable (str "/p")
             [exact512; oneMore] oneMore Hnd).
    + apply elem_of_cons. right. apply elem_of_cons. by left.
    + vm_compute. reflexivity.
Defined.

(** C7 as stated fails: a file below the size limit whose read fails
    keeps lineCount and complexityScore null. *)
Lemma small_unreadable_file_is_not_populated :
  (Fs.f_size notes <= 512 * 1024)%N
  /\ exists m,
       FileMetrics.metricsByFile
         (FileMetrics.computeFileMetrics (str "/") unreadable (str "/p")
            [notes] FileMetrics.DEFAULT_MAX_FILE_SIZE) !! Fs.f_path notes
       = Some m
       /\ FileMetrics.lineCount m = None
       /\ FileMetrics.complexityScore m = None
       /\ FileMetrics.skipped m = true.
Proof.
  split; [vm_compute; discriminate|].
  eexists. split; [vm_compute; reflexivity|]. repeat split.
Qed.

(** ** Export usage *)

Section ExportUsage.

Variable resolution : gmap jsstring jsstring.
Variable exportsByFile : list (jsstring * list jsstring).

Lemma usageOf_insert (usage : gmap jsstring (gset jsstring))
    (key k : jsstring) (X : gset jsstring) :
  usageOf (<[key := X]> usage) k
  = if decide (key = k) then X else usageOf usage k.
Proof.
  unfold usageOf. rewrite lookup_insert. by case_decide.
Qed.

Lemma credit_spec (target sourceFile exportName : jsstring) (st : usageState) :
  seenSound sourceFile st -> inhabitedSets (exportUsageSets st) ->
  let st' := credit target sourceFile exportName st in
  seenSound sourceFile st'
  /\ inhabitedSets (exportUsageSets st')
  /\ forall k f,
       f ∈ usageOf (exportUsageSets st') k
       <-> f ∈ usageOf (exportUsageSets st) k
           \/ (f = sourceFile /\ k = target ++ str "#" ++ exportName).
Proof.
  intros Hseen Hinh. unfold credit.
  set (key := target ++ str "#" ++ exportName).
  case_bool_decide as Hin; cbn zeta.
  - split; [done|]. split; [done|]. intros k f. split; [by left|].
    intros [Hf|[-> ->]]; [done|]. by apply Hseen.
  - split; [|split].
    + intros key'. cbn [seenPerSource exportUsageSets].
      rewrite usageOf_insert, elem_of_union, elem_of_singleton.
      intros [Heq|Hold]; case_decide as Hk; try set_solver.
      apply app_inv_tail in Heq. congruence.
    + intros k X. cbn [exportUsageSets]. rewrite lookup_insert.
      case_decide as Hk.
      * intros [= <-]. exists sourceFile. set_solver.
      * apply Hinh.
    + intros k f. cbn [exportUsageSets]. rewrite usageOf_insert.
      case_decide as Hk.
      * subst k. rewrite elem_of_union, elem_of_singleton.
        fold (usageOf (exportUsageSets st) key). tauto.
      * split; [by left|]. intros [Hf|[_ ->]]; [done|]. by destruct Hk.
Qed.

(** A loop that credits the names a selector keeps. *)
Lemma credit_fold_spec {A : Type} (sel : A -> option jsstring)
    (body : usageState -> A -> usageState)
    (target sourceFile : jsstring) (l : list A) (st : usageState) :
  (forall st x, body st x
     = match sel x with
       | Some name => credit target sourceFile name st
       | None => st
       end) ->
  seenSound sourceFile st -> inhabitedSets (exportUsageSets st) ->
  let st' := fold_left body l st in
  seenSound sourceFile st'
  /\ inhabitedSets (exportUsageSets st')
  /\ forall k f,
       f ∈ usageOf (exportUsageSets st') k
       <-> f ∈ usageOf (exportUsageSets st) k
           \/ (f = sourceFile
               /\ exists x name, x ∈ l /\ sel x = Some name
                                 /\ k = target ++ str "#" ++ name).
Proof.
  intros Hbody. revert st. induction l as [|x t IH]; intros st Hseen Hinh.
  - cbn. split; [done|]. split; [done|]. intros k f. split; [by left|].
    intros [Hf|(_ & y & n & Hy & _)]; [done|]. by apply elem_of_nil in Hy.
  - cbn [fold_left]. cbn zeta.
    assert (Hstep : seenSound sourceFile (body st x)
                    /\ inhabitedSets (exportUsageSets (body st x))
                    /\ forall k f,
                         f ∈ usageOf (exportUsageSets (body st x)) k
                         <-> f ∈ usageOf (exportUsageSets st) k
                             \/ (f = sourceFile
                                 /\ exists name, sel x = Some name
                                      /\ k = target ++ str "#" ++ name)).
    { rewrite Hbody. destruct (sel x) as [name|].
      - destruct (credit_spec target sourceFile name st Hseen Hinh)
          as (H1 & H2 & H3).
        split; [done|]. split; [done|]. intros k f. rewrite H3.
        split; (intros [Hf|Hf]; [by left|right]).
        + destruct Hf as [-> ->]. eauto.
        + destruct Hf as (-> & n & [= <-] & ->). done.
      - split; [done|]. split; [done|]. intros k f. split; [by left|].
        intros [Hf|(_ & n & Hn & _)]; [done|discriminate]. }
    destruct Hstep as (H1 & H2 & H3).
    destruct (IH (body st x) H1 H2) as (I1 & I2 & I3).
    split; [done|]. split; [done|]. intros k f. rewrite I3, H3.
    split.
    + intros [[Hf|(-> & n & Hn & ->)]|(-> & y & n & Hy & Hn & ->)].
      * by left.
      * right. split; [done|]. exists x, n. split; [in_head|done].
      * right. split; [done|]. exists y, n. split; [in_tail|done].
    + intros [Hf|(-> & y & n & Hy & Hn & ->)]; [by left; left|].
      apply elem_of_cons in Hy as [->|Hy].
      * left. right. eauto.
      * right. split; [done|]. eauto.
Qed.

Lemma mem_elem_of {K : Type} `{EqDecision K} (s : list K) (k : K) :
  OMap.mem s k = true <-> k ∈ s.
Proof. unfold OMap.mem. apply bool_decide_eq_true. Qed.

Lemma creditImport_spec (sourceFile : jsstring) (st : usageState)
    (imp : importDescriptor) :
  seenSound sourceFile st -> inhabitedSets (exportUsageSets st) ->
  let st' := creditImport resolution exportsByFile sourceFile st imp in
  seenSound sourceFile st'
  /\ inhabitedSets (exportUsageSets st')
  /\ forall k f,
       f ∈ usageOf (exportUsageSets st') k
       <-> f ∈ usageOf (exportUsageSets st) k
           \/ (f = sourceFile
               /\ creditsVia resolution exportsByFile sourceFile imp k).
Proof.
  intros Hseen Hinh. unfold creditImport, creditsVia.
  destruct (resolution !! (sourceFile ++ str "::" ++ specifier imp))
    as [target|] eqn:Hres.
  2:{ cbn zeta. split; [done|]. split; [done|]. intros k f. split; [by left|].
      intros [Hf|(_ & t & n & Ht & _)]; [done|discriminate]. }
  destruct target as [|c target].
  { cbn zeta. split; [done|]. split; [done|]. intros k f. split; [by left|].
    intros [Hf|(_ & t & n & Ht & Hne & _)]; [done|]. congruence. }
  set (tgt := c :: target) in *.
  set (exportSet := default [] (OMap.get exportsByFile tgt)).
  destruct (hasNamespace imp) eqn:Hns.
  - destruct (credit_fold_spec (fun name => Some name)
                (fun st name => credit tgt sourceFile name st)
                tgt sourceFile exportSet st) as (H1 & H2 & H3); [done..|].
    cbn zeta. split; [done|]. split; [done|]. intros k f. rewrite H3.
    split; (intros [Hf|[-> Hf]]; [by left|right; split; [done|]]).
    + destruct Hf as (x & n & Hx & [= <-] & ->).
      exists tgt, x. repeat split; try done. by left.
    + destruct Hf as (t & n & [= <-] & _ & Hn & -> & _). eauto.
  - destruct (credit_fold_spec
                (fun name =>
                   if negb (OMap.mem exportSet (exportNameOf name)) then None
                   else Some (exportNameOf name))
                (fun st name =>
                   let exportName :=
                     if JS.truthy name then name else str "default" in
                   if negb (OMap.mem exportSet exportName) then st
                   else credit tgt sourceFile exportName st)
                tgt sourceFile (names imp) st) as (H1 & H2 & H3); [|done..|].
    { intros st0 x. cbn zeta. fold (exportNameOf x).
      by destruct (OMap.mem exportSet (exportNameOf x)). }
    cbn zeta. split; [done|]. split; [done|]. intros k f. rewrite H3.
    split; (intros [Hf|[-> Hf]]; [by left|right; split; [done|]]).
    + destruct Hf as (x & n & Hx & Hsel & ->).
      destruct (OMap.mem exportSet (exportNameOf x)) eqn:Hmem; [|done].
      cbn in Hsel. injection Hsel as <-. apply mem_elem_of in Hmem.
      exists tgt, (exportNameOf x). repeat split; try done. right. eauto.
    + destruct Hf as (t & n & [= <-] & _ & Hn & -> & [Hf|(x & Hx & ->)]);
        [discriminate|].
      exists x, (exportNameOf x). split; [done|].
      apply mem_elem_of in Hn. fold exportSet in Hn. rewrite Hn. done.
Qed.

End ExportUsage.

Lemma imports_fold_spec (resolution : gmap jsstring jsstring)
    (exportsByFile : list (jsstring * list jsstring))
    (sourceFile : jsstring) (imports : list importDescriptor)
    (st : usageState) :
  seenSound sourceFile st -> inhabitedSets (exportUsageSets st) ->
  let st' := fold_left (creditImport resolution exportsByFile sourceFile)
               imports st in
  seenSound sourceFile st'
  /\ inhabitedSets (exportUsageSets st')
  /\ forall k f,
       f ∈ usageOf (exportUsageSets st') k
       <-> f ∈ usageOf (exportUsageSets st) k
           \/ (f = sourceFile
               /\ exists imp, imp ∈ imports
                    /\ creditsVia resolution exportsByFile sourceFile imp k).
Proof.
  revert st. induction imports as [|imp t IH]; intros st Hseen Hinh.
  - cbn. split; [done|]. split; [done|]. intros k f. split; [by left|].
    intros [Hf|(_ & i & Hi & _)]; [done|]. by apply elem_of_nil in Hi.
  - cbn [fold_left]. cbn zeta.
    destruct (creditImport_spec resolution exportsByFile sourceFile st imp
                Hseen Hinh) as (H1 & H2 & H3).
    destruct (IH _ H1 H2) as (I1 & I2 & I3).
    split; [done|]. split; [done|]. intros k f. rewrite I3, H3. split.
    + intros [[Hf|[-> Hc]]|(-> & i & Hi & Hc)].
      * by left.
      * right. split; [done|]. exists imp. split; [in_head|done].
      * right. split; [done|]. exists i. split; [in_tail|done].
    + intros [Hf|(-> & i & Hi & Hc)]; [by left; left|].
      apply elem_of_cons in Hi as [->|Hi].
      * left. right. done.
      * right. split; [done|]. eauto.
Qed.

Lemma computeExportUsage_fold_spec (resolution : gmap jsstring jsstring)
    (exportsByFile : list (jsstring * list jsstring))
    (importsByFile : list (jsstring * list importDescriptor))
    (usage : gmap jsstring (gset jsstring)) :
  inhabitedSets usage ->
  let usage' :=
    fold_left
      (fun usage '(sourceFile, imports) =>
         exportUsageSets
           (fold_left (creditImport resolution exportsByFile sourceFile)
              imports (UsageState ∅ usage)))
      importsByFile usage in
  inhabitedSets usage'
  /\ forall k f,
       f ∈ usageOf usage' k
       <-> f ∈ usageOf usage k
           \/ importerCredits resolution exportsByFile importsByFile f k.
Proof.
  revert usage. induction importsByFile as [|[src imports] t IH];
    intros usage Hinh.
  - cbn. split; [done|]. intros k f. split; [by left|].
    intros [Hf|(i & imp & Hi & _)]; [done|]. by apply elem_of_nil in Hi.
  - cbn [fold_left]. cbn zeta.
    destruct (imports_fold_spec resolution exportsByFile src imports
                (UsageState ∅ usage)) as (_ & H2 & H3).
    { intros key Hkey. cbn in Hkey. set_solver. }
    { done. }
    destruct (IH _ H2) as (I2 & I3).
    split; [done|]. intros k f. rewrite I3, H3. cbn [exportUsageSets].
    unfold importerCredits. split.
    + intros [[Hf|(-> & imp & Himp & Hc)]|(i & imp & Hi & Himp & Hc)].
      * by left.
      * right. exists imports, imp. split; [in_head|done].
      * right. exists i, imp. split; [in_tail|done].
    + intros [Hf|(i & imp & Hi & Himp & Hc)]; [by left; left|].
      apply elem_of_cons in Hi as [[= -> ->]|Hi].
      * left. right. eauto.
      * right. eauto.
Qed.

Lemma computeExportUsage_spec (resolution : gmap jsstring jsstring)
    (exportsByFile : list (jsstring * list jsstring))
    (importsByFile : list (jsstring * list importDescriptor)) :
  let usage := computeExportUsage resolution exportsByFile importsByFile in
  inhabitedSets usage
  /\ forall k f,
       f ∈ usageOf usage k
       <-> importerCredits resolution exportsByFile importsByFile f k.
Proof.
  destruct (computeExportUsage_fold_spec resolution exportsByFile
              importsByFile ∅) as (H1 & H2).
  { intros k X Hk. by rewrite lookup_empty in Hk. }
  split; [done|]. intros k f. unfold computeExportUsage. rewrite H2.
  unfold usageOf at 1. rewrite lookup_empty. cbn. set_solver.
Qed.


(** C10: every value of the published map is at least 1, and an export
    that no importer credits has no entry at all. *)
Theorem export_usage_values_positive
    (edges : list dependencyEdge)
    (exportsByFile : list (jsstring * list jsstring))
    (importsByFile : list (jsstring * list importDescriptor))
    (key : jsstring) :
  (forall n, exportUsage edges exportsByFile importsByFile !! key = Some n ->
     (1 <= n)%nat)
  /\ ((forall f, ~ importerCredits (buildResolution edges) exportsByFile
                    importsByFile f key) ->
      exportUsage edges exportsByFile importsByFile !! key = None).
Proof.
  destruct (computeExportUsage_spec (buildResolution edges) exportsByFile
              importsByFile) as (Hinh & Hspec).
  unfold exportUsage. rewrite lookup_fmap.
  destruct (computeExportUsage _ _ _ !! key) as [X|] eqn:HX; cbn.
  - destruct (Hinh key X HX) as [f Hf]. split.
    + intros n [= <-]. assert (size X <> 0%nat); [|lia].
      apply size_non_empty_iff. intros Hempty.
      apply (not_elem_of_empty (C := gset jsstring) f). by apply Hempty.
    + intros Hnone. exfalso. apply (Hnone f), Hspec.
      unfold usageOf. by rewrite HX.
  - split; [intros n Hn; discriminate|done].
Qed.

Lemma export_usage_values_positive_witness :
  exportUsage edges2 exports2 imports2 !! str "a.js#foo" = Some 1%nat
  /\ (1 <= 1)%nat.
Proof.
  assert (H : exportUsage edges2 exports2 imports2 !! str "a.js#foo"
              = Some 1%nat) by (vm_compute; reflexivity).
  split; [exact H|].
  destruct (export_usage_values_positive edges2 exports2 imports2
              (str "a.js#foo")) as [Hpos _].
  exact (Hpos 1%nat H).
Defined.

(** A resolved key stems from a local dependency edge. *)
Lemma buildResolution_lookup (edges : list dependencyEdge)
    (key target : jsstring) :
  buildResolution edges !! key = Some target ->
  exists dep,
    dep ∈ edges
    /\ dep_kind dep = str "local"
    /\ key = normalizePath (dep_source dep) ++ str "::" ++ dep_specifier dep
    /\ target = normalizePath (dep_target dep).
Proof.
  unfold buildResolution.
  assert (H : forall (init : gmap jsstring jsstring),
            fold_left
              (fun resolution dep =>
                 if negb (eqb (dep_kind dep) (str "local")) then resolution
                 else
                   <[ normalizePath (dep_source dep) ++ str "::"
                      ++ dep_specifier dep
                      := normalizePath (dep_target dep) ]> resolution)
              edges init !! key = Some target ->
            init !! key = Some target
            \/ exists dep,
                 dep ∈ edges
                 /\ dep_kind dep = str "local"
                 /\ key = normalizePath (dep_source dep) ++ str "::"
                          ++ dep_specifier dep
                 /\ target = normalizePath (dep_target dep)).
  { induction edges as [|dep t IH]; intros init; cbn [fold_left]; [by left|].
    intros Hl. apply IH in Hl as [Hl|(d & Hd & Hrest)].
    - unfold eqb in Hl. case_bool_decide as Hk; cbn [negb] in Hl.
      + rewrite lookup_insert in Hl. case_decide as Heq.
        * injection Hl as <-. right. exists dep.
          split; [in_head|done].
        * by left.
      + by left.
    - right. exists d. split; [in_tail|done]. }
  intros Hl. apply H in Hl as [Hl|Hl]; [by rewrite lookup_empty in Hl|done].
Qed.

(** ** Winnowing *)

Section Winnowing.

Lemma indexed_length (hs : list N) : length (indexed hs) = length hs.
Proof. apply length_imap. Qed.

Lemma indexed_lookup (hs : list N) (i : nat) :
  indexed hs !! i = (fun h => Fingerprint h i) <$> hs !! i.
Proof. apply list_lookup_imap. Qed.

Lemma at_indexed (hs : list N) (i : nat) (h : N) :
  hs !! i = Some h -> at_ (indexed hs) i = Fingerprint h i.
Proof.
  intros Hi. unfold at_. rewrite nth_lookup, indexed_lookup, Hi. done.
Qed.

Lemma indexed_snoc (hs : list N) (h : N) :
  indexed (hs ++ [h]) = indexed hs ++ [Fingerprint h (length hs)].
Proof.
  unfold indexed. rewrite imap_app. cbn. by rewrite Nat.add_0_r.
Qed.

Lemma beats_spec (h1 h2 : N) (i1 i2 : nat) :
  beats (Fingerprint h1 i1) (Fingerprint h2 i2) = true
  <-> (h1 < h2)%N \/ (h1 = h2 /\ (i2 < i1)%nat).
Proof.
  unfold beats. cbn [fp_hash fp_index].
  rewrite orb_true_iff, andb_true_iff, N.ltb_lt, N.eqb_eq, Nat.ltb_lt. done.
Qed.

Lemma isWindowMin_at (hs : list N) (s w : nat) (fp : fingerprint) :
  isWindowMin hs s w fp -> at_ (indexed hs) (fp_index fp) = fp.
Proof.
  intros (_ & Hfp & _). rewrite (at_indexed _ _ _ Hfp). by destruct fp.
Qed.

(** A window of one hash. *)
Lemma isWindowMin_single (hs : list N) (s : nat) (h : N) :
  hs !! s = Some h -> isWindowMin hs s 1 (Fingerprint h s).
Proof.
  intros Hs. split; [cbn; lia|]. split; [done|].
  intros j h' Hj Hh. assert (j = s) as -> by lia.
  right. cbn [fp_hash fp_index]. split; [congruence|done].
Qed.

(** Growing the window by the hash to its right. *)
Lemma isWindowMin_extend (hs : list N) (s w : nat) (fp : fingerprint) (h : N) :
  isWindowMin hs s w fp -> hs !! (s + w)%nat = Some h ->
  isWindowMin hs s (S w)
    (if beats (Fingerprint h (s + w)) fp then Fingerprint h (s + w) else fp).
Proof.
  intros (Hr & Hfp & Hmin) Hh. destruct fp as [hm m]. cbn in *.
  destruct (beats _ _) eqn:Hb.
  - apply beats_spec in Hb.
    assert (Hle : (h <= hm)%N) by (destruct Hb as [?|[-> _]]; lia).
    split; [cbn; lia|]. split; [done|]. cbn.
    intros j h' Hj Hh'. destruct (decide (j = (s + w)%nat)) as [->|Hne].
    + right. split; [congruence|done].
    + destruct (Hmin j h' ltac:(lia) Hh') as [Hlt|[-> _]].
      * destruct (decide (h = h')) as [->|]; [right; split; [done|lia]|left; lia].
      * destruct (decide (h = h')) as [->|]; [right; split; [done|lia]|left; lia].
  - assert (Hgt : (hm < h)%N).
    { destruct (N.lt_ge_cases hm h) as [|Hge]; [done|].
      assert (beats (Fingerprint h (s + w)) (Fingerprint hm m) = true);
        [|congruence].
      apply beats_spec. destruct (decide (h = hm)); [right; split; [done|lia]|left; lia]. }
    split; [cbn; lia|]. split; [done|]. cbn.
    intros j h' Hj Hh'. destruct (decide (j = (s + w)%nat)) as [->|Hne].
    + left. congruence.
    + apply Hmin; [lia|done].
Qed.

(** Dropping the leftmost hash when the minimum is not there. *)
Lemma isWindowMin_shrink (hs : list N) (s w : nat) (fp : fingerprint) :
  isWindowMin hs s (S w) fp -> (s < fp_index fp)%nat ->
  isWindowMin hs (S s) w fp.
Proof.
  intros (Hr & Hfp & Hmin) Hlt. split; [lia|]. split; [done|].
  intros j h Hj Hh. apply Hmin; [lia|done].
Qed.

Lemma isWindowMin_unique (hs : list N) (s w : nat) (fp fp' : fingerprint) :
  isWindowMin hs s w fp -> isWindowMin hs s w fp' -> fp = fp'.
Proof.
  intros (Hr & Hfp & Hmin) (Hr' & Hfp' & Hmin').
  destruct (Hmin _ _ Hr' Hfp') as [Hlt|[Heq Hle]];
    destruct (Hmin' _ _ Hr Hfp) as [Hlt'|[Heq' Hle']]; try lia.
  destruct fp, fp'; cbn in *. f_equal; [done|lia].
Qed.

Lemma isWindowMin_app (hs more : list N) (s w : nat) (fp : fingerprint) :
  (s + w <= length hs)%nat ->
  isWindowMin hs s w fp -> isWindowMin (hs ++ more) s w fp.
Proof.
  intros Hlen (Hr & Hfp & Hmin). split; [done|]. split.
  - rewrite lookup_app_l by lia. done.
  - intros j h Hj Hh. rewrite lookup_app_l in Hh by lia. by apply Hmin.
Qed.

(** The [for] loop of the rescan, continued from position [s + w] with
    the minimum of the first [w] hashes of the window in hand. *)
Lemma rescan_spec (hs : list N) (s : nat) (count w : nat) (fp : fingerprint) :
  isWindowMin hs s w fp -> (s + w + count <= length hs)%nat ->
  let r := rescan (indexed hs) (s + w) count (fp_index fp) in
  isWindowMin hs s (w + count) (at_ (indexed hs) r)
  /\ fp_index (at_ (indexed hs) r) = r.
Proof.
  revert w fp. induction count as [|count IH]; intros w fp Hmin Hlen.
  - cbn. rewrite Nat.add_0_r. by rewrite (isWindowMin_at _ _ _ _ Hmin).
  - cbn [rescan]. destruct (lookup_lt_is_Some_2 hs (s + w)) as [h Hh]; [lia|].
    rewrite (at_indexed _ _ _ Hh), (isWindowMin_at _ _ _ _ Hmin).
    pose proof (isWindowMin_extend hs s w fp h Hmin Hh) as Hext.
    replace (w + S count)%nat with (S w + count)%nat by lia.
    replace (S (s + w)) with (s + S w)%nat by lia.
    destruct (beats (Fingerprint h (s + w)) fp).
    + apply (IH (S w) (Fingerprint h (s + w)) Hext). lia.
    + apply (IH (S w) fp Hext). lia.
Qed.

Lemma rescan_window (hs : list N) (s w : nat) :
  (s + S w <= length hs)%nat ->
  let r := rescan (indexed hs) s (S w) s in
  isWindowMin hs s (S w) (at_ (indexed hs) r)
  /\ fp_index (at_ (indexed hs) r) = r.
Proof.
  intros Hlen. destruct (lookup_lt_is_Some_2 hs s) as [h Hh]; [lia|].
  cbn [rescan]. rewrite (at_indexed _ _ _ Hh).
  assert (Hself : beats (Fingerprint h s) (Fingerprint h s) = false).
  { destruct (beats _ _) eqn:Hb; [|done]. apply beats_spec in Hb. lia. }
  rewrite Hself.
  pose proof (rescan_spec hs s w 1 (Fingerprint h s)
                (isWindowMin_single hs s h Hh) ltac:(lia)) as H.
  replace (s + 1)%nat with (S s) in H by lia. exact H.
Qed.

Lemma dedupAdjacent_last (l : list fingerprint) :
  last (dedupAdjacent l) = last l.
Proof.
  induction l as [|a l IH]; [done|]. destruct l as [|b t]; [done|].
  change (dedupAdjacent (a :: b :: t))
    with (if decide (a = b) then dedupAdjacent (b :: t)
          else a :: dedupAdjacent (b :: t)).
  rewrite (last_cons a (b :: t)).
  case_decide.
  - rewrite IH. destruct (last (b :: t)) eqn:E; [done|].
    by apply last_None in E.
  - by rewrite last_cons, IH.
Qed.

Lemma dedupAdjacent_snoc (l : list fingerprint) (x : fingerprint) :
  dedupAdjacent (l ++ [x])
  = match last l with
    | Some y => if decide (y = x) then dedupAdjacent l
                else dedupAdjacent l ++ [x]
    | None => [x]
    end.
Proof.
  induction l as [|a [|b t] IH]; [done| |].
  - cbn. case_decide; [by subst|done].
  - change (dedupAdjacent ((a :: b :: t) ++ [x]))
      with (if decide (a = b) then dedupAdjacent ((b :: t) ++ [x])
            else a :: dedupAdjacent ((b :: t) ++ [x])).
    change (last (a :: b :: t)) with (last (b :: t)).
    change (dedupAdjacent (a :: b :: t))
      with (if decide (a = b) then dedupAdjacent (b :: t)
            else a :: dedupAdjacent (b :: t)).
    rewrite IH. destruct (last (b :: t)) as [y|] eqn:Hlast.
    + by repeat case_decide.
    + by apply last_None in Hlast.
Qed.

Lemma pushFingerprint_dedup (picks : list fingerprint) (c : fingerprint) :
  pushFingerprint (dedupAdjacent picks) c = dedupAdjacent (picks ++ [c]).
Proof.
  unfold pushFingerprint. rewrite dedupAdjacent_last, dedupAdjacent_snoc.
  destruct (last picks) as [prev|] eqn:Hlast;
    [|by apply last_None in Hlast as ->].
  destruct prev as [h i], c as [h' i']. cbn [fp_hash fp_index].
  destruct (N.eqb_spec h h') as [->|Hh]; destruct (Nat.eqb_spec i i') as [->|Hi];
    cbn [negb orb]; case_decide as Heq; try done; congruence.
Qed.

(** The sliding loop: [picks] are the window minima found so far, one
    per window position. *)
Lemma slide_spec (hs : list N) (fuel s : nat) (minIndex : Z)
    (picks : list fingerprint) :
  length picks = s ->
  (forall p fp, picks !! p = Some fp -> isWindowMin hs p 4 fp) ->
  match last picks with
  | None => minIndex = (-1)%Z
  | Some fp => minIndex = Z.of_nat (fp_index fp)
  end ->
  (s + 3 <= length hs)%nat -> (length hs <= s + 3 + fuel)%nat ->
  exists picks',
    length picks' = (length hs - 3)%nat
    /\ (forall p fp, picks' !! p = Some fp -> isWindowMin hs p 4 fp)
    /\ slide fuel (indexed hs) s (s + 3) minIndex (dedupAdjacent picks)
       = dedupAdjacent picks'.
Proof.
  revert s minIndex picks.
  induction fuel as [|fuel IH]; intros s minIndex picks Hlen Hpicks Hmin Hlo Hhi.
  - exists picks. split; [lia|]. split; [done|]. reflexivity.
  - cbn [slide]. rewrite indexed_length.
    destruct (Nat.ltb_spec (s + 3) (length hs)) as [Hlt|Hge].
    2:{ exists picks. split; [lia|]. split; [done|]. reflexivity. }
    assert (Hsnoc : forall pick, isWindowMin hs s 4 pick ->
              forall p fp, (picks ++ [pick]) !! p = Some fp ->
                isWindowMin hs p 4 fp).
    { intros pick Hpick p fp Hp.
      apply lookup_app_Some in Hp as [Hp|[Hge Hp]]; [by apply Hpicks|].
      apply list_lookup_singleton_Some in Hp as [Hz <-].
      replace p with s by lia. done. }
    destruct (Z.ltb_spec minIndex (Z.of_nat s)) as [Hstale|Hfresh].
    + replace (s + 3 - s)%nat with 3%nat by lia.
      destruct (rescan_window hs s 3 ltac:(lia)) as [Hpick Hidx].
      set (m := rescan (indexed hs) s 4 s) in *.
      rewrite pushFingerprint_dedup.
      apply (IH (S s) (Z.of_nat m) (picks ++ [at_ (indexed hs) m])).
      * rewrite length_app. cbn. lia.
      * by apply Hsnoc.
      * rewrite last_snoc. by rewrite Hidx.
      * lia.
      * lia.
    + destruct (last picks) as [fp|] eqn:Hlast; [|lia].
      assert (Hfp : isWindowMin hs (s - 1) 4 fp).
      { apply Hpicks. rewrite last_lookup in Hlast.
        by replace (s - 1)%nat with (pred (length picks)) by lia. }
      assert (Hs : (1 <= s)%nat).
      { destruct picks; [done|]. cbn in Hlen. lia. }
      assert (Hshr : isWindowMin hs s 3 fp).
      { replace s with (S (s - 1)) at 1 by lia.
        apply isWindowMin_shrink; [done|lia]. }
      destruct (lookup_lt_is_Some_2 hs (s + 3)) as [h Hh]; [lia|].
      pose proof (isWindowMin_extend hs s 3 fp h Hshr Hh) as Hext.
      rewrite (at_indexed _ _ _ Hh). subst minIndex. rewrite Nat2Z.id.
      rewrite (isWindowMin_at _ _ _ _ Hfp).
      destruct (beats (Fingerprint h (s + 3)) fp).
      * rewrite pushFingerprint_dedup.
        apply (IH (S s) (Z.of_nat (s + 3)) (picks ++ [Fingerprint h (s + 3)])).
        -- rewrite length_app. cbn. lia.
        -- by apply Hsnoc.
        -- by rewrite last_snoc.
        -- lia.
        -- lia.
      * replace (dedupAdjacent picks) with (dedupAdjacent (picks ++ [fp])).
        2:{ rewrite dedupAdjacent_snoc, Hlast. by rewrite decide_True. }
        apply (IH (S s) (Z.of_nat (fp_index fp)) (picks ++ [fp])).
        -- rewrite length_app. cbn. lia.
        -- by apply Hsnoc.
        -- by rewrite last_snoc.
        -- lia.
        -- lia.
Qed.

(** The [reduce] of the short case. *)
Lemma reduce_spec (hs : list N) :
  hs <> [] ->
  exists fp,
    fold_left
      (fun best current =>
         match best with
         | None => Some current
         | Some b => if beats current b then Some current else Some b
         end) (indexed hs) None = Some fp
    /\ isWindowMin hs 0 (length hs) fp.
Proof.
  induction hs as [|h hs IH] using rev_ind; [done|]. intros _.
  rewrite indexed_snoc, fold_left_app, length_app. cbn [fold_left length].
  destruct hs as [|h0 hs].
  - cbn. eexists. split; [reflexivity|]. by apply isWindowMin_single.
  - destruct (IH ltac:(done)) as (fp & -> & Hfp).
    exists (if beats (Fingerprint h (length (h0 :: hs))) fp
            then Fingerprint h (length (h0 :: hs)) else fp).
    split; [by destruct (beats _ _)|].
    replace (length (h0 :: hs) + 1)%nat with (S (length (h0 :: hs))) by lia.
    apply (isWindowMin_extend ((h0 :: hs) ++ [h]) 0 (length (h0 :: hs)) fp h).
    + apply isWindowMin_app; [lia|done].
    + rewrite lookup_app_r by (cbn; lia).
      by replace (0 + length (h0 :: hs) - length (h0 :: hs))%nat with 0%nat by lia.
Qed.

(** What [computeFingerprints] passes to [winnow] is an indexed hash
    sequence. *)
Lemma shingleHashes_indexed (toks : list jsstring) (k : nat) :
  shingleHashes toks k
  = indexed (List.map (fun i => hashShingle toks i k)
               (seq 0 (S (length toks - k)))).
Proof.
  unfold shingleHashes, indexed.
  generalize (S (length toks - k)). intros n.
  assert (H : forall start,
            List.map (fun i => Fingerprint (hashShingle toks i k) i)
              (seq start n)
            = imap (fun i h => Fingerprint h (start + i))
                (List.map (fun i => hashShingle toks i k) (seq start n))).
  { induction n as [|n IH]; intros start; [done|]. cbn [seq List.map imap].
    rewrite Nat.add_0_r. f_equal. rewrite IH.
    apply imap_ext. intros i x _. cbn. f_equal. lia. }
  rewrite (H 0%nat). by apply imap_ext.
Qed.

(** C3: with window size 4, a hash sequence of more than four hashes
    yields the window minimum of every window position (smallest hash,
    latest index among equal hashes), an output equal to the one emitted
    right before it being dropped; a non-empty sequence of at most four
    hashes yields exactly one fingerprint, its global minimum under the
    same tie-break. [winnow] is a function, so equal inputs give equal
    outputs. *)
Theorem winnow_window_minima (hs : list N) :
  hs <> [] ->
  ((length hs <= 4)%nat ->
     exists fp,
       winnow (indexed hs) WINDOW_SIZE = [fp]
       /\ isWindowMin hs 0 (length hs) fp)
  /\ ((4 < length hs)%nat ->
      exists picks,
        length picks = (length hs - 3)%nat
        /\ (forall p fp, picks !! p = Some fp -> isWindowMin hs p 4 fp)
        /\ winnow (indexed hs) WINDOW_SIZE = dedupAdjacent picks).
Proof.
  intros Hne.
  assert (Hw : winnow (indexed hs) WINDOW_SIZE
               = if (length hs <=? 4)%nat then
                   match fold_left
                           (fun best current =>
                              match best with
                              | None => Some current
                              | Some b =>
                                  if beats current b then Some current
                                  else Some b
                              end) (indexed hs) None with
                   | Some min => [min]
                   | None => []
                   end
                 else slide (length hs) (indexed hs) 0 3 (-1) []).
  { unfold winnow, WINDOW_SIZE. rewrite indexed_length.
    destruct hs as [|h hs]; [done|]. reflexivity. }
  rewrite Hw. split.
  - intros Hle. destruct (Nat.leb_spec (length hs) 4) as [_|Hgt]; [|lia].
    destruct (reduce_spec hs Hne) as (fp & -> & Hfp). eauto.
  - intros Hgt. destruct (Nat.leb_spec (length hs) 4) as [Hle|_]; [lia|].
    destruct (slide_spec hs (length hs) 0 (-1) []) as (picks & H1 & H2 & H3);
      try done; try lia.
    exists picks. done.
Qed.

Lemma winnow_window_minima_witness :
  exists picks,
    length picks = 7%nat
    /\ (forall p fp, picks !! p = Some fp -> isWindowMin hashes10 p 4 fp)
    /\ winnow (indexed hashes10) WINDOW_SIZE = dedupAdjacent picks.
Proof.
  apply (winnow_window_minima hashes10); [discriminate | cbn; lia].
Defined.

End Winnowing.

(** ** Clone detection: the pair loops *)

Section CloneLoops.


Lemma innerLoop_spec (threshold : F64.float) (a : enriched)
    (others : list enriched) (st : loopState) :
  innerLoop threshold a others st
  = LoopState
      (fold_left (emit threshold)
         (fst (comparedWith a others (comparisons st))) (results st))
      (snd (comparedWith a others (comparisons st))).
Proof.
  revert st. induction others as [|b t IH]; intros st.
  - by destruct st.
  - cbn [innerLoop comparedWith].
    destruct (MAX_PAIRS <=? comparisons st)%N; [by destruct st|].
    destruct (negb (languagesAreCompatible (e_language a) (e_language b))).
    + apply IH.
    + assert (Hemit : forall m,
                emit threshold m (a, b)
                = let '(sim, overlap) := pairSimilarity a b in
                  if F64.geb sim threshold then
                    addClone
                      (addClone m a b sim
                         (option_map
                            (fun o => segmentsToLines b (o_segmentsB o))
                            overlap))
                      b a sim
                      (option_map
                         (fun o => segmentsToLines a (o_segmentsA o)) overlap)
                  else m).
      { intros m. unfold emit, similarityOf, rangeForA, rangeForB.
        cbn [fst snd]. by destruct (pairSimilarity a b). }
      destruct (comparedWith a t (comparisons st + 1)) as [ps n'] eqn:Hcw.
      cbn [fst snd fold_left]. rewrite Hemit.
      destruct (pairSimilarity a b) as [sim overlap].
      destruct (F64.geb sim threshold); rewrite IH; cbn [results comparisons];
        by rewrite Hcw.
Qed.

Lemma outerLoop_spec (threshold : F64.float) (symbols : list enriched)
    (st : loopState) :
  results (outerLoop threshold symbols st)
  = fold_left (emit threshold) (comparedFrom symbols (comparisons st))
      (results st).
Proof.
  revert st. induction symbols as [|a t IH]; intros st; [done|].
  cbn [outerLoop comparedFrom]. rewrite IH, innerLoop_spec.
  cbn [results comparisons].
  destruct (comparedWith a t (comparisons st)) as [ps n'].
  cbn [fst snd]. by rewrite fold_left_app.
Qed.

Lemma findSymbolClones_spec (rootPath : jsstring) (entries : list symbol)
    (threshold : F64.float) :
  findSymbolClones rootPath entries threshold
  = fold_left (emit threshold) (comparedPairs (prepare rootPath entries)) ∅.
Proof.
  unfold findSymbolClones, comparedPairs.
  destruct entries as [|s t]; [done|].
  destruct (prepare rootPath (s :: t)) as [|a l] eqn:Hp; [done|].
  by rewrite outerLoop_spec.
Qed.








Lemma prepare_app (rootPath : jsstring) (l1 l2 : list symbol) :
  prepare rootPath (l1 ++ l2) = prepare rootPath l1 ++ prepare rootPath l2.
Proof. unfold prepare. by rewrite List.filter_app, omap_app. Qed.

Lemma prepare_cons (rootPath : jsstring) (s : symbol) (l : list symbol) :
  prepare rootPath (s :: l)
  = (if isFunctionLike s
     then match enrichSymbol rootPath s with Some e => [e] | None => [] end
     else []) ++ prepare rootPath l.
Proof.
  unfold prepare. cbn [List.filter]. destruct (isFunctionLike s); [|done].
  cbn [omap list_omap]. by destruct (enrichSymbol rootPath s).
Qed.

Lemma enrichSymbol_id (rootPath : jsstring) (s : symbol) (e : enriched) :
  enrichSymbol rootPath s = Some e ->
  e_id e = sym_id s
  /\ e_tokens e = tokens (tokenizeWithMeta (sym_text s))
  /\ e_tokenCounts e = buildTokenCounts (e_tokens e)
  /\ e_tokenTotal e = length (e_tokens e)
  /\ (MIN_TOKENS <= length (e_tokens e))%nat.
Proof.
  unfold enrichSymbol.
  destruct (negb (JS.truthy (sym_text s)) || negb (JS.truthy (sym_id s)));
    [done|].
  destruct (Nat.ltb_spec (length (tokens (tokenizeWithMeta (sym_text s))))
              MIN_TOKENS) as [|Hge]; [done|].
  destruct (computeFingerprints _ _ _) as [[fps idx] hashes].
  intros [= <-]. cbn. done.
Qed.



End CloneLoops.

(** ** Clone detection: symmetry and the token threshold *)




(** C6: a function-like symbol with exactly five tokens is enriched and
    joins the symbols that are compared; one with four tokens or fewer
    is rejected, and the clones map is the one computed without it. *)
Theorem min_token_boundary (rootPath : jsstring) (s : symbol) :
  isFunctionLike s = true ->
  sym_id s <> [] ->
  let toks := tokens (tokenizeWithMeta (sym_text s)) in
  (length toks = 5%nat ->
     exists e,
       enrichSymbol rootPath s = Some e
       /\ e_id e = sym_id s
       /\ e_tokens e = toks
       /\ forall before after,
            e ∈ prepare rootPath (before ++ s :: after))
  /\ ((length toks <= 4)%nat ->
      enrichSymbol rootPath s = None
      /\ forall before after threshold,
           findSymbolClones rootPath (before ++ s :: after) threshold
           = findSymbolClones rootPath (before ++ after) threshold).
Proof.
  intros Hfl Hid toks. split.
  - intros Hlen.
    assert (Htext : sym_text s <> []).
    { intros Hnil. unfold toks in Hlen. rewrite Hnil in Hlen. done. }
    destruct (enrichSymbol rootPath s) as [e|] eqn:He.
    + destruct (enrichSymbol_id _ _ _ He) as (H1 & H2 & _).
      exists e. split; [done|]. split; [done|]. split; [done|].
      intros before after. rewrite prepare_app, prepare_cons, Hfl, He.
      apply elem_of_app. right. apply elem_of_cons. by left.
    + exfalso. unfold enrichSymbol in He.
      destruct (sym_text s); [done|]. destruct (sym_id s); [done|].
      cbn [JS.truthy negb orb] in He. fold toks in He.
      rewrite Hlen in He. cbn in He.
      by destruct (computeFingerprints _ _ _) as [[? ?] ?].
  - intros Hlen.
    assert (He : enrichSymbol rootPath s = None).
    { unfold enrichSymbol.
      destruct (negb (JS.truthy (sym_text s)) || negb (JS.truthy (sym_id s)));
        [done|].
      fold toks.
      by destruct (Nat.ltb_spec (length toks) MIN_TOKENS) as [|Hge];
        [|unfold MIN_TOKENS in Hge; lia]. }
    split; [done|]. intros before after threshold.
    rewrite !findSymbolClones_spec.
    by rewrite !prepare_app, prepare_cons, Hfl, He.
Qed.

Lemma min_token_boundary_witness :
  (exists e,
     enrichSymbol [] five1 = Some e
     /\ e_id e = sym_id five1
     /\ e_tokens e = tokens (tokenizeWithMeta (sym_text five1))
     /\ forall before after, e ∈ prepare [] (before ++ five1 :: after))
  /\ enrichSymbol [] four = None.
Proof.
  split.
  - apply (min_token_boundary [] five1);
      [vm_compute; reflexivity | discriminate | vm_compute; reflexivity].
  - apply (min_token_boundary [] four);
      [vm_compute; reflexivity | discriminate | vm_compute; lia].
Defined.

(** Two five-token functions are compared and reported as clones of
    each other, while the four-token function between them has no
    entry. *)
Example five_token_symbols_are_compared :
  let m := findSymbolClones [] [five1; four; five2] DEFAULT_THRESHOLD in
  hasEntry m (sym_id five1) (sym_id five2) (F64.ratio 4 5)
  /\ hasEntry m (sym_id five2) (sym_id five1) (F64.ratio 4 5)
  /\ m !! sym_id four = None.
Proof.
  split; [|split].
  - eexists. split; [eexists; split; [vm_compute; reflexivity|]|].
    + apply elem_of_cons. by left.
    + split; vm_compute; reflexivity.
  - eexists. split; [eexists; split; [vm_compute; reflexivity|]|].
    + apply elem_of_cons. by left.
    + split; vm_compute; reflexivity.
  - vm_compute. reflexivity.
Qed.

(** ** Clone detection: the similarity of a pair *)

Section OrderedMaps.

Context {K V : Type} `{EqDecision K}.

Lemma omap_get_set (m : list (K * V)) (k k' : K) (v : V) :
  OMap.get (OMap.set m k v) k'
  = if decide (k = k') then Some v else OMap.get m k'.
Proof.
  induction m as [|[k0 v0] t IH]; cbn.
  - by repeat case_decide.
  - destruct (decide (k0 = k)) as [->|Hne]; cbn.
    + by repeat case_decide.
    + rewrite IH. repeat case_decide; congruence.
Qed.

Lemma omap_get_keys (m : list (K * V)) (k : K) :
  OMap.get m k = None <-> k ∉ OMap.keys m.
Proof.
  unfold OMap.keys. induction m as [|[k0 v0] t IH]; cbn.
  - split; [intros _; apply not_elem_of_nil|done].
  - case_decide as Hk.
    + split; [done|]. intros Hn. destruct Hn. subst. apply elem_of_cons. by left.
    + rewrite IH, not_elem_of_cons. naive_solver.
Qed.

Lemma omap_keys_set (m : list (K * V)) (k : K) (v : V) :
  OMap.keys (OMap.set m k v)
  = if decide (k ∈ OMap.keys m) then OMap.keys m else OMap.keys m ++ [k].
Proof.
  unfold OMap.keys. induction m as [|[k0 v0] t IH]; cbn.
  - rewrite decide_False by apply not_elem_of_nil. done.
  - destruct (decide (k0 = k)) as [->|Hne]; cbn.
    + rewrite decide_True by (in_head). done.
    + rewrite IH. repeat case_decide; try done.
      * exfalso. set_solver.
      * exfalso. set_solver.
Qed.

Lemma omap_NoDup_get (m : list (K * V)) (k : K) (v : V) :
  NoDup (OMap.keys m) -> (k, v) ∈ m -> OMap.get m k = Some v.
Proof.
  unfold OMap.keys. induction m as [|[k0 v0] t IH]; cbn; intros Hnd Hin.
  - by apply elem_of_nil in Hin.
  - apply NoDup_cons in Hnd as [Hnot Hnd].
    apply elem_of_cons in Hin as [[= -> ->]|Hin].
    + by rewrite decide_True.
    + rewrite decide_False; [by apply IH|].
      intros ->. apply Hnot. apply list_elem_of_fmap. by exists (k, v).
Qed.

End OrderedMaps.

Section Dice.

Lemma count_snoc (t x : jsstring) (toks : list jsstring) :
  count t (toks ++ [x])
  = (count t toks + if decide (x = t) then 1 else 0)%nat.
Proof.
  unfold count. rewrite List.filter_app, length_app. cbn. unfold eqb.
  case_bool_decide; case_decide; cbn; congruence.
Qed.

Lemma count_zero (t : jsstring) (toks : list jsstring) :
  count t toks = 0%nat <-> t ∉ toks.
Proof.
  unfold count. induction toks as [|x l IH]; cbn.
  - split; [intros _; apply not_elem_of_nil|done].
  - unfold eqb at 1. case_bool_decide as Hx; cbn.
    + subst. split; [done|]. intros Hn. destruct Hn. apply elem_of_cons. by left.
    + rewrite IH, not_elem_of_cons. naive_solver.
Qed.

Lemma buildTokenCounts_snoc (toks : list jsstring) (x : jsstring) :
  buildTokenCounts (toks ++ [x])
  = OMap.set (buildTokenCounts toks) x
      (default 0%nat (OMap.get (buildTokenCounts toks) x) + 1)%nat.
Proof. unfold buildTokenCounts. by rewrite fold_left_app. Qed.

(** The counts map holds, for every token that occurs, how often it
    occurs. *)
Lemma buildTokenCounts_get (toks : list jsstring) (t : jsstring) :
  OMap.get (buildTokenCounts toks) t
  = if decide (count t toks = 0%nat) then None else Some (count t toks).
Proof.
  induction toks as [|x l IH] using rev_ind; [done|].
  rewrite buildTokenCounts_snoc, omap_get_set, count_snoc.
  destruct (decide (x = t)) as [->|Hne].
  - rewrite IH. case_decide as Hz.
    + rewrite Hz. cbn. by rewrite decide_False by lia.
    + cbn. rewrite decide_False by lia. done.
  - rewrite IH, Nat.add_0_r. done.
Qed.

Lemma buildTokenCounts_keys (toks : list jsstring) :
  NoDup (OMap.keys (buildTokenCounts toks))
  /\ forall t, t ∈ OMap.keys (buildTokenCounts toks) <-> t ∈ toks.
Proof.
  induction toks as [|x l [IH1 IH2]] using rev_ind.
  - split; [constructor|]. intros t. cbn. done.
  - rewrite buildTokenCounts_snoc, omap_keys_set. case_decide as Hin.
    + split; [done|]. intros t. rewrite IH2, elem_of_app, list_elem_of_singleton.
      apply IH2 in Hin. naive_solver.
    + split.
      * apply NoDup_app. split; [done|]. split; [|apply NoDup_singleton].
        intros y Hy Hy'. apply list_elem_of_singleton in Hy'. by subst.
      * intros t. rewrite !elem_of_app, IH2. done.
Qed.

Lemma fold_left_add {A : Type} (g : A -> nat) (l : list A) (acc : nat) :
  fold_left (fun acc x => (acc + g x)%nat) l acc
  = (acc + sum_list_with g l)%nat.
Proof.
  revert acc. induction l as [|x t IH]; intros acc; cbn; [lia|].
  rewrite IH. lia.
Qed.

Lemma sum_list_with_ext_in {A : Type} (g h : A -> nat) (l : list A) :
  (forall x, x ∈ l -> g x = h x) -> sum_list_with g l = sum_list_with h l.
Proof.
  induction l as [|x t IH]; intros H; cbn; [done|].
  rewrite H, IH; [done| |in_head].
  intros y Hy. apply H. apply elem_of_cons. by right.
Qed.

(** The intersection [diceCoefficient] accumulates is the multiset
    intersection of the two token sequences. *)
Lemma dice_intersection (A B : list jsstring) :
  fold_left
    (fun acc '(token, count) =>
       match OMap.get (buildTokenCounts B) token with
       | Some countB => (acc + Nat.min count countB)%nat
       | None => acc
       end) (buildTokenCounts A) 0%nat
  = multisetIntersection A B.
Proof.
  destruct (buildTokenCounts_keys A) as [Hnd Hkeys].
  transitivity
    (0 + sum_list_with
           (fun p : jsstring * nat =>
              Nat.min (count (fst p) A) (count (fst p) B))
           (buildTokenCounts A))%nat.
  - assert (Hpairs : forall p, p ∈ buildTokenCounts A ->
              snd p = count (fst p) A).
    { intros [t c] Hp. cbn.
      pose proof (omap_NoDup_get _ _ _ Hnd Hp) as Hg.
      rewrite buildTokenCounts_get in Hg. by case_decide; simplify_eq. }
    revert Hpairs. generalize (buildTokenCounts A). generalize 0%nat.
    intros acc l. revert acc. induction l as [|[t c] l IH]; intros acc Hp.
    + cbn. lia.
    + cbn [fold_left sum_list_with fst].
      assert (Hc : c = count t A).
      { apply (Hp (t, c)). apply elem_of_cons. by left. }
      rewrite buildTokenCounts_get. case_decide as Hz.
      * rewrite IH, Hz by (intros p Hin; apply Hp, elem_of_cons; by right).
        lia.
      * rewrite IH by (intros p Hin; apply Hp, elem_of_cons; by right).
        subst c. lia.
  - cbn [Nat.add]. unfold multisetIntersection.
    assert (Hmap : forall l : list (jsstring * nat),
              sum_list_with
                (fun p => Nat.min (count (fst p) A) (count (fst p) B)) l
              = sum_list_with (fun t => Nat.min (count t A) (count t B))
                  (OMap.keys l)).
    { induction l as [|p l IH]; cbn; [done|]. by rewrite IH. }
    rewrite Hmap.
    apply sum_list_with_Permutation_proper.
    apply NoDup_Permutation; [done|apply NoDup_remove_dups|].
    intros t. by rewrite Hkeys, elem_of_remove_dups.
Qed.

Lemma diceCoefficient_dice (A B : list jsstring) :
  A <> [] -> B <> [] ->
  diceCoefficient (buildTokenCounts A) (length A)
                  (buildTokenCounts B) (length B)
  = dice A B.
Proof.
  intros HA HB. unfold diceCoefficient, dice.
  destruct A as [|a A]; [done|]. destruct B as [|b B]; [done|].
  cbn [length Nat.eqb orb Nat.add]. by rewrite dice_intersection.
Qed.

End Dice.

Section Floats.

(** The threshold literal [0.55] is the double [0x1199999999999A * 2^-53]. *)
Example default_threshold_bits :
  DEFAULT_THRESHOLD = S754_finite false 0x1199999999999A (-53).
Proof. vm_compute. reflexivity. Qed.

(** [toFixed(2)] picks the integer number of hundredths nearest to the
    exact value [m * 2^-p] of the double, the larger one on a tie. *)
Lemma scaled_round_nearest (m p : positive) :
  let n := F64.scaled_round m (Zneg p) in
  (- 2 ^ Zpos p <= 200 * Zpos m - n * 2 ^ (Zpos p + 1) < 2 ^ Zpos p)%Z.
Proof.
  cbn zeta. unfold F64.scaled_round.
  assert (Hpos : (0 < 2 ^ Zpos p)%Z) by (apply Z.pow_pos_nonneg; lia).
  rewrite Z.pow_add_r by lia. change (2 ^ 1)%Z with 2%Z.
  pose proof (Z.div_mod (200 * Zpos m + 2 ^ Zpos p) (2 ^ Zpos p * 2)
                ltac:(lia)) as Hdm.
  pose proof (Z.mod_pos_bound (200 * Zpos m + 2 ^ Zpos p) (2 ^ Zpos p * 2)
                ltac:(lia)) as Hb.
  lia.
Qed.

(** The stored similarity of the 23/40 overlap: the double nearest to
    23/40 lies below 0.575 and is stored as 0.57. *)
Example toFixed2_23_40 : F64.toFixed2 (F64.ratio 23 40) = F64.ratio 57 100.
Proof. vm_compute. reflexivity. Qed.






End Floats.

Section Merging.

Lemma insertByStart_perm (s : segment) (l : list segment) :
  insertByStart s l ≡ₚ s :: l.
Proof.
  induction l as [|y t IH]; cbn; [done|].
  destruct (seg_start s <=? seg_start y)%nat; [done|].
  rewrite IH. apply Permutation_swap.
Qed.

Lemma sortByStart_perm (l : list segment) : sortByStart l ≡ₚ l.
Proof.
  induction l as [|x t IH]; cbn; [done|].
  change (insertByStart x (sortByStart t) ≡ₚ x :: t).
  by rewrite insertByStart_perm, IH.
Qed.

Lemma ascending_cons (x : segment) (l : list segment) :
  ascending (x :: l)
  <-> (forall y, y ∈ l -> (seg_start x <= seg_start y)%nat) /\ ascending l.
Proof.
  split.
  - intros H. split.
    + intros y Hy. apply list_elem_of_lookup in Hy as [j Hj].
      by apply (H 0%nat (S j) x y ltac:(lia)).
    + intros i j a b Hij Ha Hb. by apply (H (S i) (S j) a b ltac:(lia)).
  - intros [Hx Hl] i j a b Hij Ha Hb.
    destruct i as [|i], j as [|j]; cbn in Ha, Hb; simplify_eq; try lia.
    + apply Hx. by apply list_elem_of_lookup_2 in Hb.
    + by apply (Hl i j a b ltac:(lia)).
Qed.

Lemma insertByStart_ascending (s : segment) (l : list segment) :
  ascending l -> ascending (insertByStart s l).
Proof.
  induction l as [|y t IH]; cbn; intros Hasc.
  - apply ascending_cons. split; [|done]. intros y Hy. by apply elem_of_nil in Hy.
  - apply ascending_cons in Hasc as [Hy Ht].
    destruct (Nat.leb_spec (seg_start s) (seg_start y)) as [Hle|Hgt].
    + apply ascending_cons. split.
      * intros z Hz. apply elem_of_cons in Hz as [->|Hz]; [done|].
        specialize (Hy z Hz). lia.
      * apply ascending_cons. done.
    + apply ascending_cons. split; [|by apply IH].
      intros z Hz. rewrite insertByStart_perm in Hz.
      apply elem_of_cons in Hz as [->|Hz]; [lia|by apply Hy].
Qed.

Lemma sortByStart_ascending (l : list segment) : ascending (sortByStart l).
Proof.
  induction l as [|x t IH]; cbn.
  - intros i j a b _ Ha. by rewrite lookup_nil in Ha.
  - by apply insertByStart_ascending.
Qed.

Lemma covers_cons (x : segment) (l : list segment) (i : nat) :
  covers (x :: l) i
  <-> (seg_start x <= i <= seg_end x)%nat \/ covers l i.
Proof.
  unfold covers. split.
  - intros (seg & Hin & Hr). apply elem_of_cons in Hin as [->|Hin]; eauto.
  - intros [Hr|(seg & Hin & Hr)].
    + exists x. split; [in_head|done].
    + exists seg. split; [in_tail|done].
Qed.

(** The merging loop keeps the covered positions and leaves a gap
    between the segments it returns. *)
Lemma mergeLoop_spec (last : segment) (sorted : list segment) :
  ascending (last :: sorted) ->
  (forall i, covers (mergeLoop last sorted) i <-> covers (last :: sorted) i)
  /\ separated (mergeLoop last sorted)
  /\ exists e t, mergeLoop last sorted = Segment (seg_start last) e :: t.
Proof.
  revert last. induction sorted as [|current t IH]; intros last Hasc.
  - cbn. split; [done|]. split; [done|]. destruct last. eauto.
  - apply ascending_cons in Hasc as [Hlast Hasc].
    pose proof (Hlast current ltac:(in_head)) as Hlc.
    cbn [mergeLoop].
    destruct (Nat.leb_spec (seg_start current) (seg_end last + 1))
      as [Hle|Hgt].
    + destruct (IH (Segment (seg_start last)
                      (Nat.max (seg_end last) (seg_end current))))
        as (Hcov & Hsep & Hhead).
      { apply ascending_cons. apply ascending_cons in Hasc as [_ Hasc].
        split; [|done]. intros y Hy. cbn. apply Hlast. in_tail. }
      split; [|split; [done|]].
      * intros i. rewrite Hcov, !covers_cons. cbn. split.
        -- intros [Hr|Hc]; [|by right; right].
           destruct (decide (i <= seg_end last)%nat);
             [left; lia | right; left; lia].
        -- intros [Hr|[Hr|Hc]]; [left; lia | left; lia | by right].
      * destruct Hhead as (e & t' & ->). cbn. eauto.
    + destruct (IH (Segment (seg_start current) (seg_end current)))
        as (Hcov & Hsep & Hhead).
      { apply ascending_cons. apply ascending_cons in Hasc as [Hcur Hasc].
        split; [|done]. intros y Hy. cbn. by apply Hcur. }
      split; [|split].
      * intros i. rewrite covers_cons, Hcov, !covers_cons. cbn. done.
      * destruct Hhead as (e & t' & Heq). rewrite Heq in *. cbn.
        split; [lia|done].
      * destruct last. cbn. eauto.
Qed.

(** [mergeSegments] covers exactly the token positions of its input, by
    segments in ascending order that neither touch nor overlap. *)
Lemma mergeSegments_spec (segments : list segment) :
  (forall i, covers (mergeSegments segments) i <-> covers segments i)
  /\ separated (mergeSegments segments).
Proof.
  unfold mergeSegments.
  pose proof (sortByStart_perm segments) as Hperm.
  pose proof (sortByStart_ascending segments) as Hasc.
  assert (Hc : forall i, covers (sortByStart segments) i <-> covers segments i).
  { intros i. unfold covers. split; intros (seg & Hin & Hr); exists seg;
      (split; [|done]); [by rewrite <- Hperm|by rewrite Hperm]. }
  destruct (sortByStart segments) as [|first t].
  - split; [|done]. intros i. by rewrite <- Hc.
  - destruct (mergeLoop_spec first t Hasc) as (Hcov & Hsep & _).
    split; [|done]. intros i. by rewrite Hcov, Hc.
Qed.

End Merging.

Section PairSimilarity.

Lemma segmentTokens_sum (segments : list segment) :
  segmentTokens segments = sum_list_with segmentLength segments.
Proof.
  exact (fold_left_add segmentLength segments 0).
Qed.






End PairSimilarity.



(** * Further properties of the code *)

Import Notions.

(** ** The matcher *)

Section Matcher.

Lemma rmatch_star (g : bool) (a : regex) (k : cursor -> option cursor)
    (c : cursor) :
  rmatch (RStar g a) k c = starLoop g a k (S (length (rest c))) c.
Proof. reflexivity. Qed.

(** A successful match hands its continuation a position further down
    the subject. *)
Lemma rmatch_suffix (r : regex) :
  forall (k : cursor -> option cursor) (c e : cursor),
    rmatch r k c = Some e ->
    exists c', k c' = Some e /\ exists pre, rest c = pre ++ rest c'.
Proof.
  induction r as [x|p| |a IHa b IHb|a IHa b IHb|g a IHa|a IHa| |m|m];
    intros k c e H; try rewrite rmatch_star in H;
    try (cbn [rmatch] in H).
  - destruct (rest c) as [|y t] eqn:Hr; [done|].
    destruct (x =? y)%N; [|done]. eexists. split; [exact H|]. by exists [y].
  - destruct (rest c) as [|y t] eqn:Hr; [done|].
    destruct (p y); [|done]. eexists. split; [exact H|]. by exists [y].
  - exists c. split; [done|]. by exists [].
  - apply IHa in H as (c1 & H1 & pre1 & Hp1).
    apply IHb in H1 as (c2 & H2 & pre2 & Hp2).
    exists c2. split; [done|]. exists (pre1 ++ pre2).
    by rewrite Hp1, Hp2, app_assoc.
  - destruct (rmatch a k c) as [e'|] eqn:Ha.
    + injection H as ->. by apply IHa in Ha.
    + by apply IHb in H.
  - revert H. generalize (S (length (rest c))). intros fuel. revert c e.
    induction fuel as [|fuel IHf]; intros c e H.
    + exists c. split; [done|]. by exists [].
    + cbn [starLoop] in H. cbn zeta in H.
      assert (Hagain : forall e',
                rmatch a
                  (fun c' =>
                     if (length (rest c') <? length (rest c))%nat
                     then starLoop g a k fuel c' else None) c = Some e' ->
                exists c', k c' = Some e'
                           /\ exists pre, rest c = pre ++ rest c').
      { intros e' He'. apply IHa in He' as (c1 & H1 & pre1 & Hp1).
        destruct (length (rest c1) <? length (rest c))%nat; [|done].
        apply IHf in H1 as (c2 & H2 & pre2 & Hp2).
        exists c2. split; [done|]. exists (pre1 ++ pre2).
        by rewrite Hp1, Hp2, app_assoc. }
      destruct g.
      * destruct (rmatch a _ c) as [e'|] eqn:Ha.
        -- injection H as ->. by apply Hagain.
        -- exists c. split; [done|]. by exists [].
      * destruct (k c) as [e'|] eqn:Hk.
        -- injection H as ->. exists c. split; [done|]. by exists [].
        -- by apply Hagain.
  - apply IHa in H as (c1 & H1 & pre1 & Hp1).
    eexists. split; [exact H1|]. by exists pre1.
  - destruct (xorb _ _); [|done]. exists c. split; [done|]. by exists [].
  - destruct (prev c) as [x|].
    + destruct (m && is_line_terminator x); [|done].
      exists c. split; [done|]. by exists [].
    + exists c. split; [done|]. by exists [].
  - destruct (rest c) as [|x t] eqn:Hr.
    + exists c. split; [done|]. exists []. by rewrite Hr.
    + destruct (m && is_line_terminator x); [|done].
      exists c. split; [done|]. exists []. by rewrite Hr.
Qed.

(** The text of a match is what lies between its start and its end. *)
Lemma rmatch_consumed (r : regex) (c e : cursor) :
  rmatch r Some c = Some e -> rest c = consumed c e ++ rest e.
Proof.
  intros H. apply rmatch_suffix in H as (c' & [= ->] & pre & Hp).
  unfold consumed. rewrite Hp at 2 3. rewrite length_app.
  replace (length pre + length (rest e) - length (rest e))%nat
    with (length pre) by lia.
  by rewrite take_app_length.
Qed.

Lemma search_spec (r : regex) (p : option N) (s : jsstring) (off : nat)
    (m : rmatch_result) :
  search r p s off = Some m ->
  exists i,
    m_index m = (off + i)%nat
    /\ skipn i s = m_text m ++ rest (m_after m)
    /\ (i <= length s)%nat.
Proof.
  revert p off. induction s as [|x t IH]; intros p off; cbn [search].
  - destruct (rmatch r Some _) as [e|] eqn:He; [|done].
    intros [= <-]. exists 0%nat. cbn [m_index m_text m_after].
    split; [lia|]. split; [|done]. by apply rmatch_consumed in He.
  - destruct (rmatch r Some _) as [e|] eqn:He.
    + intros [= <-]. exists 0%nat. cbn [m_index m_text m_after].
      split; [lia|]. split; [|lia]. by apply rmatch_consumed in He.
    + intros H. apply IH in H as (i & Hi & Hd & Hl).
      exists (S i). split; [lia|]. split; [done|]. cbn. lia.
Qed.

Lemma fits_shift (ms : list rmatch_result) (x : N) (t : jsstring)
    (off : nat) :
  fits ms t (S off) -> fits ms (x :: t) off.
Proof.
  destruct ms as [|m ms]; [done|]. cbn [fits].
  intros (i & Hi & Ht & Hl & Hf). exists (S i).
  split; [lia|]. split; [done|]. split; [cbn; lia|].
  replace (off + S i + length (m_text m))%nat
    with (S off + i + length (m_text m))%nat by lia.
  exact Hf.
Qed.

(** The matches of a global search lie in the subject, in order and
    without overlap. *)
Lemma matches_from_fits (r : regex) (fuel : nat) :
  forall (p : option N) (s : jsstring) (off : nat),
    fits (matches_from fuel r p s off) s off.
Proof.
  induction fuel as [|fuel IH]; intros p s off; cbn [matches_from]; [done|].
  destruct (search r p s off) as [m|] eqn:Hs; [|done].
  apply search_spec in Hs as (i & Hi & Hd & Hl).
  assert (Hlen : (i + length (m_text m) <= length s)%nat).
  { apply (f_equal length) in Hd. rewrite length_drop, length_app in Hd. lia. }
  cbn [fits]. exists i. split; [done|]. split.
  { rewrite Hd. by rewrite take_app_length. }
  split; [done|].
  assert (Hrest : skipn (i + length (m_text m)) s = rest (m_after m)).
  { change (@skipn N) with (@drop N) in *.
    rewrite <- drop_drop, Hd. by rewrite drop_app_length. }
  destruct (m_text m) as [|y ty] eqn:Ht.
  - destruct (rest (m_after m)) as [|x t] eqn:Hr; [done|].
    cbn [length] in *. rewrite Hrest. apply fits_shift.
    replace (S (off + i + 0)) with (S (m_index m + 0)) by lia.
    apply IH.
  - rewrite Hrest. replace (off + i + length (y :: ty))%nat
      with (m_index m + length (y :: ty))%nat by lia.
    apply IH.
Qed.

Lemma fits_elem (ms : list rmatch_result) (s : jsstring) (off : nat)
    (m : rmatch_result) :
  fits ms s off -> m ∈ ms ->
  (off <= m_index m)%nat
  /\ firstn (length (m_text m)) (skipn (m_index m - off) s) = m_text m
  /\ (m_index m - off + length (m_text m) <= length s)%nat.
Proof.
  revert s off. induction ms as [|m0 ms IH]; intros s off Hf Hin.
  - by apply elem_of_nil in Hin.
  - cbn [fits] in Hf. destruct Hf as (i & Hi & Ht & Hl & Hf).
    apply elem_of_cons in Hin as [->|Hin].
    + replace (m_index m0 - off)%nat with i by lia. split; [lia|done].
    + destruct (IH _ _ Hf Hin) as (H1 & H2 & H3).
      rewrite length_drop in H3. change skipn with (@drop N) in *.
      rewrite drop_drop in H2. split; [lia|].
      replace (m_index m - off)%nat
        with (i + length (m_text m0)
              + (m_index m - (off + i + length (m_text m0))))%nat by lia.
      split; [done|lia].
Qed.

(** Replacing every match by a text related to it unit by unit gives a
    text related to the subject unit by unit. *)
Lemma replace_with_related (R : N -> N -> Prop) (f : jsstring -> jsstring) :
  (forall x, R x x) -> (forall t, Forall2 R t (f t)) ->
  forall ms s off, fits ms s off -> Forall2 R s (replace_with f ms s off).
Proof.
  intros Hrefl Hf.
  assert (Hid : forall s, Forall2 R s s).
  { induction s; by constructor. }
  induction ms as [|m ms IH]; intros s off Hfit; cbn [replace_with]; [done|].
  cbn [fits] in Hfit. destruct Hfit as (i & Hi & Ht & Hl & Hfit).
  replace (m_index m - off)%nat with i by lia.
  rewrite <- (take_drop i s) at 1.
  apply Forall2_app; [apply Hid|].
  rewrite <- (take_drop (length (m_text m)) (drop i s)).
  change (@firstn N) with (@take N) in Ht.
  change (@skipn N) with (@drop N) in *. rewrite Ht.
  apply Forall2_app; [apply Hf|].
  rewrite drop_drop. replace (m_index m + length (m_text m))%nat
    with (off + i + length (m_text m))%nat by lia.
  by apply IH.
Qed.

End Matcher.

(** ** Comment stripping and tokens *)

Section Stripping.

Lemma blank_related (t : jsstring) : Forall2 keptOrBlank t (blank t).
Proof.
  induction t as [|c t IH]; cbn; constructor; [|exact IH].
  destruct (N.eqb_spec c 10) as [->|Hc]; [by left|by right].
Qed.

Lemma replace_blank_related (r : regex) (s : jsstring) :
  Forall2 keptOrBlank s (replace r blank s).
Proof.
  apply replace_with_related;
    [by left | apply blank_related | apply matches_from_fits].
Qed.

Lemma keptOrBlank_trans (s t u : jsstring) :
  Forall2 keptOrBlank s t -> Forall2 keptOrBlank t u ->
  Forall2 keptOrBlank s u.
Proof.
  intros Hst. revert u. induction Hst as [|a b s t Hab _ IH]; intros u Htu.
  - by apply Forall2_nil_inv_l in Htu as ->.
  - apply Forall2_cons_inv_l in Htu as (c & u' & Hbc & Htu & ->).
    constructor; [|by apply IH]. unfold keptOrBlank in *. naive_solver.
Qed.

Lemma lineStarts_related (s t : jsstring) (pos : nat) :
  Forall2 keptOrBlank s t -> lineStarts t pos = lineStarts s pos.
Proof.
  intros H. revert pos. induction H as [|a b s t Hab _ IH]; intros pos;
    [done|]. cbn [lineStarts]. rewrite IH.
  destruct Hab as [->|[-> Ha]]; [done|].
  apply N.eqb_neq in Ha. by rewrite Ha.
Qed.

Lemma strip_comments_related (text : jsstring) :
  Forall2 keptOrBlank text (stripCommentsPreserveLayout text).
Proof.
  unfold stripCommentsPreserveLayout.
  eapply keptOrBlank_trans; apply replace_blank_related.
Qed.

Lemma strip_comments_layout_length (text : jsstring) :
  length (stripCommentsPreserveLayout text) = length text.
Proof. symmetry. eapply Forall2_length, strip_comments_related. Qed.

(** Stripping comments keeps the layout: every code unit of the result
    is the original one or a space put in place of a unit other than a
    line feed; so the result has the length of the text, and its line
    offsets are those of the text. *)
Theorem strip_comments_keeps_layout (text : jsstring) :
  Forall2 keptOrBlank text (stripCommentsPreserveLayout text)
  /\ length (stripCommentsPreserveLayout text) = length text
  /\ CloneDetector.buildLineOffsets (stripCommentsPreserveLayout text)
     = CloneDetector.buildLineOffsets text.
Proof.
  split; [apply strip_comments_related|]. split.
  - apply strip_comments_layout_length.
  - unfold CloneDetector.buildLineOffsets. f_equal.
    apply lineStarts_related, strip_comments_related.
Qed.

End Stripping.

Section Tokens.

Lemma consumed_app (c e : cursor) (pre : jsstring) :
  rest c = pre ++ rest e -> consumed c e = pre.
Proof.
  intros Hp. unfold consumed. rewrite Hp, length_app.
  replace (length pre + length (rest e) - length (rest e))%nat
    with (length pre) by lia.
  by rewrite take_app_length.
Qed.

(** A starred class consumes units of the class only. *)
Lemma starLoop_class (g : bool) (p : N -> bool)
    (k : cursor -> option cursor) (fuel : nat) :
  forall c e, starLoop g (RClass p) k fuel c = Some e ->
    exists c' pre, k c' = Some e /\ rest c = pre ++ rest c'
                   /\ Forall (fun x => p x = true) pre.
Proof.
  induction fuel as [|fuel IH]; intros c e H.
  - exists c, []. by repeat split.
  - cbn [starLoop rmatch] in H. cbn zeta in H.
    assert (Hagain : forall e',
      match rest c with
      | [] => None
      | y :: t =>
          if p y
          then (fun c' =>
                  if (length (rest c') <? length (rest c))%nat
                  then starLoop g (RClass p) k fuel c' else None)
                 (Cursor (Some y) t (cap c))
          else None
      end = Some e' ->
      exists c' pre, k c' = Some e' /\ rest c = pre ++ rest c'
                     /\ Forall (fun x => p x = true) pre).
    { intros e' He'. destruct (rest c) as [|y t] eqn:Hr; [done|].
      destruct (p y) eqn:Hp; [|done]. cbn beta in He'.
      destruct (_ <? _)%nat; [|done].
      apply IH in He' as (c' & pre & Hk & Hpre & Hall).
      exists c', (y :: pre). cbn [rest] in Hpre. rewrite Hpre.
      split; [done|]. split; [done|]. by constructor. }
    destruct g.
    + destruct (match rest c with [] => None | _ => _ end) as [e'|] eqn:Ha.
      * injection H as ->. by apply Hagain.
      * exists c, []. by repeat split.
    + destruct (k c) as [e'|] eqn:Hk.
      * injection H as ->. exists c, []. by repeat split.
      * by apply Hagain.
Qed.

(** A token match is a non-empty run of word units. *)
Lemma tokenRegex_consumed (c e : cursor) :
  rmatch tokenRegex Some c = Some e ->
  consumed c e <> [] /\ Forall (fun x => is_word x = true) (consumed c e).
Proof.
  unfold tokenRegex, plus, word. cbn [rmatch]. intros H.
  destruct (rest c) as [|y t] eqn:Hr; [done|].
  destruct (is_word y) eqn:Hy; [|done].
  change (starLoop true (RClass is_word) Some (S (length t))
            (Cursor (Some y) t (cap c)) = Some e) in H.
  apply starLoop_class in H as (c' & pre & [= ->] & Hpre & Hall).
  cbn [rest] in Hpre.
  rewrite (consumed_app c e (y :: pre)) by (by rewrite Hr, Hpre).
  split; [done|]. by constructor.
Qed.

Lemma search_text (r : regex) (P : jsstring -> Prop) :
  (forall c e, rmatch r Some c = Some e -> P (consumed c e)) ->
  forall s p off m, search r p s off = Some m -> P (m_text m).
Proof.
  intros HP. induction s as [|x t IH]; intros p off m; cbn [search].
  - destruct (rmatch r Some _) as [e|] eqn:He; [|done].
    intros [= <-]. by apply HP.
  - destruct (rmatch r Some _) as [e|] eqn:He.
    + intros [= <-]. by apply HP.
    + apply IH.
Qed.

Lemma matches_from_text (r : regex) (P : jsstring -> Prop) :
  (forall c e, rmatch r Some c = Some e -> P (consumed c e)) ->
  forall fuel p s off, Forall (fun m => P (m_text m))
                         (matches_from fuel r p s off).
Proof.
  intros HP. induction fuel as [|fuel IH]; intros p s off;
    cbn [matches_from]; [constructor|].
  destruct (search r p s off) as [m|] eqn:Hs; [|constructor].
  constructor; [by eapply search_text|].
  destruct (m_text m); [destruct (rest (m_after m))|];
    [constructor|apply IH..].
Qed.

Lemma lower_word_unit (x : N) : is_word x = true -> isTokenUnit (lower_char x) = true.
Proof.
  unfold is_word, isTokenUnit, lower_char, is_upper, is_lower, is_digit,
    in_range. intros H.
  destruct (65 <=? x)%N eqn:H1, (x <=? 90)%N eqn:H2; cbn [andb] in *;
    try exact H.
  apply N.leb_le in H1, H2.
  assert ((97 <=? x + 32)%N = true) as -> by (apply N.leb_le; lia).
  assert ((x + 32 <=? 122)%N = true) as -> by (apply N.leb_le; lia).
  done.
Qed.

(** What the [exec] loop records for the matches it is given. *)
Lemma tokenLoop_spec (ms : list rmatch_result) :
  forall count t o n, (t, o, n) ∈ tokenLoop ms count ->
    exists m, m ∈ ms /\ t = toLowerCase (m_text m) /\ o = m_index m
              /\ n = length (m_text m) /\ t <> str "_".
Proof.
  induction ms as [|m ms IH]; intros count t o n Hin; cbn [tokenLoop] in Hin.
  - by apply elem_of_nil in Hin.
  - destruct (negb _ || test loneUnderscore _) eqn:Hskip.
    + apply IH in Hin as (m' & Hm' & H'). exists m'. split; [in_tail|done].
    + apply elem_of_cons in Hin as [[= -> -> ->]|Hin].
      * exists m. split; [in_head|]. repeat split; try done.
        intros Heq. rewrite Heq in Hskip. by vm_compute in Hskip.
      * destruct (5000 <=? S count)%nat; [by apply elem_of_nil in Hin|].
        apply IH in Hin as (m' & Hm' & H'). exists m'. split; [in_tail|done].
Qed.

Lemma tokenLoop_length (ms : list rmatch_result) :
  forall count, (count < 5000)%nat ->
    (count + length (tokenLoop ms count) <= 5000)%nat.
Proof.
  induction ms as [|m ms IH]; intros count Hc; cbn [tokenLoop length];
    [lia|].
  destruct (negb _ || test loneUnderscore _); [by apply IH|].
  cbn [length]. destruct (5000 <=? S count)%nat eqn:Hcap.
  - apply Nat.leb_le in Hcap. cbn [length]. lia.
  - apply Nat.leb_gt in Hcap. specialize (IH (S count)). lia.
Qed.

(** The tokenizer returns three aligned arrays of at most 5000 entries.
    Every token is the lowercased text of a non-empty run of word units
    of the comment-stripped text, found at the recorded offset with the
    recorded length inside the text; it consists of lowercase letters,
    digits and underscores, and is not a lone underscore. *)
Theorem tokenizeWithMeta_tokens (text : jsstring) :
  let tm := tokenizeWithMeta text in
  length (offsets tm) = length (tokens tm)
  /\ length (lengths tm) = length (tokens tm)
  /\ (length (tokens tm) <= 5000)%nat
  /\ forall i t, tokens tm !! i = Some t ->
       exists o n,
         offsets tm !! i = Some o /\ lengths tm !! i = Some n
         /\ n = length t /\ (0 < n)%nat /\ (o + n <= length text)%nat
         /\ t = toLowerCase
                  (take n (drop o (stripCommentsPreserveLayout text)))
         /\ forallb isTokenUnit t = true
         /\ t <> str "_".
Proof.
  unfold tokenizeWithMeta. destruct (negb (JS.truthy text)).
  { cbn. repeat split; try lia. intros i t Hi. by rewrite lookup_nil in Hi. }
  set (sanitized := stripCommentsPreserveLayout text).
  set (found := tokenLoop (matches tokenRegex sanitized) 0).
  cbn [tokens offsets lengths]. rewrite !length_map.
  split; [done|]. split; [done|]. split.
  { apply (tokenLoop_length (matches tokenRegex sanitized) 0). lia. }
  intros i t Hi. change (@List.map) with (@fmap list _) in *.
  rewrite list_lookup_fmap in Hi.
  destruct (found !! i) as [[[t' o] n]|] eqn:Hf; [|done].
  injection Hi as <-. exists o, n. rewrite !list_lookup_fmap, Hf.
  cbn [fst snd fmap option_fmap option_map]. split; [done|]. split; [done|].
  assert (Hin : (t', o, n) ∈ found) by (by eapply list_elem_of_lookup_2).
  apply tokenLoop_spec in Hin as (m & Hm & -> & -> & -> & Hnot).
  pose proof (matches_from_fits tokenRegex (S (length sanitized)) None
                sanitized 0) as Hfit.
  destruct (fits_elem _ _ _ _ Hfit Hm) as (_ & Hslice & Hlen).
  rewrite Nat.sub_0_r in Hslice, Hlen.
  pose proof (matches_from_text tokenRegex
                (fun t => t <> [] /\ Forall (fun x => is_word x = true) t)
                tokenRegex_consumed
                (S (length sanitized)) None sanitized 0) as Hall.
  rewrite Forall_forall in Hall. destruct (Hall m Hm) as [Hne Hword].
  unfold toLowerCase. rewrite length_map.
  split; [done|]. split.
  { destruct (m_text m); [done|cbn; lia]. }
  split.
  { pose proof (strip_comments_layout_length text) as Hl.
    fold sanitized in Hl. lia. }
  split.
  { change (@firstn N) with (@take N) in Hslice.
    change (@skipn N) with (@drop N) in Hslice. by rewrite Hslice. }
  split; [|done].
  apply forallb_forall. intros x Hx. apply in_map_iff in Hx as (y & <- & Hy).
  apply lower_word_unit. rewrite Forall_forall in Hword.
  apply Hword. by apply list_elem_of_In.
Qed.

End Tokens.

(** ** Fingerprints of shared token runs *)

Section WinnowGuarantee.

Lemma elem_of_dedupAdjacent (l : list fingerprint) (x : fingerprint) :
  x ∈ l -> x ∈ dedupAdjacent l.
Proof.
  induction l as [|a t IH]; intros Hin; [done|].
  destruct t as [|b t]; [done|].
  change (x ∈ if decide (a = b) then dedupAdjacent (b :: t)
              else a :: dedupAdjacent (b :: t)).
  apply elem_of_cons in Hin as [->|Hin]; destruct (decide (a = b)) as [->|Hab].
  - apply IH. in_head.
  - in_head.
  - by apply IH.
  - apply elem_of_cons. right. by apply IH.
Qed.

(** Every window of four hashes has its minimum among the fingerprints. *)
Lemma winnow_covers_windows (hs : list N) (p : nat) :
  (p + 4 <= length hs)%nat ->
  exists fp, fp ∈ winnow (indexed hs) WINDOW_SIZE /\ isWindowMin hs p 4 fp.
Proof.
  intros Hp.
  assert (Hw : winnow (indexed hs) WINDOW_SIZE
               = if (length hs <=? 4)%nat then
                   match fold_left
                           (fun best current =>
                              match best with
                              | None => Some current
                              | Some b =>
                                  if beats current b then Some current
                                  else Some b
                              end) (indexed hs) None with
                   | Some min => [min]
                   | None => []
                   end
                 else slide (length hs) (indexed hs) 0 3 (-1) []).
  { unfold winnow, WINDOW_SIZE. rewrite indexed_length.
    destruct hs as [|h hs]; [cbn in Hp; lia|]. reflexivity. }
  rewrite Hw. destruct (Nat.leb_spec (length hs) 4) as [Hle|Hgt].
  - assert (Hne : hs <> []) by (intros ->; cbn in Hp; lia).
    destruct (reduce_spec hs Hne) as (fp & -> & Hfp).
    exists fp. split; [in_head|].
    replace p with 0%nat by lia. by replace 4%nat with (length hs) by lia.
  - destruct (slide_spec hs (length hs) 0 (-1) []) as (picks & H1 & H2 & H3);
      try done; try lia.
    change (dedupAdjacent []) with (@nil fingerprint) in H3.
    change (0 + 3)%nat with 3%nat in H3. rewrite H3.
    destruct (lookup_lt_is_Some_2 picks p) as [fp Hfp]; [lia|].
    exists fp. split; [|by apply H2].
    apply elem_of_dedupAdjacent. by eapply list_elem_of_lookup_2.
Qed.

(** The keys of the fingerprint index are the hashes of the
    fingerprints. *)
Lemma indexFingerprints_keys (fps : list fingerprint) (h : N) :
  h ∈ OMap.keys (indexFingerprints fps) <-> exists fp, fp ∈ fps /\ fp_hash fp = h.
Proof.
  unfold indexFingerprints.
  induction fps as [|fp fps IH] using rev_ind.
  - cbn. split; [by intros ?%elem_of_nil|]. by intros (fp & ?%elem_of_nil & _).
  - rewrite fold_left_app. cbn [fold_left].
    set (index := fold_left _ fps []) in *.
    assert (Hkeys : forall index' : list (N * list nat),
              h ∈ OMap.keys index' <-> h ∈ OMap.keys index \/ h = fp_hash fp ->
              forall v, h ∈ OMap.keys (OMap.set index' (fp_hash fp) v)
                        <-> h ∈ OMap.keys index \/ h = fp_hash fp).
    { intros index' H' v. rewrite omap_keys_set. case_decide as Hin.
      - done.
      - rewrite elem_of_app, list_elem_of_singleton, H'. tauto. }
    assert (Hstep : h ∈ OMap.keys
                      (if OMap.has index (fp_hash fp) then index
                       else OMap.set index (fp_hash fp) [])
                    <-> h ∈ OMap.keys index \/ h = fp_hash fp).
    { unfold OMap.has. destruct (OMap.get index (fp_hash fp)) eqn:Hget.
      - split; [tauto|]. intros [?| ->]; [done|].
        destruct (decide (fp_hash fp ∈ OMap.keys index)) as [|Hn]; [done|].
        apply omap_get_keys in Hn. congruence.
      - rewrite omap_keys_set. apply omap_get_keys in Hget.
        case_decide; [done|].
        rewrite elem_of_app, list_elem_of_singleton. tauto. }
    cbn zeta.
    assert (Hall : h ∈ OMap.keys index \/ h = fp_hash fp
                   <-> exists fp', fp' ∈ fps ++ [fp] /\ fp_hash fp' = h).
    { rewrite IH. split.
      - intros [(fp' & Hin & Heq)| ->].
        + exists fp'. split; [|done]. apply elem_of_app. by left.
        + exists fp. split; [|done]. apply elem_of_app. right. in_head.
      - intros (fp' & [Hin|Hin]%elem_of_app & Heq).
        + left. by exists fp'.
        + apply list_elem_of_singleton in Hin as ->. by right. }
    rewrite <- Hall. destruct (_ <? 64)%nat.
    + by apply Hkeys.
    + exact Hstep.
Qed.

Lemma hasSharedFingerprints_true (a b : enriched) :
  hasSharedFingerprints a b = true
  <-> exists h, h ∈ e_fingerprintHashes a /\ h ∈ e_fingerprintHashes b.
Proof.
  unfold hasSharedFingerprints.
  destruct (_ <=? _)%nat; rewrite existsb_exists;
    split; intros (h & H1 & H2); exists h;
    rewrite ?mem_elem_of, <- ?list_elem_of_In in *; try done;
    rewrite ?list_elem_of_In in *; try done.
Qed.

(** What [enrichSymbol] puts in the fields of a symbol it keeps. *)
Lemma enrichSymbol_fields (rootPath : jsstring) (s : symbol) (a : enriched) :
  enrichSymbol rootPath s = Some a ->
  sym_text s <> [] /\ e_id a = sym_id s
  /\ e_tokens a = tokens (tokenizeWithMeta (sym_text s))
  /\ e_tokenOffsets a = offsets (tokenizeWithMeta (sym_text s))
  /\ e_tokenLengths a = lengths (tokenizeWithMeta (sym_text s))
  /\ e_lineOffsets a = CloneDetector.buildLineOffsets (sym_text s)
  /\ (MIN_TOKENS <= length (e_tokens a))%nat
  /\ (e_fingerprints a, e_fingerprintIndex a, e_fingerprintHashes a)
     = computeFingerprints (e_tokens a) SHINGLE_SIZE WINDOW_SIZE
  /\ e_tokenCounts a = buildTokenCounts (e_tokens a)
  /\ e_tokenTotal a = length (e_tokens a)
  /\ e_startLine a = sym_startLine s /\ e_endLine a = sym_endLine s.
Proof.
  unfold enrichSymbol.
  destruct (negb (JS.truthy (sym_text s)) || negb (JS.truthy (sym_id s)))
    eqn:Hguard; [done|].
  destruct (Nat.ltb_spec (length (tokens (tokenizeWithMeta (sym_text s))))
              MIN_TOKENS) as [|Hmin]; [done|].
  destruct (computeFingerprints _ _ _) as [[fps idx] hashes] eqn:Hc.
  intros [= <-].
  cbn [e_id e_tokens e_tokenOffsets e_tokenLengths e_lineOffsets
       e_fingerprints e_fingerprintIndex e_fingerprintHashes e_tokenCounts
       e_tokenTotal e_startLine e_endLine].
  rewrite Hc. repeat split; try done.
  intros Hnil. by rewrite Hnil in Hguard.
Qed.

Lemma hashShingle_slice (A B : list jsstring) (i j d : nat) :
  take guaranteeLength (drop i A) = take guaranteeLength (drop j B) ->
  (d < WINDOW_SIZE)%nat ->
  hashShingle A (i + d) SHINGLE_SIZE = hashShingle B (j + d) SHINGLE_SIZE.
Proof.
  intros Heq Hd. unfold hashShingle. f_equal.
  change (@firstn) with (@take). change (@skipn) with (@drop).
  assert (H : forall (l : list jsstring) k,
            take SHINGLE_SIZE (drop (k + d) l)
            = take SHINGLE_SIZE (drop d (take guaranteeLength (drop k l)))).
  { intros l k. rewrite <- drop_drop, skipn_firstn_comm, take_take.
    f_equal. unfold SHINGLE_SIZE, guaranteeLength, WINDOW_SIZE, SHINGLE_SIZE in *.
    lia. }
  by rewrite !H, Heq.
Qed.

End WinnowGuarantee.

Section SharedRuns.

Lemma computeFingerprints_hashes (toks : list jsstring) (h : N) :
  (SHINGLE_SIZE <= length toks)%nat ->
  h ∈ (computeFingerprints toks SHINGLE_SIZE WINDOW_SIZE).2
  <-> exists fp, fp ∈ winnow (shingleHashes toks SHINGLE_SIZE) WINDOW_SIZE
                 /\ fp_hash fp = h.
Proof.
  intros Hlen. unfold computeFingerprints.
  destruct (Nat.ltb_spec (length toks) SHINGLE_SIZE) as [|_]; [lia|].
  cbn [snd]. apply indexFingerprints_keys.
Qed.

(** The smallest hash of the window of shingles that starts at token
    [i] is among the fingerprint hashes. *)
Lemma window_minimum_selected (toks : list jsstring) (i : nat) :
  (i + guaranteeLength <= length toks)%nat ->
  exists h d,
    h ∈ (computeFingerprints toks SHINGLE_SIZE WINDOW_SIZE).2
    /\ (d < WINDOW_SIZE)%nat
    /\ h = hashShingle toks (i + d) SHINGLE_SIZE
    /\ forall d', (d' < WINDOW_SIZE)%nat ->
         (h <= hashShingle toks (i + d') SHINGLE_SIZE)%N.
Proof.
  unfold guaranteeLength, SHINGLE_SIZE, WINDOW_SIZE. intros Hi.
  set (hs := List.map (fun i => hashShingle toks i 3)
               (seq 0 (S (length toks - 3)))).
  assert (Hlen : length hs = S (length toks - 3))
    by (unfold hs; by rewrite length_map, length_seq).
  assert (Hlook : forall p, (p < length hs)%nat ->
            hs !! p = Some (hashShingle toks p 3)).
  { intros p Hp. unfold hs. change (@List.map) with (@fmap list _).
    rewrite list_lookup_fmap, lookup_seq_lt by lia. done. }
  destruct (winnow_covers_windows hs i) as (fp & Hin & Hr & Hat & Hmin);
    [lia|].
  exists (fp_hash fp), (fp_index fp - i)%nat.
  split.
  { apply computeFingerprints_hashes; [unfold SHINGLE_SIZE; lia|].
    exists fp. split; [|done]. by rewrite shingleHashes_indexed. }
  split; [lia|]. split.
  { rewrite Hlook in Hat by lia. injection Hat as <-. f_equal. lia. }
  intros d' Hd'.
  destruct (Hmin (i + d')%nat (hashShingle toks (i + d') 3)) as [?|[? _]];
    [lia | apply Hlook; lia | lia | lia].
Qed.

(** Winnowing cannot miss a shared run: two kept symbols whose token
    sequences have six consecutive tokens in common share a fingerprint
    hash, so the pair goes through the segment comparison. *)
Theorem shared_run_shares_fingerprint (rootPath : jsstring) (s t : symbol)
    (a b : enriched) (i j : nat) :
  enrichSymbol rootPath s = Some a ->
  enrichSymbol rootPath t = Some b ->
  (i + guaranteeLength <= length (e_tokens a))%nat ->
  (j + guaranteeLength <= length (e_tokens b))%nat ->
  take guaranteeLength (drop i (e_tokens a))
  = take guaranteeLength (drop j (e_tokens b)) ->
  hasSharedFingerprints a b = true.
Proof.
  intros Ha Hb Hi Hj Heq.
  apply enrichSymbol_fields in Ha as (_ & _ & _ & _ & _ & _ & _ & Ha & _).
  apply enrichSymbol_fields in Hb as (_ & _ & _ & _ & _ & _ & _ & Hb & _).
  apply (f_equal snd) in Ha, Hb. cbn [snd] in Ha, Hb.
  apply hasSharedFingerprints_true. rewrite Ha, Hb.
  destruct (window_minimum_selected _ _ Hi) as (h & d & Hin & Hd & Hh & Hmin).
  destruct (window_minimum_selected _ _ Hj)
    as (h' & d' & Hin' & Hd' & Hh' & Hmin').
  exists h. split; [done|].
  assert (h = h') as ->; [|done].
  pose proof (Hmin d' Hd') as H1. pose proof (Hmin' d Hd) as H2.
  rewrite (hashShingle_slice _ _ _ _ _ Heq Hd') in H1.
  rewrite <- (hashShingle_slice _ _ _ _ _ Heq Hd) in H2. lia.
Qed.

Lemma shared_run_shares_fingerprint_witness :
  exists a b,
    enrichSymbol [] copy1 = Some a /\ enrichSymbol [] copy2 = Some b
    /\ hasSharedFingerprints a b = true.
Proof.
  destruct (enrichSymbol [] copy1) as [a|] eqn:Ha; [|by vm_compute in Ha].
  destruct (enrichSymbol [] copy2) as [b|] eqn:Hb; [|by vm_compute in Hb].
  exists a, b. split; [done|]. split; [done|].
  apply (shared_run_shares_fingerprint [] copy1 copy2 a b 2 2 Ha Hb);
    vm_compute in Ha, Hb; injection Ha as <-; injection Hb as <-;
    vm_compute; first [lia | reflexivity].
Defined.

End SharedRuns.

(** ** Match extension *)

Section Extension.

Lemma extendLeft_spec (A B : list jsstring) (a b : nat) :
  let '(sa, sb) := extendLeft A B a b in
  (sa <= a)%nat /\ (sb <= b)%nat /\ (a - sa = b - sb)%nat
  /\ (forall d, (d < a - sa)%nat -> tok A (sa + d) = tok B (sb + d))
  /\ (sa = 0%nat \/ sb = 0%nat \/ tok A (sa - 1) <> tok B (sb - 1)).
Proof.
  revert b. induction a as [|a IH]; intros b; cbn [extendLeft].
  - repeat split; lia.
  - destruct b as [|b].
    + repeat split; lia.
    + unfold eqb. case_bool_decide as Heq.
      * specialize (IH b). destruct (extendLeft A B a b) as [sa sb].
        destruct IH as (H1 & H2 & H3 & H4 & H5).
        repeat split; try lia; [|done].
        intros d Hd. destruct (decide (d < a - sa)%nat) as [Hlt|Hge].
        -- by apply H4.
        -- replace (sa + d)%nat with a by lia.
           by replace (sb + d)%nat with b by lia.
      * repeat split; try lia. right. right.
        by rewrite !Nat.sub_succ, !Nat.sub_0_r.
Qed.

Lemma extendRight_spec (A B : list jsstring) (fuel : nat) :
  forall a b, (a < length A)%nat -> (length A <= a + 1 + fuel)%nat ->
  let '(ea, eb) := extendRight fuel A B a b in
  (a <= ea < length A)%nat /\ (b <= eb)%nat /\ (ea - a = eb - b)%nat
  /\ (b < length B -> eb < length B)%nat
  /\ (forall d, (0 < d <= ea - a)%nat -> tok A (a + d) = tok B (b + d))
  /\ ((length A <= ea + 1)%nat \/ (length B <= eb + 1)%nat
      \/ tok A (ea + 1) <> tok B (eb + 1)).
Proof.
  induction fuel as [|fuel IH]; intros a b Ha Hfuel; cbn [extendRight].
  - repeat split; lia.
  - destruct (Nat.ltb_spec (S a) (length A)) as [HA|HA]; cbn [andb].
    2:{ repeat split; lia. }
    destruct (Nat.ltb_spec (S b) (length B)) as [HB|HB]; cbn [andb].
    2:{ repeat split; lia. }
    unfold eqb. case_bool_decide as Heq.
    + specialize (IH (S a) (S b) HA ltac:(lia)).
      destruct (extendRight fuel A B (S a) (S b)) as [ea eb].
      destruct IH as (H1 & H2 & H3 & H4 & H5 & H6).
      repeat split; try lia; [|done].
      intros d Hd. destruct (decide (d = 1%nat)) as [->|Hne].
      * by rewrite !Nat.add_1_r.
      * replace (a + d)%nat with (S a + (d - 1))%nat by lia.
        replace (b + d)%nat with (S b + (d - 1))%nat by lia.
        apply H5. lia.
    + repeat split; try lia. right. right. by rewrite !Nat.add_1_r.
Qed.

Lemma extendMatch_bounds (A B : list jsstring) (idxA idxB : nat) :
  match extendMatch A B idxA idxB SHINGLE_SIZE with
  | Some m =>
      (startA m <= endA m)%nat /\ (endA m < length A)%nat
      /\ (startB m <= endB m)%nat /\ (endB m < length B)%nat
  | None => True
  end.
Proof.
  unfold extendMatch, SHINGLE_SIZE.
  destruct (Z.ltb_spec
              (Z.min (Z.of_nat (length A) - Z.of_nat idxA)
                     (Z.of_nat (length B) - Z.of_nat idxB))
              (Z.of_nat 3)) as [Hlt|Hge]; [done|].
  pose proof (extendLeft_spec A B idxA idxB) as HL.
  destruct (extendLeft A B idxA idxB) as [sa sb].
  pose proof (extendRight_spec A B (length A)
                (idxA + 3 - 1) (idxB + 3 - 1) ltac:(lia) ltac:(lia)) as HR.
  destruct (extendRight _ _ _ _ _) as [ea eb].
  cbn [startA endA startB endB]. lia.
Qed.

(** [extendMatch] gives nothing exactly when fewer than three tokens
    are left at one of the two positions. Otherwise the extents contain
    the seed, stay inside both token arrays and have the same length on
    both sides; the tokens added on the left and on the right of the
    seed agree pairwise, and neither side can be extended further. The
    tokens of the seed itself are not compared. *)
Theorem extendMatch_extent (tokensA tokensB : list jsstring)
    (idxA idxB : nat) :
  match extendMatch tokensA tokensB idxA idxB SHINGLE_SIZE with
  | None =>
      (length tokensA < idxA + SHINGLE_SIZE)%nat
      \/ (length tokensB < idxB + SHINGLE_SIZE)%nat
  | Some m =>
      (idxA + SHINGLE_SIZE <= length tokensA)%nat
      /\ (idxB + SHINGLE_SIZE <= length tokensB)%nat
      /\ (startA m <= idxA)%nat /\ (idxA + SHINGLE_SIZE - 1 <= endA m)%nat
      /\ (endA m < length tokensA)%nat /\ (endB m < length tokensB)%nat
      /\ (idxA - startA m = idxB - startB m)%nat
      /\ (endA m - idxA = endB m - idxB)%nat
      /\ (forall d, (d < idxA - startA m)%nat ->
            tok tokensA (startA m + d) = tok tokensB (startB m + d))
      /\ (forall d, (SHINGLE_SIZE <= d <= endA m - idxA)%nat ->
            tok tokensA (idxA + d) = tok tokensB (idxB + d))
      /\ (startA m = 0%nat \/ startB m = 0%nat
          \/ tok tokensA (startA m - 1) <> tok tokensB (startB m - 1))
      /\ ((length tokensA <= endA m + 1)%nat
          \/ (length tokensB <= endB m + 1)%nat
          \/ tok tokensA (endA m + 1) <> tok tokensB (endB m + 1))
  end.
Proof.
  unfold extendMatch, SHINGLE_SIZE.
  destruct (Z.ltb_spec
              (Z.min (Z.of_nat (length tokensA) - Z.of_nat idxA)
                     (Z.of_nat (length tokensB) - Z.of_nat idxB))
              (Z.of_nat 3)) as [Hlt|Hge]; [lia|].
  pose proof (extendLeft_spec tokensA tokensB idxA idxB) as HL.
  destruct (extendLeft tokensA tokensB idxA idxB) as [sa sb].
  pose proof (extendRight_spec tokensA tokensB (length tokensA)
                (idxA + 3 - 1) (idxB + 3 - 1) ltac:(lia) ltac:(lia)) as HR.
  destruct (extendRight _ _ _ _ _) as [ea eb].
  destruct HL as (L1 & L2 & L3 & L4 & L5).
  destruct HR as (R1 & R2 & R3 & R4 & R5 & R6).
  cbn [startA endA startB endB].
  repeat split; try lia; try done.
  intros d Hd.
  replace (idxA + d)%nat with (idxA + 3 - 1 + (d - 2))%nat by lia.
  replace (idxB + d)%nat with (idxB + 3 - 1 + (d - 2))%nat by lia.
  apply R5. lia.
Qed.

End Extension.

(** ** Overlap segments *)

Section Overlap.

Lemma mergeLoop_within (n : nat) (last : segment) (sorted : list segment) :
  within n last -> Forall (within n) sorted ->
  Forall (within n) (mergeLoop last sorted).
Proof.
  revert last. induction sorted as [|current t IH]; intros last Hl Hs;
    cbn [mergeLoop].
  - by apply Forall_singleton.
  - apply Forall_cons in Hs as [Hc Ht]. unfold within in *.
    destruct (_ <=? _)%nat.
    + apply IH; [|done]. cbn. lia.
    + constructor; [done|]. apply IH; [|done]. cbn. lia.
Qed.

Lemma mergeSegments_within (n : nat) (segments : list segment) :
  Forall (within n) segments -> Forall (within n) (mergeSegments segments).
Proof.
  intros H. unfold mergeSegments.
  assert (Hs : Forall (within n) (sortByStart segments))
    by (by rewrite sortByStart_perm).
  destruct (sortByStart segments) as [|first t]; [done|].
  apply Forall_cons in Hs as [Hf Ht]. by apply mergeLoop_within.
Qed.

(** Segments in ascending order with gaps between them hold no more
    positions than the array has. *)
Lemma separated_sum (n : nat) (l : list segment) :
  separated l -> Forall (within n) l ->
  match l with
  | [] => True
  | s :: _ => (seg_start s + sum_list_with segmentLength l <= n)%nat
  end.
Proof.
  induction l as [|s l IH]; [done|]. intros Hsep Hall.
  apply Forall_cons in Hall as [Hs Hl]. unfold within in Hs.
  cbn [sum_list_with]. unfold segmentLength at 1.
  destruct l as [|s' l].
  - cbn. lia.
  - destruct Hsep as [Hgap Hsep]. specialize (IH Hsep Hl). cbn beta in IH.
    lia.
Qed.

Lemma separated_total (n : nat) (l : list segment) :
  separated l -> Forall (within n) l ->
  (sum_list_with segmentLength l <= n)%nat.
Proof.
  intros Hsep Hall. pose proof (separated_sum n l Hsep Hall) as H.
  destruct l; [cbn; lia|lia].
Qed.

Variables a b : enriched.

Let okA (st : matchState) : Prop :=
  Forall (within (length (e_tokens a))) (segmentsA st).
Let okB (st : matchState) : Prop :=
  Forall (within (length (e_tokens b))) (segmentsB st).
Let capped (st : matchState) : Prop :=
  (length (segmentsA st) <= length (seenPairs st))%nat
  /\ (length (segmentsB st) <= length (seenPairs st))%nat
  /\ (length (seenPairs st) <= MAX_MATCHES_PER_PAIR)%nat.

Lemma loopB_inv (idxA : nat) (positionsB : list nat) (st : matchState) :
  okA st /\ okB st /\ capped st ->
  okA (loopB a b idxA positionsB st) /\ okB (loopB a b idxA positionsB st)
  /\ capped (loopB a b idxA positionsB st).
Proof.
  revert st. induction positionsB as [|idxB t IH]; intros st Hst; [done|].
  cbn [loopB]. unfold full.
  destruct (Nat.leb_spec MAX_MATCHES_PER_PAIR (length (seenPairs st)))
    as [|Hroom]; [done|].
  destruct (OMap.mem (seenPairs st) (idxA, idxB)); [by apply IH|].
  destruct Hst as (HA & HB & Hc1 & Hc2 & Hc3).
  pose proof (extendMatch_bounds (e_tokens a) (e_tokens b) idxA idxB) as Hm.
  destruct (extendMatch _ _ _ _ _) as [m|]; apply IH;
    unfold okA, okB, capped in *; cbn [segmentsA segmentsB seenPairs];
    rewrite ?length_app; cbn [length].
  - destruct Hm as (H1 & H2 & H3 & H4).
    split; [|split].
    + apply Forall_app. split; [done|]. apply Forall_singleton.
      unfold within. cbn. lia.
    + apply Forall_app. split; [done|]. apply Forall_singleton.
      unfold within. cbn. lia.
    + lia.
  - split; [done|]. split; [done|]. lia.
Qed.

Lemma loopA_inv (positionsA positionsB : list nat) (st : matchState) :
  okA st /\ okB st /\ capped st ->
  okA (loopA a b positionsA positionsB st)
  /\ okB (loopA a b positionsA positionsB st)
  /\ capped (loopA a b positionsA positionsB st).
Proof.
  revert st. induction positionsA as [|idxA t IH]; intros st Hst; [done|].
  cbn [loopA]. cbn zeta.
  pose proof (loopB_inv idxA positionsB st Hst) as H'.
  destruct (full _); [done|]. by apply IH.
Qed.

Lemma loopShared_inv (shared : list N) (st : matchState) :
  okA st /\ okB st /\ capped st ->
  okA (loopShared a b shared st) /\ okB (loopShared a b shared st)
  /\ capped (loopShared a b shared st).
Proof.
  revert st. induction shared as [|h t IH]; intros st Hst; [done|].
  cbn [loopShared]. cbn zeta.
  pose proof (loopA_inv (default [] (OMap.get (e_fingerprintIndex a) h))
                (default [] (OMap.get (e_fingerprintIndex b) h)) st Hst)
    as H'.
  destruct (full _); [done|]. by apply IH.
Qed.

(** For one pair of symbols at most 200 pairs of fingerprint positions
    are examined, so each side collects at most 200 segments before
    merging. *)
Theorem match_positions_capped (shared : list N) :
  let st := loopShared a b shared (MatchState [] [] []) in
  (length (seenPairs st) <= MAX_MATCHES_PER_PAIR)%nat
  /\ (length (segmentsA st) <= MAX_MATCHES_PER_PAIR)%nat
  /\ (length (segmentsB st) <= MAX_MATCHES_PER_PAIR)%nat.
Proof.
  destruct (loopShared_inv shared (MatchState [] [] []))
    as (_ & _ & H1 & H2 & H3).
  { unfold okA, okB, capped, MAX_MATCHES_PER_PAIR. cbn.
    repeat split; try constructor; lia. }
  cbn zeta. lia.
Qed.

Lemma overlap_segments_facts (o : overlap) :
  computeSymbolOverlap a b = Some o ->
  o_segmentsA o <> [] /\ o_segmentsB o <> []
  /\ Forall (within (length (e_tokens a))) (o_segmentsA o)
  /\ Forall (within (length (e_tokens b))) (o_segmentsB o)
  /\ separated (o_segmentsA o) /\ separated (o_segmentsB o).
Proof.
  unfold computeSymbolOverlap.
  set (shared := List.filter _ _). destruct shared as [|h shared]; [done|].
  destruct (loopShared_inv (h :: shared) (MatchState [] [] []))
    as (HA & HB & _).
  { unfold okA, okB, capped, MAX_MATCHES_PER_PAIR. cbn.
    repeat split; try constructor; lia. }
  set (st := loopShared a b (h :: shared) (MatchState [] [] [])) in *.
  unfold okA, okB in HA, HB.
  destruct (segmentsA st) as [|sA segsA] eqn:HsA; [done|].
  destruct (segmentsB st) as [|sB segsB] eqn:HsB; [done|].
  apply mergeSegments_within in HA, HB.
  pose proof (mergeSegments_spec (sA :: segsA)) as [_ HsepA].
  pose proof (mergeSegments_spec (sB :: segsB)) as [_ HsepB].
  destruct (mergeSegments (sA :: segsA)) as [|mA mergedA] eqn:HmA; [done|].
  destruct (mergeSegments (sB :: segsB)) as [|mB mergedB] eqn:HmB; [done|].
  destruct (_ =? 0)%nat; [done|]. intros [= <-].
  cbn [o_segmentsA o_segmentsB]. by repeat split.
Qed.

(** The segments of an overlap lie inside the token arrays of their
    symbols, in ascending order with a gap between neighbours; so the
    overlap tokens counted on either side are no more than the symbol
    has tokens, and the overlap similarity is the quotient of a count
    that does not exceed its denominator. *)
Theorem overlap_segments_within_tokens (o : overlap) :
  computeSymbolOverlap a b = Some o ->
  Forall (within (length (e_tokens a))) (o_segmentsA o)
  /\ Forall (within (length (e_tokens b))) (o_segmentsB o)
  /\ separated (o_segmentsA o) /\ separated (o_segmentsB o)
  /\ (segmentTokens (o_segmentsA o)
      <= Nat.max (length (e_tokens a)) (length (e_tokens b)))%nat
  /\ (segmentTokens (o_segmentsB o)
      <= Nat.max (length (e_tokens a)) (length (e_tokens b)))%nat.
Proof.
  intros Ho.
  destruct (overlap_segments_facts o Ho) as (_ & _ & HA & HB & HsepA & HsepB).
  rewrite !segmentTokens_sum.
  pose proof (separated_total _ _ HsepA HA).
  pose proof (separated_total _ _ HsepB HB).
  repeat split; try done; lia.
Qed.

End Overlap.

Lemma overlap_segments_within_tokens_witness :
  exists a b o,
    enrichSymbol [] copy1 = Some a /\ enrichSymbol [] copy2 = Some b
    /\ computeSymbolOverlap a b = Some o
    /\ (segmentTokens (o_segmentsA o)
        <= Nat.max (length (e_tokens a)) (length (e_tokens b)))%nat.
Proof.
  destruct (enrichSymbol [] copy1) as [a|] eqn:Ha; [|by vm_compute in Ha].
  destruct (enrichSymbol [] copy2) as [b|] eqn:Hb; [|by vm_compute in Hb].
  destruct (computeSymbolOverlap a b) as [o|] eqn:Ho.
  - exists a, b, o. split; [done|]. split; [done|]. split; [done|].
    by destruct (overlap_segments_within_tokens a b o Ho)
      as (_ & _ & _ & _ & H & _).
  - vm_compute in Ha, Hb. injection Ha as <-. injection Hb as <-.
    by vm_compute in Ho.
Defined.

(** ** Line lookup *)

Section Lines.

Lemma increasing_head (x : nat) (l : list nat) :
  increasing (x :: l) -> Forall (fun y => (x < y)%nat) l.
Proof.
  revert x. induction l as [|y l IH]; intros x H; [constructor|].
  destruct H as [Hxy Hl]. constructor; [done|].
  eapply Forall_impl; [by apply IH|]. cbn. intros. lia.
Qed.

Lemma increasing_tail (x : nat) (l : list nat) :
  increasing (x :: l) -> increasing l.
Proof. destruct l; [done|]. by intros [_ ?]. Qed.

(** In ascending offsets the ones at or before a position are the
    first [startsUpTo] ones. *)
Lemma startsUpTo_spec (position : nat) (offsets : list nat) :
  increasing offsets ->
  forall i x, offsets !! i = Some x ->
    ((x <= position)%nat <-> (i < startsUpTo position offsets)%nat).
Proof.
  unfold startsUpTo.
  induction offsets as [|y l IH]; intros Hinc i x Hi; [done|].
  pose proof (increasing_head _ _ Hinc) as Hhead.
  specialize (IH (increasing_tail _ _ Hinc)).
  cbn [List.filter]. destruct (Nat.leb_spec y position) as [Hle|Hgt].
  - destruct i as [|i]; cbn in Hi.
    + injection Hi as <-. cbn. lia.
    + rewrite (IH i x Hi). cbn. lia.
  - assert (Hnone : List.filter (fun x => (x <=? position)%nat) l = []).
    { clear -Hhead Hgt. induction Hhead as [|z l Hz _ IHl]; [done|].
      cbn. destruct (Nat.leb_spec z position); [lia|done]. }
    rewrite Hnone. cbn [length].
    destruct i as [|i]; cbn in Hi.
    + injection Hi as <-. lia.
    + rewrite Forall_forall in Hhead.
      assert (y < x)%nat by (apply Hhead; by eapply list_elem_of_lookup_2).
      lia.
Qed.

Lemma startsUpTo_length (position : nat) (offsets : list nat) :
  (startsUpTo position offsets <= length offsets)%nat.
Proof.
  unfold startsUpTo. induction offsets as [|x l IH]; [done|].
  cbn. destruct (_ <=? _)%nat; cbn; lia.
Qed.

Lemma nth_error_lookup {A : Type} (l : list A) (i : nat) :
  nth_error l i = l !! i.
Proof. revert i. induction l as [|x l IH]; intros [|i]; cbn; auto. Qed.

(** The binary search finds the number of offsets at or before the
    position. *)
Lemma locateLoop_spec (position : nat) (offsets : list nat) :
  increasing offsets -> (1 <= startsUpTo position offsets)%nat ->
  forall fuel low high,
    (0 <= low)%Z -> (high < Z.of_nat (length offsets))%Z ->
    (low <= Z.of_nat (startsUpTo position offsets) - 1 <= high)%Z ->
    (high - low < Z.of_nat fuel)%Z ->
    locateLoop fuel position offsets low high = startsUpTo position offsets.
Proof.
  intros Hinc Hc. pose proof (startsUpTo_spec position offsets Hinc) as Hspec.
  pose proof (startsUpTo_length position offsets) as Hlen.
  set (c := startsUpTo position offsets) in *.
  induction fuel as [|fuel IH]; intros low high Hlow Hhigh Hin Hfuel; [lia|].
  cbn [locateLoop]. destruct (Z.leb_spec low high) as [_|?]; [|lia].
  set (mid := ((low + high) / 2)%Z).
  assert (Hmid : (low <= mid <= high)%Z).
  { unfold mid. split; [apply Z.div_le_lower_bound|apply Z.div_le_upper_bound];
      lia. }
  destruct (lookup_lt_is_Some_2 offsets (Z.to_nat mid)) as [start Hstart];
    [lia|].
  rewrite (nth_lookup_Some _ _ _ _ Hstart).
  pose proof (Hspec _ _ Hstart) as Hs.
  destruct (Nat.ltb_spec position start) as [Hlt|Hge].
  { apply IH; lia. }
  destruct (nth_error offsets (Z.to_nat mid + 1)) as [next|] eqn:Hnext.
  - rewrite nth_error_lookup in Hnext.
    pose proof (Hspec (Z.to_nat mid + 1)%nat next) as Hn.
    destruct (Nat.leb_spec next position) as [Hle|Hgt].
    + apply IH; try lia. 
      assert (Z.to_nat mid + 1 < c)%nat; [|lia]. by apply Hn.
    + assert (~ (Z.to_nat mid + 1 < c)%nat); [|lia].
      intros Hc'. apply Hn in Hc'; [lia|done].
  - apply nth_error_None in Hnext. lia.
Qed.

Lemma lineStarts_after (content : jsstring) (pos : nat) :
  Forall (fun x => (pos < x)%nat) (lineStarts content pos).
Proof.
  revert pos. induction content as [|c t IH]; intros pos; [constructor|].
  cbn [lineStarts].
  assert (H : Forall (fun x => (pos < x)%nat) (lineStarts t (S pos))).
  { eapply Forall_impl; [apply IH|]. cbn. intros. lia. }
  destruct (c =? 10)%N; [constructor; [lia|done]|done].
Qed.

Lemma lineStarts_increasing (content : jsstring) (pos : nat) :
  increasing (pos :: lineStarts content pos).
Proof.
  revert pos. induction content as [|c t IH]; intros pos; [done|].
  cbn [lineStarts]. specialize (IH (S pos)).
  destruct (c =? 10)%N.
  - split; [lia|done].
  - destruct (lineStarts t (S pos)) as [|y l]; [done|].
    destruct IH as [Hy Hl]. split; [lia|done].
Qed.

Lemma lineStarts_upTo (content : jsstring) (pos position : nat) :
  startsUpTo (pos + position) (lineStarts content pos)
  = length (List.filter (fun c => (c =? 10)%N) (take position content)).
Proof.
  unfold startsUpTo. revert pos position.
  induction content as [|c t IH]; intros pos position.
  - by destruct position.
  - destruct position as [|position].
    + cbn [take List.filter length].
      pose proof (lineStarts_after (c :: t) pos) as Hafter.
      induction Hafter as [|z l Hz _ IHl]; [done|].
      cbn. destruct (Nat.leb_spec z (pos + 0)); [lia|done].
    + cbn [take lineStarts List.filter].
      specialize (IH (S pos) position).
      replace (S pos + position)%nat with (pos + S position)%nat in IH by lia.
      destruct (c =? 10)%N; [|done].
      cbn [List.filter].
      destruct (Nat.leb_spec (S pos) (pos + S position)); [|lia].
      cbn [length]. by rewrite IH.
Qed.

Lemma lineTotal_take (content : jsstring) (p q : nat) :
  (p <= q)%nat ->
  (lineTotal (take p content) <= lineTotal (take q content)
   <= lineTotal content)%nat.
Proof.
  assert (H : forall (l : jsstring) n,
            (length (List.filter (fun c => (c =? 10)%N) (take n l))
             <= length (List.filter (fun c => (c =? 10)%N) l))%nat).
  { induction l as [|c l IH]; intros [|n]; cbn; try lia.
    specialize (IH n). destruct (c =? 10)%N; cbn; lia. }
  intros Hpq. unfold lineTotal. split.
  - replace (take p content) with (take p (take q content))
      by (rewrite take_take; f_equal; lia).
    specialize (H (take q content) p). lia.
  - specialize (H content q). lia.
Qed.

Lemma locateLine_lines (content : jsstring) (position : nat) :
  locateLine position (CloneDetector.buildLineOffsets content)
  = lineTotal (take position content).
Proof.
  unfold locateLine, CloneDetector.buildLineOffsets, lineTotal.
  set (offsets := 0%nat :: lineStarts content 0).
  assert (Hc : startsUpTo position offsets
               = S (length (List.filter (fun c => (c =? 10)%N)
                              (take position content)))).
  { unfold offsets, startsUpTo. cbn [List.filter Nat.leb length].
    f_equal. apply (lineStarts_upTo content 0 position). }
  rewrite <- Hc.
  pose proof (startsUpTo_length position offsets).
  apply locateLoop_spec; try lia.
  apply lineStarts_increasing.
Qed.

(** [locateLine] over the line offsets of a text gives the 1-based line
    of a position: one more than the number of line feeds before it. A
    position past the end is on the last line, and the lines of
    successive positions never go down. *)
Theorem locateLine_counts_line_feeds (content : jsstring) (position : nat) :
  locateLine position (CloneDetector.buildLineOffsets content)
  = lineTotal (take position content)
  /\ (forall later, (position <= later)%nat ->
        (locateLine position (CloneDetector.buildLineOffsets content)
         <= locateLine later (CloneDetector.buildLineOffsets content)
         <= length (CloneDetector.buildLineOffsets content))%nat).
Proof.
  split; [apply locateLine_lines|]. intros later Hle.
  rewrite !locateLine_lines.
  unfold CloneDetector.buildLineOffsets. cbn [length].
  rewrite lineStarts_length. fold (lineTotal content).
  by apply lineTotal_take.
Qed.

End Lines.

(** ** Pair loop and languages *)

Section PairLoop.

Lemma innerLoop_comparisons (threshold : F64.float) (a : enriched)
    (others : list enriched) (st : loopState) :
  (comparisons st <= MAX_PAIRS)%N ->
  (comparisons st <= comparisons (innerLoop threshold a others st)
   <= MAX_PAIRS)%N.
Proof.
  revert st. induction others as [|b t IH]; intros st Hst; cbn [innerLoop];
    [lia|].
  destruct (N.leb_spec MAX_PAIRS (comparisons st)) as [|Hroom]; [lia|].
  destruct (negb _); [by apply IH|].
  destruct (pairSimilarity a b) as [sim ov].
  destruct (F64.geb sim threshold);
    match goal with
    | |- context [innerLoop _ _ _ ?st'] =>
        specialize (IH st'); cbn [comparisons] in IH
    end; lia.
Qed.

Lemma outerLoop_comparisons (threshold : F64.float) (symbols : list enriched)
    (st : loopState) :
  (comparisons st <= MAX_PAIRS)%N ->
  (comparisons (outerLoop threshold symbols st) <= MAX_PAIRS)%N.
Proof.
  revert st. induction symbols as [|a t IH]; intros st Hst; cbn [outerLoop];
    [done|].
  apply IH. by apply innerLoop_comparisons.
Qed.

Lemma comparedWith_count (a : enriched) (others : list enriched) (n : N) :
  snd (comparedWith a others n)
  = (n + N.of_nat (length (fst (comparedWith a others n))))%N.
Proof.
  revert n. induction others as [|b t IH]; intros n; cbn [comparedWith].
  - cbn. lia.
  - destruct (MAX_PAIRS <=? n)%N; [cbn; lia|].
    destruct (negb _); [apply IH|].
    specialize (IH (n + 1)%N).
    destruct (comparedWith a t (n + 1)) as [ps n']. cbn [fst snd length] in *.
    lia.
Qed.

Lemma comparedWith_capped (a : enriched) (others : list enriched) (n : N) :
  (n <= MAX_PAIRS)%N -> (snd (comparedWith a others n) <= MAX_PAIRS)%N.
Proof.
  revert n. induction others as [|b t IH]; intros n Hn; cbn [comparedWith];
    [done|].
  destruct (N.leb_spec MAX_PAIRS n) as [|Hroom]; [done|].
  destruct (negb _); [by apply IH|].
  specialize (IH (n + 1)%N ltac:(lia)).
  by destruct (comparedWith a t (n + 1)) as [ps n'].
Qed.

Lemma comparedFrom_count (symbols : list enriched) (n : N) :
  (n <= MAX_PAIRS)%N ->
  (n + N.of_nat (length (comparedFrom symbols n)) <= MAX_PAIRS)%N.
Proof.
  revert n. induction symbols as [|a t IH]; intros n Hn; cbn [comparedFrom].
  - cbn. lia.
  - pose proof (comparedWith_count a t n) as Hc.
    pose proof (comparedWith_capped a t n Hn) as Hcap.
    destruct (comparedWith a t n) as [ps n']. cbn [fst snd] in *.
    specialize (IH n' Hcap). rewrite length_app. lia.
Qed.

(** The pair loop never makes more than [MAX_PAIRS] comparisons: the
    counter it ends with and the number of pairs it has compared stay
    at or below 250000, however many symbols there are. *)
Theorem comparisons_never_exceed_max_pairs (threshold : F64.float)
    (symbols : list enriched) :
  (comparisons (outerLoop threshold symbols (LoopState ∅ 0)) <= MAX_PAIRS)%N
  /\ (N.of_nat (length (comparedPairs symbols)) <= MAX_PAIRS)%N.
Proof.
  split.
  - by apply outerLoop_comparisons.
  - pose proof (comparedFrom_count symbols 0 ltac:(done)). unfold comparedPairs.
    lia.
Qed.

(** Language compatibility is reflexive and symmetric, a missing or
    empty language is compatible with every language, and the members of
    the JavaScript family are compatible with each other, so JavaScript
    and TypeScript symbols are compared. *)
Theorem languages_compatible_properties (a b : option jsstring) :
  languagesAreCompatible a a = true
  /\ languagesAreCompatible a b = languagesAreCompatible b a
  /\ languagesAreCompatible None b = true
  /\ languagesAreCompatible (Some []) b = true
  /\ (forall x y, toLowerCase x ∈ JS_FAMILY -> toLowerCase y ∈ JS_FAMILY ->
        languagesAreCompatible (Some x) (Some y) = true).
Proof.
  unfold languagesAreCompatible. split; [|split; [|split; [|split]]].
  - destruct (normalizeLanguage a); [|done]. by apply bool_decide_eq_true.
  - destruct (normalizeLanguage a), (normalizeLanguage b); try done.
    unfold eqb. apply bool_decide_ext. split; congruence.
  - done.
  - done.
  - intros x y Hx Hy.
    assert (Hfam : forall z, toLowerCase z ∈ JS_FAMILY ->
              normalizeLanguage (Some z) = Some (str "js-family")).
    { intros z Hz. unfold normalizeLanguage.
      apply mem_elem_of in Hz.
      destruct z as [|c z]; [by vm_compute in Hz|]. by rewrite Hz. }
    by rewrite (Hfam x Hx), (Hfam y Hy).
Qed.

End PairLoop.

(** ** Symbols of a file *)

Section Dedupe.

Lemma replaceLonger_spec (unique : list symbol) (entry : symbol) :
  NoDup (List.map sym_id unique) ->
  NoDup (List.map sym_id (replaceLonger unique entry))
  /\ (forall r, r ∈ replaceLonger unique entry -> r ∈ unique \/ r = entry)
  /\ (forall u, u ∈ unique \/ u = entry ->
        exists r, r ∈ replaceLonger unique entry /\ sym_id r = sym_id u
                  /\ (length (sym_text u) <= length (sym_text r))%nat).
Proof.
  induction unique as [|x t IH]; intros Hnd; cbn [replaceLonger].
  - split; [apply NoDup_singleton|]. split.
    + intros r ->%list_elem_of_singleton. by right.
    + intros u [Hu| ->]; [by apply elem_of_nil in Hu|].
      exists entry. split; [in_head|done].
  - cbn [List.map] in Hnd. apply NoDup_cons in Hnd as [Hx Hnd].
    unfold eqb. case_bool_decide as Hid.
    + destruct (Nat.ltb_spec (length (sym_text x)) (length (sym_text entry)))
        as [Hlt|Hge].
      * split; [|split].
        -- cbn [List.map]. rewrite <- Hid. by apply NoDup_cons.
        -- intros r [->|Hr]%elem_of_cons; [by right|]. left. in_tail.
        -- intros u [[->|Hu]%elem_of_cons| ->].
           ++ exists entry. split; [in_head|]. split; [done|lia].
           ++ exists u. split; [in_tail|done].
           ++ exists entry. split; [in_head|done].
      * split; [|split].
        -- cbn [List.map]. by apply NoDup_cons.
        -- intros r Hr. by left.
        -- intros u [Hu| ->]; [by exists u|].
           exists x. split; [in_head|]. split; [done|lia].
    + destruct (IH Hnd) as (IH1 & IH2 & IH3). split; [|split].
      * cbn [List.map]. apply NoDup_cons. split; [|done].
        intros Hin. apply list_elem_of_fmap in Hin as (r & Hr & Hin).
        apply IH2 in Hin as [Hin| ->]; [|done].
        apply Hx. apply list_elem_of_fmap. by exists r.
      * intros r [->|Hr]%elem_of_cons; [left; in_head|].
        apply IH2 in Hr as [Hr| ->]; [left; in_tail|by right].
      * intros u Hu.
        assert (Hcase : u = x \/ (u ∈ t \/ u = entry)).
        { destruct Hu as [[->|Hu]%elem_of_cons| ->]; auto. }
        destruct Hcase as [->|Hu'].
        -- exists x. split; [in_head|done].
        -- destruct (IH3 u Hu') as (r & Hr & H'). exists r.
           split; [in_tail|done].
Qed.

(** [dedupeById] keeps entries of its input that have an id, one per
    id; and every input entry with an id is represented by a kept entry
    of that id whose text is at least as long. *)
Theorem dedupeById_unique_longest (entries : list symbol) :
  NoDup (List.map sym_id (dedupeById entries))
  /\ (forall r, r ∈ dedupeById entries -> r ∈ entries /\ sym_id r <> [])
  /\ (forall e, e ∈ entries -> sym_id e <> [] ->
        exists r, r ∈ dedupeById entries /\ sym_id r = sym_id e
                  /\ (length (sym_text e) <= length (sym_text r))%nat).
Proof.
  unfold dedupeById. induction entries as [|x l IH] using rev_ind.
  - cbn. split; [constructor|]. split; intros ? ?%elem_of_nil; done.
  - rewrite fold_left_app. cbn [fold_left].
    set (unique := fold_left _ l []) in *.
    destruct IH as (IH1 & IH2 & IH3).
    destruct (sym_id x) as [|c id] eqn:Hid; cbn [JS.truthy negb].
    + split; [done|]. split.
      * intros r Hr. destruct (IH2 r Hr). split; [|done].
        apply elem_of_app. by left.
      * intros e [He|He]%elem_of_app Hne; [by apply IH3|].
        apply list_elem_of_singleton in He as ->. done.
    + destruct (replaceLonger_spec unique x IH1) as (R1 & R2 & R3).
      split; [done|]. split.
      * intros r Hr. apply R2 in Hr as [Hr| ->].
        -- destruct (IH2 r Hr). split; [|done]. apply elem_of_app. by left.
        -- split; [|by rewrite Hid]. apply elem_of_app. right. in_head.
      * intros e [He|He]%elem_of_app Hne.
        -- destruct (IH3 e He Hne) as (u & Hu & Hu1 & Hu2).
           destruct (R3 u (or_introl Hu)) as (r & Hr & Hr1 & Hr2).
           exists r. split; [done|]. split; [congruence|lia].
        -- apply list_elem_of_singleton in He as ->.
           destruct (R3 x (or_intror eq_refl)) as (r & Hr & Hr1 & Hr2).
           by exists r.
Qed.

End Dedupe.

(** ** Line counts *)

Section LineCount.

Lemma afterFirstLF_count (s : jsstring) :
  match afterFirstLF s with
  | None => length (List.filter (fun c => (c =? 10)%N) s) = 0%nat
  | Some r =>
      length (List.filter (fun c => (c =? 10)%N) s)
      = S (length (List.filter (fun c => (c =? 10)%N) r))
      /\ (length r < length s)%nat
  end.
Proof.
  induction s as [|c t IH]; [done|]. cbn [afterFirstLF List.filter].
  destruct (c =? 10)%N; [cbn; split; [done|lia]|].
  destruct (afterFirstLF t); [|done]. cbn [length]. split; [tauto|lia].
Qed.

(** The leftmost match of [/\r?\n/] ends right after the first line
    feed. *)
Lemma search_newline (s : jsstring) :
  forall p off,
    match search FileMetrics.newline p s off with
    | None => afterFirstLF s = None
    | Some m => m_text m <> [] /\ afterFirstLF s = Some (rest (m_after m))
    end.
Proof.
  change FileMetrics.newline with (RSeq (RAlt (RChar 13) REps) (RChar 10)).
  induction s as [|x t IH]; intros p off; [done|].
  cbn [search rmatch rest prev cap afterFirstLF].
  destruct (N.eqb_spec 13 x) as [<-|Hx13].
  - change (13 =? 10)%N with false. change (10 =? 13)%N with false.
    cbn iota. destruct t as [|y t'].
    + apply IH.
    + destruct (N.eqb_spec 10 y) as [<-|Hy].
      * cbn. split; [|done].
        replace (S (S (length t')) - length t')%nat with 2%nat by lia. done.
      * apply IH.
  - destruct (N.eqb_spec 10 x) as [<-|Hx10].
    + cbn. split; [|done]. unfold consumed. cbn [rest length].
      replace (S (length t) - length t)%nat with 1%nat by lia. done.
    + assert ((x =? 10)%N = false) as -> by (apply N.eqb_neq; congruence).
      apply IH.
Qed.

Lemma matches_newline_count (fuel : nat) :
  forall p s off, (length s < fuel)%nat ->
    length (matches_from fuel FileMetrics.newline p s off)
    = length (List.filter (fun c => (c =? 10)%N) s).
Proof.
  induction fuel as [|fuel IH]; intros p s off Hfuel; [lia|].
  cbn [matches_from].
  pose proof (search_newline s p off) as Hs.
  pose proof (afterFirstLF_count s) as Hc.
  destruct (search FileMetrics.newline p s off) as [m|].
  - destruct Hs as [Hne Hafter]. rewrite Hafter in Hc.
    destruct Hc as [-> Hlen]. cbn [length]. f_equal.
    destruct (m_text m); [done|]. apply IH. lia.
  - by rewrite Hs in Hc.
Qed.

(** The three places that count the lines of a text agree: the number
    of pieces of [split(/\r?\n/)], used for the [lineCount] of the file
    metrics and by [countLines] of the smell detector, and the number
    of line offsets, used for the [endLine] of a fallback symbol, are
    all one more than the number of line feeds. [countLines] gives 0
    for the empty text. *)
Theorem line_counts_agree (content : jsstring) :
  split_count FileMetrics.newline content = lineTotal content
  /\ SmellDetector.countLines content
     = (if JS.truthy content then lineTotal content else 0%nat)
  /\ length (StructureGraph.buildLineOffsets content) = lineTotal content
  /\ length (CloneDetector.buildLineOffsets content) = lineTotal content.
Proof.
  assert (H : split_count FileMetrics.newline content = lineTotal content).
  { unfold split_count, lineTotal, matches. f_equal.
    apply matches_newline_count. lia. }
  split; [exact H|]. split.
  - unfold SmellDetector.countLines. destruct content; [done|]. exact H.
  - unfold StructureGraph.buildLineOffsets, CloneDetector.buildLineOffsets,
      lineTotal. cbn [length]. by rewrite lineStarts_length.
Qed.

End LineCount.

(** ** Line ranges of clones *)

Section Ranges.

Lemma ordered_weaken (off off' : nat) (found : list (jsstring * nat * nat)) :
  (off <= off')%nat -> ordered off' found -> ordered off found.
Proof. destruct found as [|[[t o] n] r]; [done|]. cbn. intros ? [? ?]. split; [lia|done]. Qed.

Lemma tokenLoop_ordered (ms : list rmatch_result) :
  forall s off count, fits ms s off -> ordered off (tokenLoop ms count).
Proof.
  induction ms as [|m ms IH]; intros s off count Hfit; [done|].
  cbn [fits] in Hfit. destruct Hfit as (i & Hi & _ & _ & Hfit).
  cbn [tokenLoop].
  assert (Hrest : forall c, ordered (m_index m + length (m_text m))
                              (tokenLoop ms c)).
  { intros c. replace (m_index m + length (m_text m))%nat
      with (off + i + length (m_text m))%nat by lia. by eapply IH. }
  destruct (negb _ || test loneUnderscore _).
  - eapply ordered_weaken; [|apply Hrest]. lia.
  - cbn [ordered]. split; [lia|].
    destruct (5000 <=? S count)%nat; [done|apply Hrest].
Qed.

Lemma ordered_lookup (found : list (jsstring * nat * nat)) :
  forall off i j ti oi ni tj oj nj,
    ordered off found -> (i <= j)%nat ->
    found !! i = Some (ti, oi, ni) -> found !! j = Some (tj, oj, nj) ->
    (0 < nj)%nat ->
    (off <= oi)%nat /\ (oi <= oj + nj - 1)%nat.
Proof.
  induction found as [|[[t o] n] r IH];
    intros off i j ti oi ni tj oj nj Hord Hij Hi Hj Hnj; [done|].
  destruct Hord as [Ho Hord]. destruct i as [|i].
  - cbn in Hi. injection Hi as -> -> ->. split; [done|].
    destruct j as [|j].
    + cbn in Hj. injection Hj as -> -> ->. lia.
    + cbn in Hj.
      destruct (IH _ j j tj oj nj tj oj nj Hord ltac:(lia) Hj Hj Hnj). lia.
  - destruct j as [|j]; [lia|]. cbn in Hi, Hj.
    destruct (IH _ i j ti oi ni tj oj nj Hord ltac:(lia) Hi Hj Hnj). lia.
Qed.

(** The entries the tokenizer records, as one list. *)
Lemma tokenizeWithMeta_found (text : jsstring) :
  exists found,
    tokens (tokenizeWithMeta text) = List.map (fun t => fst (fst t)) found
    /\ offsets (tokenizeWithMeta text) = List.map (fun t => snd (fst t)) found
    /\ lengths (tokenizeWithMeta text) = List.map snd found
    /\ ordered 0 found
    /\ forall t o n, (t, o, n) ∈ found ->
         (0 < n)%nat /\ (o + n <= length text)%nat.
Proof.
  unfold tokenizeWithMeta. destruct (negb (JS.truthy text)).
  { exists []. do 4 (split; [done|]). by intros ? ? ? ?%elem_of_nil. }
  set (sanitized := stripCommentsPreserveLayout text).
  pose proof (matches_from_fits tokenRegex (S (length sanitized)) None
                sanitized 0) as Hfit.
  exists (tokenLoop (matches tokenRegex sanitized) 0).
  split; [done|]. split; [done|]. split; [done|]. split.
  { by eapply tokenLoop_ordered. }
  intros t o n Hin.
  apply tokenLoop_spec in Hin as (m & Hm & -> & -> & -> & _).
  destruct (fits_elem _ _ _ _ Hfit Hm) as (_ & _ & Hlen).
  pose proof (matches_from_text tokenRegex
                (fun t => t <> [] /\ Forall (fun x => is_word x = true) t)
                tokenRegex_consumed
                (S (length sanitized)) None sanitized 0) as Hall.
  rewrite Forall_forall in Hall. destruct (Hall m Hm) as [Hne _].
  pose proof (strip_comments_layout_length text) as Hl.
  fold sanitized in Hl. split; [destruct (m_text m); [done|cbn; lia]|lia].
Qed.

Lemma separated_span (n : nat) (l : list segment) (first lst : segment) :
  separated l -> Forall (within n) l ->
  head l = Some first -> last l = Some lst ->
  (seg_start first <= seg_end lst)%nat.
Proof.
  revert first. induction l as [|s l IH]; intros first Hsep Hall Hh Hl; [done|].
  cbn in Hh. injection Hh as <-.
  apply Forall_cons in Hall as [Hs Hall]. unfold within in Hs.
  destruct l as [|s' l].
  - cbn in Hl. injection Hl as <-. lia.
  - destruct Hsep as [Hgap Hsep].
    rewrite last_cons_cons in Hl.
    specialize (IH s' Hsep Hall eq_refl Hl). lia.
Qed.

(** The line range [segmentsToLines] gives for segments inside the
    tokens of a kept symbol. *)
Lemma segmentsToLines_range (rootPath : jsstring) (s : symbol) (a : enriched)
    (segments : list segment) :
  enrichSymbol rootPath s = Some a ->
  segments <> [] -> separated segments ->
  Forall (within (length (e_tokens a))) segments ->
  (1 <= sym_startLine s)%Z ->
  (sym_startLine s <= r_startLine (segmentsToLines a segments)
   <= r_endLine (segmentsToLines a segments))%Z
  /\ (r_endLine (segmentsToLines a segments)
      <= sym_startLine s + Z.of_nat (lineTotal (sym_text s)) - 1)%Z.
Proof.
  intros Ha Hne Hsep Hall Hstart.
  apply enrichSymbol_fields in Ha
    as (_ & _ & Htok & Hoff & Hlen & Hlines & _ & _ & _ & _ & Hsl & _).
  destruct (tokenizeWithMeta_found (sym_text s))
    as (found & Ft & Fo & Fl & Hord & Hfound).
  unfold segmentsToLines.
  destruct segments as [|first rest]; [done|].
  destruct (last (first :: rest)) as [lst|] eqn:Hlast;
    [|by apply last_None in Hlast].
  pose proof (separated_span _ _ first lst Hsep Hall eq_refl Hlast) as Hspan.
  assert (Hf : within (length (e_tokens a)) first).
  { by apply Forall_cons in Hall as [? _]. }
  assert (Hl : within (length (e_tokens a)) lst).
  { rewrite Forall_forall in Hall. apply Hall.
    apply last_Some in Hlast as [l' ->]. apply elem_of_app. right. in_head. }
  unfold within in Hf, Hl.
  assert (Hn : length (e_tokens a) = length found)
    by (by rewrite Htok, Ft, length_map).
  destruct (lookup_lt_is_Some_2 found (seg_start first)) as [[[t1 o1] n1] H1];
    [lia|].
  destruct (lookup_lt_is_Some_2 found (seg_end lst)) as [[[t2 o2] n2] H2];
    [lia|].
  rewrite !nth_error_lookup, Hoff, Hlen, Fo, Fl.
  change (@List.map) with (@fmap list _).
  rewrite !list_lookup_fmap, H1, H2.
  cbn [fmap option_fmap option_map default fst snd]. unfold id.
  assert (H2in : (t2, o2, n2) ∈ found) by (by eapply list_elem_of_lookup_2).
  destruct (Hfound _ _ _ H2in) as [Hpos Hend].
  destruct (ordered_lookup found 0 _ _ _ _ _ _ _ _ Hord Hspan H1 H2 Hpos)
    as [_ Hle].
  rewrite Hlines, Hsl, !locateLine_lines.
  rewrite Nat.max_0_r.
  pose proof (lineTotal_take (sym_text s) o1 (o2 + n2 - 1) Hle) as Hmono.
  assert (1 <= lineTotal (take o1 (sym_text s)))%nat
    by (unfold lineTotal; lia).
  unfold orElse. cbn [r_startLine r_endLine].
  destruct (Z.eqb_spec (sym_startLine s
                        + Z.of_nat (lineTotal (take o1 (sym_text s))) - 1) 0);
    [lia|].
  destruct (Z.eqb_spec (sym_startLine s
              + Z.of_nat (lineTotal (take (o2 + n2 - 1) (sym_text s))) - 1) 0);
    [lia|].
  lia.
Qed.

(** The line ranges reported for a clone pair found by the segment
    comparison lie inside the two symbols: for symbols that start at
    line 1 or later, each range starts no earlier than its symbol, ends
    no earlier than it starts, and ends within the lines of the symbol's
    text. *)
Theorem clone_ranges_within_symbols (rootPath : jsstring) (s t : symbol)
    (a b : enriched) (o : overlap) :
  enrichSymbol rootPath s = Some a ->
  enrichSymbol rootPath t = Some b ->
  computeSymbolOverlap a b = Some o ->
  (1 <= sym_startLine s)%Z -> (1 <= sym_startLine t)%Z ->
  let ra := segmentsToLines a (o_segmentsA o) in
  let rb := segmentsToLines b (o_segmentsB o) in
  (sym_startLine s <= r_startLine ra <= r_endLine ra)%Z
  /\ (r_endLine ra
      <= sym_startLine s + Z.of_nat (lineTotal (sym_text s)) - 1)%Z
  /\ (sym_startLine t <= r_startLine rb <= r_endLine rb)%Z
  /\ (r_endLine rb
      <= sym_startLine t + Z.of_nat (lineTotal (sym_text t)) - 1)%Z.
Proof.
  intros Ha Hb Ho Hs Ht.
  destruct (overlap_segments_facts a b o Ho)
    as (HneA & HneB & HA & HB & HsepA & HsepB).
  destruct (segmentsToLines_range rootPath s a (o_segmentsA o)
              Ha HneA HsepA HA Hs) as [H1 H2].
  destruct (segmentsToLines_range rootPath t b (o_segmentsB o)
              Hb HneB HsepB HB Ht) as [H3 H4].
  cbn zeta. done.
Qed.

Lemma clone_ranges_within_symbols_witness :
  exists a b o,
    enrichSymbol [] copy1 = Some a /\ enrichSymbol [] copy2 = Some b
    /\ computeSymbolOverlap a b = Some o
    /\ (1 <= r_startLine (segmentsToLines a (o_segmentsA o))
         <= r_endLine (segmentsToLines a (o_segmentsA o)))%Z.
Proof.
  destruct (enrichSymbol [] copy1) as [a|] eqn:Ha; [|by vm_compute in Ha].
  destruct (enrichSymbol [] copy2) as [b|] eqn:Hb; [|by vm_compute in Hb].
  destruct (computeSymbolOverlap a b) as [o|] eqn:Ho.
  - exists a, b, o. split; [done|]. split; [done|]. split; [done|].
    by destruct (clone_ranges_within_symbols [] copy1 copy2 a b o Ha Hb Ho
                   ltac:(cbn; lia) ltac:(cbn; lia)) as (H & _).
  - vm_compute in Ha, Hb. injection Ha as <-. injection Hb as <-.
    by vm_compute in Ho.
Defined.

End Ranges.

(** ** Sorting and top entries *)

Section Sorting.

Context {A : Type} (key : A -> Z).

Lemma insertDescending_perm (x : A) (l : list A) :
  JSArray.insertDescending key x l ≡ₚ x :: l.
Proof.
  induction l as [|y t IH]; cbn; [done|].
  destruct (_ <=? _)%Z; [done|]. rewrite IH. apply Permutation_swap.
Qed.

Lemma sortDescending_perm (l : list A) : JSArray.sortDescending key l ≡ₚ l.
Proof.
  induction l as [|x l IH]; cbn; [done|].
  by rewrite insertDescending_perm, IH.
Qed.

Lemma descending_cons (x : A) (l : list A) :
  descending key (x :: l)
  <-> (forall y, y ∈ l -> (key y <= key x)%Z) /\ descending key l.
Proof.
  split.
  - intros H. split.
    + intros y Hy. apply list_elem_of_lookup in Hy as [j Hj].
      by apply (H 0%nat (S j) x y); [lia|..].
    + intros i j a b Hij Hi Hj. by apply (H (S i) (S j) a b); [lia|..].
  - intros [Hx Hl] i j a b Hij Hi Hj.
    destruct i as [|i], j as [|j]; cbn in Hi, Hj.
    + injection Hi as <-. injection Hj as <-. lia.
    + injection Hi as <-. apply Hx. by eapply list_elem_of_lookup_2.
    + lia.
    + by apply (Hl i j a b); [lia|..].
Qed.

Lemma insertDescending_sorted (x : A) (l : list A) :
  descending key l -> descending key (JSArray.insertDescending key x l).
Proof.
  induction l as [|y t IH]; intros Hl; cbn.
  - apply descending_cons. split; [by intros ? ?%elem_of_nil|done].
  - apply descending_cons in Hl as [Hy Ht].
    destruct (Z.leb_spec (key y) (key x)) as [Hle|Hgt].
    + apply descending_cons. split.
      * intros z [->|Hz]%elem_of_cons; [done|]. specialize (Hy z Hz). lia.
      * by apply descending_cons.
    + apply descending_cons. split; [|by apply IH].
      intros z Hz. rewrite insertDescending_perm in Hz.
      apply elem_of_cons in Hz as [->|Hz]; [lia|by apply Hy].
Qed.

Lemma sortDescending_sorted (l : list A) :
  descending key (JSArray.sortDescending key l).
Proof.
  induction l as [|x l IH]; cbn; [by intros i j x y _ ?|].
  by apply insertDescending_sorted.
Qed.

Lemma descending_take (n : nat) (l : list A) :
  descending key l -> descending key (take n l).
Proof.
  intros H i j x y Hij Hi Hj.
  apply lookup_take_Some in Hi as [Hi _].
  apply lookup_take_Some in Hj as [Hj _]. by apply (H i j).
Qed.

(** The first [n] entries of a descending list are its top entries. *)
Lemma descending_top (n : nat) (l : list A) (x y : A) :
  descending key l -> x ∈ take n l -> y ∈ l -> (key x < key y)%Z ->
  y ∈ take n l.
Proof.
  intros H Hx Hy Hlt.
  apply list_elem_of_lookup in Hx as [i Hi].
  apply lookup_take_Some in Hi as [Hi Hin].
  apply list_elem_of_lookup in Hy as [j Hj].
  destruct (decide (j < n)%nat) as [Hjn|Hjn].
  - apply list_elem_of_lookup. exists j. by apply lookup_take_Some.
  - specialize (H i j x y ltac:(lia) Hi Hj). lia.
Qed.

End Sorting.

(** ** Dependency insights *)

Section Insights.

Import DependencyInsights.

Lemma bump_fold (toks : list jsstring) :
  fold_left bump toks [] = buildTokenCounts toks.
Proof. reflexivity. Qed.

Lemma edgeStep_maps (st : maps) (e : dependencyEdge) :
  fanOutMap (edgeStep st e)
  = match countsOut e with
    | Some k => bump (fanOutMap st) k
    | None => fanOutMap st
    end
  /\ fanInMap (edgeStep st e)
     = match countsIn e with
       | Some k => bump (fanInMap st) k
       | None => fanInMap st
       end
  /\ externalMap (edgeStep st e)
     = match countsExternal e with
       | Some k => bump (externalMap st) k
       | None => externalMap st
       end.
Proof.
  unfold edgeStep, countsOut, countsIn, countsExternal.
  destruct (JS.truthy (dep_source e)), (eqb (dep_kind e) (str "local")),
    (JS.truthy (dep_target e)), (eqb (dep_kind e) (str "external"));
    cbn [negb andb]; try done;
    destruct (extractPackageName (dep_target e)) as [pkg|]; try done;
    by destruct (JS.truthy pkg).
Qed.

Lemma edgeStep_fold (edges : list dependencyEdge) (st : maps) :
  let st' := fold_left edgeStep edges st in
  fanOutMap st' = fold_left bump (omap countsOut edges) (fanOutMap st)
  /\ fanInMap st' = fold_left bump (omap countsIn edges) (fanInMap st)
  /\ externalMap st'
     = fold_left bump (omap countsExternal edges) (externalMap st).
Proof.
  revert st. induction edges as [|e edges IH]; intros st; [done|].
  cbn [fold_left omap list_omap]. specialize (IH (edgeStep st e)).
  cbn zeta in *. destruct IH as (-> & -> & ->).
  destruct (edgeStep_maps st e) as (-> & -> & ->).
  by destruct (countsOut e), (countsIn e), (countsExternal e).
Qed.

Lemma count_omap (sel : dependencyEdge -> option jsstring)
    (edges : list dependencyEdge) (p : jsstring) :
  count p (omap sel edges) = degree sel edges p.
Proof.
  unfold count, degree. induction edges as [|e edges IH]; [done|].
  cbn [omap list_omap List.filter].
  destruct (sel e) as [k|] eqn:Hk.
  - cbn [List.filter]. unfold eqb at 1.
    destruct (decide (k = p)) as [->|Hne].
    + rewrite !bool_decide_eq_true_2 by done. cbn. by rewrite IH.
    + rewrite !bool_decide_eq_false_2 by congruence. done.
  - rewrite bool_decide_eq_false_2 by done. done.
Qed.

Lemma omap_get_elem (m : list (jsstring * nat)) (k : jsstring) (v : nat) :
  OMap.get m k = Some v -> (k, v) ∈ m.
Proof.
  induction m as [|[k' v'] m IH]; [done|]. cbn [OMap.get].
  case_decide as Hk.
  - intros [= <-]. subst. in_head.
  - intros H. apply elem_of_cons. right. by apply IH.
Qed.

(** What [pickTopEntries] gives for the map that counts the selected
    edges. *)
Lemma pickTopEntries_counts (sel : dependencyEdge -> option jsstring)
    (edges : list dependencyEdge) :
  let r := pickTopEntries (fold_left bump (omap sel edges) []) in
  (length r <= MAX_ITEMS)%nat
  /\ NoDup (List.map fst r)
  /\ descending (fun e => Z.of_nat (snd e)) r
  /\ (forall p c, (p, c) ∈ r -> c = degree sel edges p /\ (0 < c)%nat)
  /\ (forall p c q, (p, c) ∈ r -> (c < degree sel edges q)%nat ->
        (q, degree sel edges q) ∈ r).
Proof.
  rewrite bump_fold. set (toks := omap sel edges).
  set (m := buildTokenCounts toks).
  destruct (buildTokenCounts_keys toks) as [Hnd Hkeys]. fold m in Hnd, Hkeys.
  assert (Hget : forall p c, (p, c) ∈ m <-> OMap.get m p = Some c).
  { intros p c. split; [by apply omap_NoDup_get|apply omap_get_elem]. }
  assert (Hcount : forall p c, (p, c) ∈ m
            <-> c = degree sel edges p /\ (0 < c)%nat).
  { intros p c. rewrite Hget. unfold m, toks. rewrite buildTokenCounts_get.
    rewrite (count_omap sel edges p). case_decide; split.
    - done.
    - intros [-> ?]. lia.
    - intros [= <-]. split; [done|lia].
    - by intros [-> _]. }
  unfold pickTopEntries. cbn zeta.
  set (sorted := JSArray.sortDescending (fun e => Z.of_nat (snd e)) m).
  assert (Hperm : sorted ≡ₚ m) by apply sortDescending_perm.
  assert (Hsub : forall e, e ∈ firstn MAX_ITEMS sorted -> e ∈ m).
  { intros e He. rewrite <- Hperm. by eapply subseteq_take. }
  split; [apply firstn_le_length|]. split.
  { change (@List.map) with (@fmap list _). change (@firstn) with (@take).
    rewrite fmap_take. apply (sublist_NoDup _ (fst <$> sorted)).
    - rewrite Hperm. exact Hnd.
    - apply sublist_take. }
  split; [apply descending_take, sortDescending_sorted|]. split.
  - intros p c Hin. by apply Hcount, Hsub.
  - intros p c q Hin Hlt.
    apply (descending_top (fun e => Z.of_nat (snd e)) MAX_ITEMS sorted (p, c));
      [apply sortDescending_sorted|done| |cbn; lia].
    rewrite Hperm. apply Hcount. split; [done|lia].
Qed.

(** The fan-out and fan-in lists of the dependency insights: at most
    five entries each, one per file, in descending order of their
    counts; the count of a file is the number of edges it is the source
    of (fan-out) or the number of local edges it is the target of
    (fan-in), and a file with a larger count than a listed one is
    listed as well. *)
Theorem dependency_insights_top_counts (edges : list dependencyEdge) :
  let r := computeDependencyInsights edges in
  ((length (fanOut r) <= MAX_ITEMS)%nat
   /\ NoDup (List.map fst (fanOut r))
   /\ descending (fun e => Z.of_nat (snd e)) (fanOut r)
   /\ (forall p c, (p, c) ∈ fanOut r ->
         c = degree countsOut edges p /\ (0 < c)%nat)
   /\ (forall p c q, (p, c) ∈ fanOut r ->
         (c < degree countsOut edges q)%nat ->
         (q, degree countsOut edges q) ∈ fanOut r))
  /\ ((length (fanIn r) <= MAX_ITEMS)%nat
      /\ NoDup (List.map fst (fanIn r))
      /\ descending (fun e => Z.of_nat (snd e)) (fanIn r)
      /\ (forall p c, (p, c) ∈ fanIn r ->
            c = degree countsIn edges p /\ (0 < c)%nat)
      /\ (forall p c q, (p, c) ∈ fanIn r ->
            (c < degree countsIn edges q)%nat ->
            (q, degree countsIn edges q) ∈ fanIn r)).
Proof.
  unfold computeDependencyInsights. cbn zeta. cbn [fanOut fanIn].
  destruct (edgeStep_fold edges (Maps [] [] [])) as (-> & -> & _).
  cbn [fanOutMap fanInMap].
  split; apply pickTopEntries_counts.
Qed.

End Insights.

(** ** Splitting and joining *)

Section Splitting.

Variable sep : N.

Lemma split_on_cons (c : N) (t : jsstring) :
  split_on sep (c :: t)
  = if (c =? sep)%N then [] :: split_on sep t
    else match split_on sep t with
         | h :: r => (c :: h) :: r
         | [] => [[c]]
         end.
Proof. reflexivity. Qed.

Lemma split_on_nonempty (s : jsstring) : split_on sep s <> [].
Proof.
  induction s as [|c t IH]; [done|]. rewrite split_on_cons.
  destruct (c =? sep)%N; [done|]. by destruct (split_on sep t).
Qed.

Lemma split_on_no_sep (s piece : jsstring) :
  piece ∈ split_on sep s -> sep ∉ piece.
Proof.
  revert piece. induction s as [|c t IH]; intros piece.
  - cbn. intros ->%list_elem_of_singleton. apply not_elem_of_nil.
  - rewrite split_on_cons. destruct (N.eqb_spec c sep) as [->|Hc].
    + intros [->|Hin]%elem_of_cons; [apply not_elem_of_nil|by apply IH].
    + destruct (split_on sep t) as [|h r] eqn:Hs.
      { by destruct (split_on_nonempty t). }
      intros [->|Hin]%elem_of_cons.
      * intros [?|Hh]%elem_of_cons; [congruence|].
        revert Hh. apply IH. in_head.
      * apply IH. in_tail.
Qed.

Lemma join_split (s : jsstring) : join [sep] (split_on sep s) = s.
Proof.
  induction s as [|c t IH]; [done|]. rewrite split_on_cons.
  destruct (N.eqb_spec c sep) as [->|Hc].
  - destruct (split_on sep t) as [|h r] eqn:Hs.
    { by destruct (split_on_nonempty t). }
    rewrite <- IH. reflexivity.
  - destruct (split_on sep t) as [|h r] eqn:Hs.
    { by destruct (split_on_nonempty t). }
    rewrite <- IH. by destruct r.
Qed.

Lemma split_on_app (a b : jsstring) :
  split_on sep (a ++ sep :: b) = split_on sep a ++ split_on sep b.
Proof.
  induction a as [|c a IH].
  - cbn [app]. rewrite split_on_cons, N.eqb_refl. done.
  - cbn [app]. rewrite !split_on_cons, IH.
    destruct (c =? sep)%N; [done|].
    destruct (split_on sep a) as [|h r] eqn:Hs; [|done].
    by destruct (split_on_nonempty a).
Qed.

Lemma split_on_piece (piece : jsstring) :
  sep ∉ piece -> split_on sep piece = [piece].
Proof.
  induction piece as [|c t IH]; intros Hn; [done|].
  rewrite split_on_cons. destruct (N.eqb_spec c sep) as [->|Hc].
  - destruct Hn. in_head.
  - rewrite IH; [done|]. intros Hin. apply Hn. in_tail.
Qed.

Lemma split_join (pieces : list jsstring) :
  pieces <> [] -> (forall piece, piece ∈ pieces -> sep ∉ piece) ->
  split_on sep (join [sep] pieces) = pieces.
Proof.
  induction pieces as [|p r IH]; intros Hne Hall; [done|].
  destruct r as [|q r].
  - cbn [join]. apply split_on_piece, Hall. in_head.
  - change (join [sep] (p :: q :: r)) with (p ++ sep :: join [sep] (q :: r)).
    rewrite split_on_app, split_on_piece by (apply Hall; in_head).
    cbn [app]. f_equal. apply IH; [done|].
    intros piece Hin. apply Hall. in_tail.
Qed.

End Splitting.

(** ** Static files *)

Section StaticFiles.

Import NodePath StaticServer.

Lemma normalizeString_clean (segments : list jsstring) :
  forall seg, seg ∈ normalizeString false segments ->
    cleanSegment seg /\ seg ∈ segments.
Proof.
  unfold normalizeString.
  assert (H : forall stack : list jsstring,
            (forall seg, seg ∈ stack -> cleanSegment seg /\ seg ∈ segments) ->
            forall more, (forall seg, seg ∈ more -> seg ∈ segments) ->
            forall seg,
              seg ∈ fold_left
                      (fun stack seg =>
                         if eqb seg [] || eqb seg (str ".") then stack
                         else if eqb seg (str "..") then
                           match stack with
                           | top :: below =>
                               if eqb top (str "..") then stack else below
                           | [] => []
                           end
                         else seg :: stack) more stack ->
              cleanSegment seg /\ seg ∈ segments).
  { intros stack Hstack more. revert stack Hstack.
    induction more as [|x more IH]; intros stack Hstack Hmore seg; [apply Hstack|].
    cbn [fold_left]. apply IH; [|intros ? ?; apply Hmore; in_tail].
    unfold eqb. repeat case_bool_decide; cbn [orb]; try done.
    - destruct stack as [|top below]; [by intros ? ?%elem_of_nil|].
      case_bool_decide; [done|]. intros s Hs. apply Hstack. in_tail.
    - intros s [->|Hs]%elem_of_cons; [|by apply Hstack].
      split; [done|]. apply Hmore. in_head. }
  intros seg Hin. apply list_elem_of_In, in_rev, list_elem_of_In in Hin.
  by apply (H [] ltac:(by intros ? ?%elem_of_nil) segments).
Qed.

(** Segments that are empty or clean are appended as they are. *)
Lemma normalizeSegments_app (A B : list jsstring) :
  Forall (fun seg => seg = [] \/ cleanSegment seg) B ->
  normalizeSegments (A ++ B)
  = normalizeSegments A ++ List.filter JS.truthy B.
Proof.
  unfold normalizeSegments. rewrite fold_left_app.
  generalize (fold_left
                (fun stack seg =>
                   if eqb seg [] || eqb seg (str ".") then stack
                   else if eqb seg (str "..") then tl stack
                   else seg :: stack) A []).
  intros stack HB. revert stack.
  induction HB as [|x B Hx _ IH]; intros stack.
  - cbn. by rewrite app_nil_r.
  - cbn [fold_left List.filter]. rewrite IH.
    destruct Hx as [->|(Hne & Hdot & Hdots)].
    + done.
    + unfold eqb. rewrite !bool_decide_eq_false_2 by done. cbn [orb].
      destruct x; [done|]. cbn [JS.truthy rev].
      by rewrite <- app_assoc.
Qed.

Lemma join_app (sep : jsstring) (A B : list jsstring) :
  A <> [] -> B <> [] ->
  join sep (A ++ B) = join sep A ++ sep ++ join sep B.
Proof.
  induction A as [|a A IH]; intros HA HB; [done|].
  destruct A as [|a' A].
  - destruct B; [done|]. done.
  - change (join sep ((a :: a' :: A) ++ B))
      with (a ++ sep ++ join sep ((a' :: A) ++ B)).
    rewrite IH by done. change (join sep (a :: a' :: A))
      with (a ++ sep ++ join sep (a' :: A)).
    by rewrite <- !app_assoc.
Qed.

Lemma startsWith_app (p s : jsstring) : startsWith (p ++ s) p = true.
Proof.
  induction p as [|c p IH]; [by destruct s|]. cbn. by rewrite N.eqb_refl.
Qed.

Lemma startsWith_refl (p : jsstring) : startsWith p p = true.
Proof. induction p as [|c p IH]; [done|]. cbn. by rewrite N.eqb_refl. Qed.

Lemma filter_truthy_clean (segs : list jsstring) :
  Forall cleanSegment segs -> List.filter JS.truthy segs = segs.
Proof.
  induction 1 as [|x l [Hx _] _ IH]; [done|]. cbn.
  destruct x; [done|]. cbn. by rewrite IH.
Qed.

(** Where [path.resolve(PUBLIC_DIR, sanitizePath(p))] lands for a path
    [p] that starts with a slash. *)
Lemma served_path_inside (cwd PUBLIC_DIR relativePath : jsstring) :
  resolve cwd [PUBLIC_DIR] = PUBLIC_DIR ->
  startsWith relativePath (str "/") = true ->
  insideRoot PUBLIC_DIR (resolve cwd [PUBLIC_DIR; sanitizePath relativePath])
  = true
  /\ startsWith (resolve cwd [PUBLIC_DIR; sanitizePath relativePath])
       PUBLIC_DIR = true.
Proof.
  intros Hpub Hrel.
  destruct relativePath as [|c r]; [done|].
  assert (c = slash) as ->.
  { change (str "/") with [slash] in Hrel. cbn [startsWith] in Hrel.
    apply andb_true_iff in Hrel as [Hc _]. by apply N.eqb_eq in Hc. }
  clear Hrel.
  destruct PUBLIC_DIR as [|d pd] eqn:HP; [done|].
  assert (d = slash) as -> by (unfold resolve in Hpub; congruence).
  set (X := split_on slash (slash :: pd)).
  assert (HPA : slash :: pd = slash :: join [slash] (normalizeSegments X)).
  { rewrite <- Hpub at 1. unfold resolve. cbn [rev app joinUntilAbsolute].
    rewrite N.eqb_refl. f_equal. f_equal.
    change (slash :: pd ++ [slash]) with ((slash :: pd) ++ [slash]).
    rewrite (split_on_app slash (slash :: pd) []). fold X.
    rewrite normalizeSegments_app; [by rewrite app_nil_r|].
    constructor; [by left|constructor]. }
  set (segs := normalizeString false (split_on slash (slash :: r))).
  assert (Hclean : Forall cleanSegment segs).
  { rewrite Forall_forall. intros seg Hin.
    by apply normalizeString_clean in Hin as [? _]. }
  assert (Hnoslash : forall seg, seg ∈ segs -> slash ∉ seg).
  { intros seg Hin. apply normalizeString_clean in Hin as [_ Hin].
    by apply split_on_no_sep in Hin. }
  assert (Hsafe : sanitizePath (slash :: r) = []
                  \/ segs <> []
                     /\ exists tail, (tail = [] \/ tail = [slash])
                          /\ sanitizePath (slash :: r)
                             = join [slash] segs ++ tail).
  { unfold sanitizePath, normalize. rewrite N.eqb_refl. cbn [negb].
    fold segs. cbn zeta.
    destruct (join [slash] segs) as [|j js] eqn:Hj; [by left|].
    right. split; [by intros Hs; rewrite Hs in Hj|].
    destruct (match last (slash :: r) with
              | Some l => (l =? slash)%N
              | None => false
              end).
    - exists [slash]. split; [by right|]. done.
    - exists []. split; [by left|]. cbn. by rewrite app_nil_r. }
  destruct Hsafe as [->|(Hne & tail & Htail & ->)].
  { unfold resolve in *. cbn [rev app joinUntilAbsolute] in *.
    rewrite Hpub. split; [|apply startsWith_refl].
    unfold insideRoot, eqb. by rewrite bool_decide_eq_true_2. }
  assert (Hfirst : exists c0 rest0, join [slash] segs ++ tail = c0 :: rest0
                                    /\ c0 <> slash).
  { destruct segs as [|seg segs']; [done|].
    apply Forall_cons in Hclean as [[Hseg _] _].
    destruct seg as [|c0 seg]; [done|].
    exists c0. assert (c0 <> slash).
    { intros ->. apply (Hnoslash (slash :: seg)); in_head. }
    destruct segs'; eexists; (split; [reflexivity|done]). }
  destruct Hfirst as (c0 & rest0 & Hjoin & Hc0).
  assert (Hres : resolve cwd [slash :: pd; join [slash] segs ++ tail]
                 = slash :: join [slash] (normalizeSegments X ++ segs)).
  { unfold resolve.
    change (rev [slash :: pd; join [slash] segs ++ tail])
      with [join [slash] segs ++ tail; slash :: pd].
    rewrite Hjoin. cbn [joinUntilAbsolute].
    rewrite (proj2 (N.eqb_neq c0 slash)) by done.
    cbn [joinUntilAbsolute]. rewrite N.eqb_refl. rewrite <- Hjoin.
    f_equal. f_equal.
    change ([slash] ++ (join [slash] segs ++ tail) ++ [slash] ++ [])
      with (slash :: (join [slash] segs ++ tail) ++ slash :: []).
    rewrite (split_on_app slash (slash :: pd)
               ((join [slash] segs ++ tail) ++ slash :: [])).
    rewrite (split_on_app slash (join [slash] segs ++ tail) []). fold X.
    assert (Hsplit : split_on slash (join [slash] segs ++ tail) ++ [[]]
                     = segs ++ (if decide (tail = []) then [[]]
                                else [[]; []])).
    { destruct Htail as [->| ->].
      - rewrite app_nil_r, split_join by done. done.
      - change (join [slash] segs ++ [slash])
          with (join [slash] segs ++ slash :: []).
        rewrite split_on_app, split_join by done.
        cbn. by rewrite <- app_assoc. }
    cbn [split_on]. rewrite Hsplit.
    rewrite normalizeSegments_app.
    - f_equal. rewrite List.filter_app, filter_truthy_clean by done.
      destruct (decide (tail = [])); cbn; by rewrite app_nil_r.
    - apply Forall_app. split.
      + eapply Forall_impl; [exact Hclean|]. by right.
      + destruct (decide (tail = [])); repeat constructor. }
  rewrite Hres. clear Hres Hpub. clearbody X. injection HPA as ->.
  destruct (normalizeSegments X) as [|p0 P] eqn:HX.
  - split; [|exact (startsWith_app [slash] _)]. cbn [join]. unfold insideRoot, eqb.
    rewrite (bool_decide_eq_true_2 ([slash] = [slash])) by done.
    by rewrite orb_true_r.
  - rewrite join_app by done.
    replace (slash :: join [slash] (p0 :: P) ++ [slash] ++ join [slash] segs)
      with (((slash :: join [slash] (p0 :: P)) ++ [slash])
            ++ join [slash] segs)
      by (by rewrite <- app_assoc).
    split.
    + unfold insideRoot. apply orb_true_iff. right. apply startsWith_app.
    + rewrite <- app_assoc. apply startsWith_app.
Qed.

(** Static files are served from the public directory only: for a
    request path that starts with a slash, as every URL pathname does,
    and a public directory given by its resolved absolute path, the
    file handed to [fs.readFile] is the public directory or lies below
    it, whatever [".."] segments the path holds; the request is never
    answered with 403. *)
Theorem static_files_stay_in_public_dir (cwd PUBLIC_DIR : jsstring)
    (readFile : jsstring -> readOutcome) (relativePath : jsstring) :
  resolve cwd [PUBLIC_DIR] = PUBLIC_DIR ->
  startsWith relativePath (str "/") = true ->
  exists filePath,
    insideRoot PUBLIC_DIR filePath = true
    /\ serveStaticFile cwd PUBLIC_DIR readFile relativePath
       = match readFile filePath with
         | Enoent => JsonError 404 (str "Not found")
         | OtherError => JsonError 500 (str "Internal server error")
         | Data bytes => FileBody (getMimeType filePath) bytes
         end.
Proof.
  intros Hpub Hrel.
  destruct (served_path_inside cwd PUBLIC_DIR relativePath Hpub Hrel)
    as [Hin Hstarts].
  exists (resolve cwd [PUBLIC_DIR; sanitizePath relativePath]).
  split; [done|]. unfold serveStaticFile. cbn zeta. by rewrite Hstarts.
Qed.

Lemma static_files_stay_in_public_dir_witness :
  exists filePath,
    insideRoot (str "/srv/app/public") filePath = true
    /\ serveStaticFile (str "/srv/app/server") (str "/srv/app/public")
         onlyIndex (str "/../../etc/passwd")
       = match onlyIndex filePath with
         | Enoent => JsonError 404 (str "Not found")
         | OtherError => JsonError 500 (str "Internal server error")
         | Data bytes => FileBody (getMimeType filePath) bytes
         end.
Proof.
  apply (static_files_stay_in_public_dir (str "/srv/app/server")
           (str "/srv/app/public") onlyIndex (str "/../../etc/passwd"));
    reflexivity.
Defined.

End StaticFiles.

(** ** Project summary *)

Section Summary.

Import ProjectAnalyzer.

Variable metricsByFile : gmap jsstring FileMetrics.fileMetrics.

Lemma filesIn_snoc (language : jsstring) (files : list Fs.file) (f : Fs.file) :
  filesIn language (files ++ [f])
  = filesIn language files
    ++ (if eqb (Language.detectLanguage (Fs.f_ext f)) language
        then [f] else []).
Proof. unfold filesIn. by rewrite List.filter_app. Qed.

Lemma sumN_app {A : Type} (g : A -> N) (l1 l2 : list A) :
  sumN g (l1 ++ l2) = (sumN g l1 + sumN g l2)%N.
Proof.
  induction l1 as [|x l IH]; [done|].
  change (sumN g ((x :: l) ++ l2)) with (g x + sumN g (l ++ l2))%N.
  change (sumN g (x :: l)) with (g x + sumN g l)%N. rewrite IH. lia.
Qed.

Lemma entryFor_step (language : jsstring) (files : list Fs.file)
    (f : Fs.file) :
  Language.detectLanguage (Fs.f_ext f) = language ->
  entryFor metricsByFile language (files ++ [f])
  = LanguageEntry language
      (l_files (entryFor metricsByFile language files) + 1)
      (match metricsByFile !! Fs.f_path f with
       | Some metrics =>
           match FileMetrics.lineCount metrics with
           | Some (S n) =>
               (l_lines (entryFor metricsByFile language files) + S n)%nat
           | _ => l_lines (entryFor metricsByFile language files)
           end
       | None => l_lines (entryFor metricsByFile language files)
       end)
      (l_bytes (entryFor metricsByFile language files) + Fs.f_size f).
Proof.
  intros Hl. unfold entryFor. rewrite filesIn_snoc. unfold eqb.
  rewrite bool_decide_eq_true_2 by done.
  rewrite length_app, sum_list_with_app, sumN_app.
  cbn [l_files l_lines l_bytes length sum_list_with sumN fold_right].
  f_equal; try lia. unfold lineCountOf.
  destruct (metricsByFile !! Fs.f_path f) as [m|]; [|lia].
  destruct (FileMetrics.lineCount m) as [[|n]|]; cbn; lia.
Qed.

Lemma entryFor_other (language : jsstring) (files : list Fs.file)
    (f : Fs.file) :
  Language.detectLanguage (Fs.f_ext f) <> language ->
  entryFor metricsByFile language (files ++ [f])
  = entryFor metricsByFile language files
  /\ filesIn language (files ++ [f]) = filesIn language files.
Proof.
  intros Hl. unfold entryFor. rewrite filesIn_snoc. unfold eqb.
  rewrite bool_decide_eq_false_2 by done. by rewrite app_nil_r.
Qed.

Lemma omap_set_NoDup {V : Type} (m : list (jsstring * V)) (k : jsstring)
    (v : V) :
  NoDup (OMap.keys m) -> NoDup (OMap.keys (OMap.set m k v)).
Proof.
  intros Hnd. rewrite omap_keys_set. case_decide as Hin; [done|].
  apply NoDup_app. split; [done|]. split; [|apply NoDup_singleton].
  intros x Hx ->%list_elem_of_singleton. done.
Qed.

(** The map of [aggregateLanguages] after the loop: one entry per
    language that has files, holding their number, lines and bytes. *)
Lemma languageStep_fold (files : list Fs.file) :
  let counts := fold_left (languageStep metricsByFile) files [] in
  NoDup (OMap.keys counts)
  /\ forall language,
       OMap.get counts language
       = if decide (filesIn language files = []) then None
         else Some (entryFor metricsByFile language files).
Proof.
  induction files as [|f files IH] using rev_ind.
  - cbn. split; [constructor|]. intros language. by case_decide.
  - rewrite fold_left_app. cbn [fold_left]. cbn zeta in *.
    set (counts := fold_left (languageStep metricsByFile) files []) in *.
    destruct IH as [Hnd Hget]. unfold languageStep.
    set (lang := Language.detectLanguage (Fs.f_ext f)).
    set (counts' := if OMap.has counts lang then counts
                    else OMap.set counts lang (LanguageEntry lang 0 0 0)).
    assert (Hnd' : NoDup (OMap.keys counts')).
    { unfold counts'. destruct (OMap.has counts lang); [done|].
      by apply omap_set_NoDup. }
    assert (Hget' : forall language,
              OMap.get counts' language
              = if decide (lang = language)
                then Some (entryFor metricsByFile lang files)
                else OMap.get counts language).
    { intros language. unfold counts', OMap.has.
      destruct (OMap.get counts lang) as [e|] eqn:He.
      - case_decide as Hl; [|done]. subst language. rewrite He.
        rewrite Hget in He. by case_decide.
      - rewrite omap_get_set. case_decide as Hl; [|done].
        rewrite Hget in He. case_decide as Hnil; [|done].
        unfold entryFor. by rewrite Hnil. }
    cbn zeta. rewrite (Hget' lang). rewrite decide_True by done.
    split; [by apply omap_set_NoDup|].
    intros language. rewrite omap_get_set.
    destruct (decide (lang = language)) as [<-|Hne].
    + rewrite decide_False.
      * f_equal. by rewrite (entryFor_step lang files f eq_refl).
      * rewrite filesIn_snoc. unfold eqb. rewrite bool_decide_eq_true_2 by done.
        by destruct (filesIn lang files).
    + rewrite Hget', decide_False by done. rewrite Hget.
      destruct (entryFor_other language files f Hne) as [-> ->]. done.
Qed.

Lemma omap_set_sum {V : Type} (g : V -> nat) (m : list (jsstring * V))
    (k : jsstring) (v : V) :
  (sum_list_with g (List.map snd (OMap.set m k v))
   + match OMap.get m k with Some old => g old | None => 0 end
   = sum_list_with g (List.map snd m) + g v)%nat.
Proof.
  induction m as [|[k' v'] m IH]; cbn; [lia|].
  case_decide; cbn; lia.
Qed.

Lemma omap_set_sumN {V : Type} (g : V -> N) (m : list (jsstring * V))
    (k : jsstring) (v : V) :
  (sumN g (List.map snd (OMap.set m k v))
   + match OMap.get m k with Some old => g old | None => 0 end
   = sumN g (List.map snd m) + g v)%N.
Proof.
  unfold sumN. induction m as [|[k' v'] m IH]; cbn; [lia|].
  case_decide; cbn; lia.
Qed.

(** The loop adds every file to exactly one entry. *)
Lemma languageStep_totals (files : list Fs.file) :
  let entries :=
    List.map snd (fold_left (languageStep metricsByFile) files []) in
  sum_list_with l_files entries = length files
  /\ sumN l_bytes entries = sumN Fs.f_size files.
Proof.
  induction files as [|f files IH] using rev_ind; [done|].
  rewrite fold_left_app. cbn [fold_left]. cbn zeta in *.
  set (counts := fold_left (languageStep metricsByFile) files []) in *.
  destruct IH as [IHf IHb]. unfold languageStep.
  generalize (Language.detectLanguage (Fs.f_ext f)). intros lang.
  set (zero := LanguageEntry lang 0 0 0).
  set (counts' := if OMap.has counts lang then counts
                  else OMap.set counts lang zero).
  assert (Hsame : sum_list_with l_files (List.map snd counts')
                  = sum_list_with l_files (List.map snd counts)
                  /\ sumN l_bytes (List.map snd counts')
                     = sumN l_bytes (List.map snd counts)
                  /\ exists entry, OMap.get counts' lang = Some entry).
  { unfold counts', OMap.has.
    destruct (OMap.get counts lang) as [e|] eqn:He; [eauto|].
    pose proof (omap_set_sum l_files counts lang zero) as H1.
    pose proof (omap_set_sumN l_bytes counts lang zero) as H2.
    rewrite He in H1, H2. subst zero.
    cbn [l_files l_bytes] in H1, H2.
    split; [lia|]. split; [lia|].
    rewrite omap_get_set, decide_True by done. eauto. }
  destruct Hsame as (Hf & Hb & entry & Hentry). rewrite Hentry.
  set (updated := LanguageEntry _ _ _ _).
  pose proof (omap_set_sum l_files counts' lang updated) as H1.
  pose proof (omap_set_sumN l_bytes counts' lang updated) as H2.
  rewrite Hentry in H1, H2. cbn [l_files l_bytes updated] in H1, H2.
  rewrite length_app, sumN_app. cbn [length sumN fold_right]. split; lia.
Qed.

(** The language breakdown: one entry per language that has files, with
    the number of its files, the sum of their line counts and the sum
    of their sizes; the entries are in descending order of their file
    counts, and their file counts and bytes add up to the number of
    files and the total size. *)
Theorem language_breakdown_adds_up (files : list Fs.file) :
  let r := aggregateLanguages files metricsByFile in
  descending (fun e => Z.of_nat (l_files e)) r
  /\ NoDup (List.map l_language r)
  /\ (forall e, e ∈ r <->
        filesIn (l_language e) files <> []
        /\ e = entryFor metricsByFile (l_language e) files)
  /\ sum_list_with l_files r = length files
  /\ sumN l_bytes r = sumN Fs.f_size files.
Proof.
  unfold aggregateLanguages. cbn zeta.
  destruct (languageStep_fold files) as [Hnd Hget].
  destruct (languageStep_totals files) as [Hf Hb].
  set (counts := fold_left (languageStep metricsByFile) files []) in *.
  set (sorted := JSArray.sortDescending _ _).
  assert (Hperm : sorted ≡ₚ List.map snd counts) by apply sortDescending_perm.
  assert (Hin : forall language e, (language, e) ∈ counts
            <-> filesIn language files <> []
                /\ e = entryFor metricsByFile language files).
  { intros language e. split.
    - intros H. apply (omap_NoDup_get _ _ _ Hnd) in H.
      rewrite Hget in H. case_decide; [done|]. by injection H as <-.
    - intros [Hne ->]. specialize (Hget language).
      rewrite decide_False in Hget by done.
      clear -Hget. induction counts as [|[k v] m IH]; [done|].
      cbn [OMap.get] in Hget. case_decide.
      + injection Hget as ->. subst. in_head.
      + apply elem_of_cons. right. by apply IH. }
  assert (Hkey : forall language e, (language, e) ∈ counts ->
            l_language e = language).
  { intros language e H. apply Hin in H as [_ ->]. done. }
  split; [apply sortDescending_sorted|]. split.
  { change (@List.map) with (@fmap list _) in *. rewrite Hperm.
    rewrite <- list_fmap_compose.
    assert (Heq : (l_language ∘ snd) <$> counts = fst <$> counts).
    { apply list_fmap_ext. intros i [k v] Hi. cbn.
      apply Hkey. by eapply list_elem_of_lookup_2. }
    rewrite Heq. exact Hnd. }
  split.
  { intros e. rewrite Hperm. change (@List.map) with (@fmap list _).
    rewrite list_elem_of_fmap. split.
    - intros ([k v] & -> & H). cbn [snd].
      rewrite (Hkey _ _ H). by apply Hin.
    - intros H. exists (l_language e, e). split; [done|]. by apply Hin. }
  split.
  - rewrite <- Hf. by rewrite Hperm.
  - rewrite <- Hb. clear -Hperm. unfold sumN.
    induction Hperm as [|x l l' _ IH|x y l|l l' l'' _ IH1 _ IH2]; cbn;
      [done|by rewrite IH|lia|congruence].
Qed.

End Summary.

Section LargestFiles.

Import ProjectAnalyzer.

(** The largest files of the summary: the first eight files in
    descending order of size, so at most eight, each an input file with
    its size and language, and every file larger than a listed one is
    listed too. *)
Theorem largest_files_are_top_eight (files : list Fs.file) :
  let r := largestFiles files in
  length r = Nat.min 8 (length files)
  /\ descending (fun e => Z.of_N (lf_size e)) r
  /\ (forall e, e ∈ r -> exists f, f ∈ files /\ e = asLargeFile f)
  /\ (forall e f, e ∈ r -> f ∈ files -> (lf_size e < Fs.f_size f)%N ->
        asLargeFile f ∈ r).
Proof.
  unfold largestFiles. cbn zeta.
  set (sorted := JSArray.sortDescending (fun f => Z.of_N (Fs.f_size f)) files).
  assert (Hperm : sorted ≡ₚ files) by apply sortDescending_perm.
  assert (Hsorted : descending (fun f => Z.of_N (Fs.f_size f)) sorted)
    by apply sortDescending_sorted.
  fold asLargeFile. change (@List.map) with (@fmap list _).
  change (@firstn) with (@take).
  split; [by rewrite length_fmap, length_take, Hperm|]. split.
  { intros i j x y Hij Hi Hj. rewrite list_lookup_fmap in Hi, Hj.
    destruct (take 8 sorted !! i) as [fi|] eqn:Hfi; [|done].
    destruct (take 8 sorted !! j) as [fj|] eqn:Hfj; [|done].
    injection Hi as <-. injection Hj as <-. cbn.
    by apply (descending_take _ 8 sorted Hsorted i j). }
  split.
  - intros e (f & -> & Hf)%list_elem_of_fmap. exists f. split; [|done].
    rewrite <- Hperm. by eapply subseteq_take.
  - intros e f (g & -> & Hg)%list_elem_of_fmap Hf Hlt.
    apply list_elem_of_fmap. exists f. split; [done|].
    apply (descending_top (fun f => Z.of_N (Fs.f_size f)) 8 sorted g f);
      [done|done|by rewrite Hperm|cbn in *; lia].
Qed.

End LargestFiles.

(** ** The structure graph *)

Section Graph.

Import GraphBuilder.

Lemma omap_set_elem {V : Type} (m : list (jsstring * V)) (k k' : jsstring)
    (v v' : V) :
  (k', v') ∈ OMap.set m k v -> (k', v') ∈ m \/ (k' = k /\ v' = v).
Proof.
  induction m as [|[k0 v0] m IH]; cbn [OMap.set].
  - intros [= -> ->]%list_elem_of_singleton. by right.
  - case_decide as Hk.
    + intros [[= -> ->]|Hin]%elem_of_cons; [by right|]. left. in_tail.
    + intros [Heq|Hin]%elem_of_cons; [left; rewrite Heq; in_head|].
      destruct (IH Hin) as [?|?]; [left; in_tail|by right].
Qed.

Lemma omap_set_keys {V : Type} (m : list (jsstring * V)) (k : jsstring)
    (v : V) :
  k ∈ OMap.keys (OMap.set m k v)
  /\ forall k', k' ∈ OMap.keys m -> k' ∈ OMap.keys (OMap.set m k v).
Proof.
  rewrite omap_keys_set. case_decide as Hin.
  - done.
  - split; [apply elem_of_app; right; in_head|].
    intros k' Hk'. apply elem_of_app. by left.
Qed.

Lemma keyed_set (kind : node -> Prop) (m : list (jsstring * node))
    (n : node) :
  keyed kind m -> kind n -> keyed kind (OMap.set m (nodeId n) n).
Proof.
  intros Hm Hn k n' Hin. apply omap_set_elem in Hin as [Hin|[-> ->]].
  - by apply Hm.
  - done.
Qed.

Lemma connects_mono (pk pk' fl fl' sy sy' : list jsstring) (e : edge) :
  (forall k, k ∈ pk -> k ∈ pk') -> (forall k, k ∈ fl -> k ∈ fl') ->
  (forall k, k ∈ sy -> k ∈ sy') ->
  connects pk fl sy e -> connects pk' fl' sy' e.
Proof. unfold connects. destruct (type e); naive_solver. Qed.

Lemma symbolStep_ok (id normalizedPath language : jsstring)
    (symbols : list symbol) :
  forall b byName,
    okBuild b -> id ∈ OMap.keys (fileNodes b) ->
    let r := fold_left (symbolStep id normalizedPath language) symbols
               (b, byName) in
    okBuild r.1
    /\ fileNodes r.1 = fileNodes b /\ packageNodes r.1 = packageNodes b
    /\ symbolDetails r.1 = symbolDetails b ++ symbols
    /\ incomingCalls r.1 = incomingCalls b
    /\ exportsByFile r.1 = exportsByFile b
    /\ importsByFile r.1 = importsByFile b.
Proof.
  induction symbols as [|s symbols IH]; intros b byName Hok Hid.
  - cbn. by rewrite app_nil_r.
  - cbn [fold_left].
    set (symbolNodes' :=
           if OMap.has (symbolNodes b) (sym_id s) then symbolNodes b
           else OMap.set (symbolNodes b) (sym_id s)
                  (SymbolNode (sym_id s) (sym_kind s) (sym_name s)
                     normalizedPath language (sym_startLine s)
                     (sym_endLine s))).
    set (b' := Build (fileNodes b) (packageNodes b) symbolNodes'
                 (edges b ++ [Edge id (sym_id s) defines])
                 (symbolDetails b ++ [s]) (incomingCalls b)
                 (exportsByFile b) (importsByFile b)).
    set (byName' :=
           if eqb (sym_kind s) (str "function")
              || eqb (sym_kind s) (str "component")
           then OMap.set byName (sym_name s) (sym_id s) else byName).
    change (symbolStep id normalizedPath language (b, byName) s)
      with (b', byName').
    destruct Hok as (Hf & Hp & Hs & He).
    assert (Hkeys : sym_id s ∈ OMap.keys symbolNodes'
                    /\ forall k, k ∈ OMap.keys (symbolNodes b) ->
                         k ∈ OMap.keys symbolNodes').
    { unfold symbolNodes', OMap.has.
      destruct (OMap.get (symbolNodes b) (sym_id s)) eqn:Hget.
      - split; [|done].
        destruct (decide (sym_id s ∈ OMap.keys (symbolNodes b))) as [|Hn];
          [done|]. apply omap_get_keys in Hn. congruence.
      - apply omap_set_keys. }
    assert (Hok' : okBuild b').
    { split; [done|]. split; [done|]. split.
      - unfold symbolNodes'. destruct (OMap.has _ _); [done|].
        by apply (keyed_set isSymbol (symbolNodes b)
                    (SymbolNode (sym_id s) _ _ _ _ _ _)).
      - cbn [edges packageNodes fileNodes symbolNodes b'].
        apply Forall_app. split.
        + eapply Forall_impl; [exact He|]. intros e.
          apply connects_mono; [done|done|apply Hkeys].
        + apply Forall_singleton. split; [done|apply (proj1 Hkeys)]. }
    destruct (IH b' byName' Hok' Hid) as (H1 & H2 & H3 & H4 & H5 & H6 & H7).
    cbn zeta. split; [done|].
    rewrite H2, H3, H4, H5, H6, H7. cbn [b' symbolDetails].
    by rewrite <- app_assoc.
Qed.

Lemma dependencyStep_ok (pk fl sy : list jsstring)
    (fileNodes : list (jsstring * node)) (deps : list dependencyEdge) :
  fl = OMap.keys fileNodes ->
  forall edges, Forall (connects pk fl sy) edges ->
    Forall (connects pk fl sy)
      (fold_left (dependencyStep fileNodes) deps edges).
Proof.
  intros ->. induction deps as [|dep deps IH]; intros edges Hedges; [done|].
  cbn [fold_left]. apply IH. unfold dependencyStep.
  destruct (negb _); [done|].
  destruct (OMap.has fileNodes _) eqn:H1; [|done].
  destruct (OMap.has fileNodes (str "file:" ++ normalizePath (dep_target dep)))
    eqn:H2; [|done].
  cbn [andb]. apply Forall_app. split; [done|]. apply Forall_singleton.
  assert (Hhas : forall k, OMap.has fileNodes k = true ->
            k ∈ OMap.keys fileNodes).
  { intros k Hk. unfold OMap.has in Hk.
    destruct (decide (k ∈ OMap.keys fileNodes)) as [|Hn]; [done|].
    apply omap_get_keys in Hn. by rewrite Hn in Hk. }
  split; by apply Hhas.
Qed.

Lemma keyed_node (kind : node -> Prop) (m : list (jsstring * node))
    (k : jsstring) :
  keyed kind m -> k ∈ OMap.keys m ->
  exists n, n ∈ List.map snd m /\ nodeId n = k /\ kind n.
Proof.
  intros Hm Hk. unfold OMap.keys in Hk.
  change (@List.map) with (@fmap list _) in *.
  apply list_elem_of_fmap in Hk as ([k' n] & -> & Hin).
  exists n. split; [apply list_elem_of_fmap; by exists (k', n)|].
  by apply Hm.
Qed.

Variable ast : Type.
Variable parse : jsstring -> jsstring -> option ast.
Variable visit : ast -> jsstring -> jsstring -> jsstring -> list symbol.
Variable cwd : jsstring.
Variable exists_ : jsstring -> bool.
Variable readFile : jsstring -> Fs.readResult.
Variable extname : jsstring -> jsstring.
Variable extractCallsForFile :
  jsstring -> Fs.file -> jsstring -> option (list call).
Variable extractExportsAndImportsForFile :
  jsstring -> Fs.file -> jsstring
  -> option (list jsstring * list importDescriptor).

(** One file: the invariant is kept, the file has its node, and the
    symbols extracted from it are appended. *)
Lemma fileStep_ok (normalizedRoot : jsstring)
    (metricsMap : gmap jsstring FileMetrics.fileMetrics) (b : build)
    (file : Fs.file) :
  okBuild b ->
  let b' := fileStep ast parse visit cwd exists_ readFile extname
              extractCallsForFile extractExportsAndImportsForFile
              normalizedRoot metricsMap b file in
  okBuild b'
  /\ (forall k, k ∈ OMap.keys (fileNodes b) -> k ∈ OMap.keys (fileNodes b'))
  /\ str "file:" ++ normalizePath (Fs.f_path file) ∈ OMap.keys (fileNodes b')
  /\ symbolDetails b'
     = symbolDetails b
       ++ extractSymbolsForFile ast parse visit cwd exists_ readFile
            normalizedRoot file
            (Language.detectLanguage
               (if JS.truthy (Fs.f_ext file) then Fs.f_ext file
                else extname (Fs.f_path file))).
Proof.
  intros (Hf & Hp & Hs & He). unfold fileStep.
  set (normalizedPath := normalizePath (Fs.f_path file)).
  set (id := str "file:" ++ normalizedPath).
  set (language := Language.detectLanguage _).
  set (node := FileNode id _ _ _ _ _ _ _).
  set (fileNodes' := OMap.set (fileNodes b) id node).
  destruct (omap_set_keys (fileNodes b) id node) as [Hid Hmono].
  fold fileNodes' in Hid, Hmono.
  assert (Hf' : keyed isFile fileNodes')
    by (by apply (keyed_set isFile (fileNodes b) node)).
  set (pe := match getPackageNodeId normalizedPath with
             | Some pkgId => _
             | None => _
             end).
  assert (Hpe : keyed isPackage pe.1
                /\ Forall (connects (OMap.keys pe.1) (OMap.keys fileNodes')
                             (OMap.keys (symbolNodes b))) pe.2).
  { unfold pe. destruct (getPackageNodeId normalizedPath) as [pkgId|].
    - cbn [fst snd].
      set (pk := if OMap.has (packageNodes b) pkgId then _ else _).
      assert (Hpk : pkgId ∈ OMap.keys pk
                    /\ forall k, k ∈ OMap.keys (packageNodes b) ->
                         k ∈ OMap.keys pk).
      { unfold pk, OMap.has.
        destruct (OMap.get (packageNodes b) pkgId) eqn:Hget.
        - split; [|done].
          destruct (decide (pkgId ∈ OMap.keys (packageNodes b))) as [|Hn];
            [done|]. apply omap_get_keys in Hn. congruence.
        - apply omap_set_keys. }
      split.
      + unfold pk. destruct (OMap.has _ _); [done|].
        by apply (keyed_set isPackage (packageNodes b) (PackageNode pkgId _ _)).
      + apply Forall_app. split.
        * eapply Forall_impl; [exact He|]. intros e.
          apply connects_mono; [apply Hpk|done|done].
        * apply Forall_singleton. split; [apply (proj1 Hpk)|done].
    - cbn [fst snd]. split; [done|].
      eapply Forall_impl; [exact He|]. intros e.
      by apply connects_mono. }
  destruct pe as [packageNodes' edges'] eqn:Hpeq. cbn [fst snd] in Hpe.
  destruct Hpe as [Hp' He'].
  set (b0 := Build fileNodes' packageNodes' (symbolNodes b) edges'
               (symbolDetails b) (incomingCalls b) (exportsByFile b)
               (importsByFile b)).
  pose proof (symbolStep_ok id normalizedPath language
                (extractSymbolsForFile ast parse visit cwd exists_ readFile
                   normalizedRoot file language) b0 []
                (conj Hf' (conj Hp' (conj Hs He'))) Hid) as Hsym.
  cbn zeta in Hsym.
  destruct (fold_left _ _ (b0, [])) as [b1 byName].
  cbn [fst] in Hsym. destruct Hsym as (Hok1 & F1 & F2 & F3 & _).
  destruct (match extractExportsAndImportsForFile _ _ _ with
            | Some _ => _
            | None => _
            end) as [exportsByFile' importsByFile'].
  cbn zeta. cbn [fileNodes symbolDetails].
  split; [exact Hok1|]. rewrite F1, F3. cbn [b0 fileNodes symbolDetails].
  done.
Qed.

Lemma fileStep_fold_ok (normalizedRoot : jsstring)
    (metricsMap : gmap jsstring FileMetrics.fileMetrics)
    (files : list Fs.file) :
  let b := fold_left
             (fileStep ast parse visit cwd exists_ readFile extname
                extractCallsForFile extractExportsAndImportsForFile
                normalizedRoot metricsMap)
             files (Build [] [] [] [] [] [] [] []) in
  okBuild b
  /\ (forall f, f ∈ files ->
        str "file:" ++ normalizePath (Fs.f_path f) ∈ OMap.keys (fileNodes b))
  /\ symbolDetails b
     = flat_map
         (fun file =>
            extractSymbolsForFile ast parse visit cwd exists_ readFile
              normalizedRoot file
              (Language.detectLanguage
                 (if JS.truthy (Fs.f_ext file) then Fs.f_ext file
                  else extname (Fs.f_path file))))
         files.
Proof.
  induction files as [|f files IH] using rev_ind.
  - cbn. split; [|split; [by intros ? ?%elem_of_nil|done]].
    assert (Hnone : forall kind, keyed kind []).
    { intros kind k n H. by apply elem_of_nil in H. }
    split; [apply Hnone|]. split; [apply Hnone|]. split; [apply Hnone|].
    constructor.
  - rewrite fold_left_app. cbn [fold_left]. cbn zeta in *.
    destruct IH as (Hok & Hfiles & Hsyms).
    destruct (fileStep_ok normalizedRoot metricsMap _ f Hok)
      as (Hok' & Hmono & Hid & Hdetails).
    split; [done|]. split.
    + intros g [Hg|Hg]%elem_of_app.
      * by apply Hmono, Hfiles.
      * apply list_elem_of_singleton in Hg as ->. done.
    + rewrite Hdetails, Hsyms, flat_map_app. cbn. by rewrite app_nil_r.
Qed.

(** The structure graph is well formed: every edge joins two nodes of
    the graph, a package and a file it contains, a file and a symbol it
    defines, or two files for an import; every scanned file has a file
    node; the symbols are those extracted from the files, in order; and
    the totals count the nodes and the edges. *)
Theorem structure_graph_well_formed (rootPath : jsstring)
    (files : list Fs.file)
    (metricsByFile : gmap jsstring FileMetrics.fileMetrics)
    (dependencyEdges : list dependencyEdge) :
  let g := buildStructureGraph ast parse visit cwd exists_ readFile extname
             extractCallsForFile extractExportsAndImportsForFile
             rootPath files metricsByFile dependencyEdges in
  Forall (joins (g_nodes g)) (g_edges g)
  /\ (forall f, f ∈ files ->
        exists n, n ∈ g_nodes g /\ isFile n
          /\ nodeId n = str "file:" ++ normalizePath (Fs.f_path f))
  /\ g_symbols g
     = flat_map
         (fun file =>
            extractSymbolsForFile ast parse visit cwd exists_ readFile
              (NodePath.resolve cwd [rootPath]) file
              (Language.detectLanguage
                 (if JS.truthy (Fs.f_ext file) then Fs.f_ext file
                  else extname (Fs.f_path file))))
         files
  /\ t_relations (g_totals g) = length (g_edges g)
  /\ (t_packages (g_totals g) + t_files (g_totals g)
      + t_symbols (g_totals g) = length (g_nodes g))%nat.
Proof.
  unfold buildStructureGraph. cbn zeta.
  destruct (fileStep_fold_ok (NodePath.resolve cwd [rootPath]) metricsByFile
              files) as (Hok & Hfiles & Hsyms).
  set (b := fold_left _ files _) in *.
  destruct Hok as (Hf & Hp & Hs & He).
  cbn [g_nodes g_edges g_symbols g_totals t_relations t_packages t_files
       t_symbols].
  split.
  { pose proof (dependencyStep_ok _ _ _ (fileNodes b) dependencyEdges
                  eq_refl (edges b) He) as Hall.
    eapply Forall_impl; [exact Hall|]. intros e Hc.
    unfold connects in Hc. unfold joins.
    destruct (type e) eqn:Ht; destruct Hc as [Hsrc Htgt].
    - destruct (keyed_node _ _ _ Hp Hsrc) as (n1 & Hn1 & Hid1 & Hk1).
      destruct (keyed_node _ _ _ Hf Htgt) as (n2 & Hn2 & Hid2 & Hk2).
      exists n1, n2. rewrite !elem_of_app. naive_solver.
    - destruct (keyed_node _ _ _ Hf Hsrc) as (n1 & Hn1 & Hid1 & Hk1).
      destruct (keyed_node _ _ _ Hs Htgt) as (n2 & Hn2 & Hid2 & Hk2).
      exists n1, n2. rewrite !elem_of_app. naive_solver.
    - destruct (keyed_node _ _ _ Hf Hsrc) as (n1 & Hn1 & Hid1 & Hk1).
      destruct (keyed_node _ _ _ Hf Htgt) as (n2 & Hn2 & Hid2 & Hk2).
      exists n1, n2. rewrite !elem_of_app. naive_solver. }
  split.
  { intros f Hin.
    destruct (keyed_node _ _ _ Hf (Hfiles f Hin)) as (n & Hn & Hid & Hk).
    exists n. rewrite !elem_of_app. naive_solver. }
  split; [exact Hsyms|]. split; [done|].
  rewrite !length_app, !length_map. lia.
Qed.

End Graph.

(** ** Groups and packages of paths *)

Section Groups.

Import GraphBuilder.

Lemma join_removelast (segments : list jsstring) (lst : jsstring) :
  last segments = Some lst -> (2 <= length segments)%nat ->
  join [NodePath.slash] segments
  = join [NodePath.slash] (removelast segments) ++ NodePath.slash :: lst.
Proof.
  induction segments as [|a segments IH]; intros Hl Hlen; [done|].
  destruct segments as [|b segments]; [cbn in Hlen; lia|].
  rewrite last_cons_cons in Hl.
  destruct segments as [|c segments].
  - cbn in Hl. injection Hl as <-. reflexivity.
  - change (join [NodePath.slash] (a :: b :: c :: segments))
      with (a ++ [NodePath.slash]
              ++ join [NodePath.slash] (b :: c :: segments)).
    rewrite IH by (done || cbn; lia).
    change (removelast (a :: b :: c :: segments))
      with (a :: removelast (b :: c :: segments)).
    change (removelast (b :: c :: segments))
      with (b :: removelast (c :: segments)).
    change (join [NodePath.slash] (a :: b :: removelast (c :: segments)))
      with (a ++ [NodePath.slash]
              ++ join [NodePath.slash] (b :: removelast (c :: segments))).
    by rewrite <- !app_assoc.
Qed.

Lemma split_on_length (sep : N) (s : jsstring) :
  (length (split_on sep s) <= 1)%nat <-> sep ∉ s.
Proof.
  induction s as [|c t IH]; [cbn; split; [intros _; apply not_elem_of_nil|lia]|].
  rewrite split_on_cons. destruct (N.eqb_spec c sep) as [->|Hc].
  - pose proof (split_on_nonempty sep t).
    split.
    + destruct (split_on sep t); [done|cbn; lia].
    + intros Hn. destruct Hn. in_head.
  - destruct (split_on sep t) as [|h r] eqn:Hs.
    { by destruct (split_on_nonempty sep t). }
    cbn [length] in *. rewrite IH. rewrite not_elem_of_cons. naive_solver.
Qed.

Lemma split_on_head (sep : N) (s : jsstring) :
  exists rest, split_on sep s = hd [] (split_on sep s) :: rest
    /\ forall top more, split_on sep s = top :: more -> more <> [] ->
         exists tail, s = top ++ sep :: tail.
Proof.
  destruct (split_on sep s) as [|top more] eqn:Hs.
  { by destruct (split_on_nonempty sep s). }
  exists more. split; [done|]. intros top' more' [= <- <-] Hmore.
  pose proof (join_split sep s) as Hj. rewrite Hs in Hj.
  destruct more as [|m more]; [done|].
  exists (join [sep] (m :: more)). by rewrite <- Hj.
Qed.

Lemma replaceFirst_prefix (pattern replacement s : jsstring) :
  replaceFirst pattern replacement (pattern ++ s) = replacement ++ s.
Proof.
  destruct (pattern ++ s) as [|c t] eqn:Hp.
  - destruct pattern; [|done]. cbn in Hp. subst. by destruct replacement.
  - cbn [replaceFirst]. rewrite <- Hp, startsWith_app.
    by rewrite drop_app_length.
Qed.

(** The group and the package of a file path. A path with a slash is
    its group, a slash and a last segment; a path without one is in the
    group ["."] and in no package. A package id names the first segment
    of a path with a slash, which is not empty and does not start with
    a dot, and the package node carries that segment as its name. *)
Theorem path_group_and_package (filePath : jsstring) :
  (NodePath.slash ∈ filePath ->
     exists name, (NodePath.slash ∉ name)
       /\ filePath = getGroupFromPath filePath ++ NodePath.slash :: name)
  /\ (NodePath.slash ∉ filePath ->
        getGroupFromPath filePath = str "."
        /\ getPackageNodeId filePath = None)
  /\ (forall pkgId, getPackageNodeId filePath = Some pkgId ->
        exists top tail,
          filePath = top ++ NodePath.slash :: tail
          /\ (NodePath.slash ∉ top) /\ top <> []
          /\ startsWith top (str ".") = false
          /\ pkgId = str "package:" ++ top
          /\ replaceFirst (str "package:") [] pkgId = top).
Proof.
  unfold getGroupFromPath, getPackageNodeId.
  pose proof (split_on_length NodePath.slash filePath) as Hlen.
  pose proof (split_on_nonempty NodePath.slash filePath) as Hne.
  pose proof (join_split NodePath.slash filePath) as Hjoin.
  pose proof (split_on_no_sep NodePath.slash filePath) as Hno.
  destruct (split_on_head NodePath.slash filePath) as (more & Hsplit & Hhead).
  set (segments := split_on NodePath.slash filePath) in *.
  split; [|split].
  - intros Hin.
    destruct (Nat.leb_spec (length segments) 1) as [Hle|Hgt].
    { by apply Hlen in Hle. }
    destruct (last segments) as [lst|] eqn:Hlast;
      [|by apply last_None in Hlast].
    exists lst. split.
    + apply Hno. apply last_Some in Hlast as [l' ->].
      apply elem_of_app. right. in_head.
    + rewrite <- Hjoin at 1. apply join_removelast; [done|lia].
  - intros Hnot. apply Hlen in Hnot.
    destruct (Nat.leb_spec (length segments) 1) as [_|?]; [|lia].
    destruct (Nat.ltb_spec (length segments) 2) as [_|?]; [done|lia].
  - intros pkgId.
    destruct (Nat.ltb_spec (length segments) 2) as [|Hge]; [done|].
    destruct (hd [] segments) as [|c top] eqn:Htop; [done|].
    cbn [JS.truthy negb orb].
    destruct (eqb (c :: top) (str ".")); [done|]. cbn [orb].
    destruct (startsWith (c :: top) (str ".")) eqn:Hdot; [done|].
    intros [= <-].
    destruct (Hhead (c :: top) more Hsplit) as [tail Htail].
    { intros ->. rewrite Hsplit in Hge. cbn in Hge. lia. }
    exists (c :: top), tail. split; [done|]. split.
    { apply Hno. rewrite Hsplit. in_head. }
    split; [done|]. split; [done|]. split; [done|].
    apply (replaceFirst_prefix (str "package:") [] (c :: top)).
Qed.

End Groups.

(** ** Smell issues *)

Section SmellIssues.

Import SmellDetector.

Ltac raised Ht Hp :=
  split;
  [ repeat (apply Forall_cons; split;
            [ unfold raisedBy, createIssue;
              cbn [i_category i_symbolId i_path i_line i_type i_severity];
              rewrite ?Ht, ?Hp; repeat split; done | ]);
    apply Forall_nil_2
  | split;
    [ cbn [app length]; lia
    | cbn [app List.map i_type createIssue];
      repeat (apply NoDup_cons; split;
              [ rewrite ?not_elem_of_cons; repeat split;
                first [ done | apply not_elem_of_nil ] | ]);
      apply NoDup_nil_2 ] ].

Lemma symbolSmells_raised (s : symbol) :
  Forall (raisedBy s) (symbolSmells s)
  /\ (length (symbolSmells s) <= 3)%nat
  /\ NoDup (List.map i_type (symbolSmells s)).
Proof.
  unfold symbolSmells.
  destruct (sym_text s) as [|c t] eqn:Ht;
    [cbn; split; [constructor|split; [lia|constructor]]|].
  destruct (sym_path s) as [|c' p] eqn:Hp;
    [cbn; split; [constructor|split; [lia|constructor]]|].
  cbn [JS.truthy negb orb].
  destruct (OMap.mem FUNCTION_KINDS (sym_kind s)) eqn:Hfun.
  - apply mem_elem_of in Hfun. unfold detectFunctionSmells. cbn zeta.
    set (span := computeLineSpan s).
    set (br := countBranches (sym_text s)).
    set (pc := countParameters (sym_text s)).
    destruct (LONG_FUNCTION_WARNING <=? span)%Z,
      (LONG_FUNCTION_ERROR <=? span)%Z,
      (PARAM_WARNING_THRESHOLD <=? pc)%nat,
      (PARAM_ERROR_THRESHOLD <=? pc)%nat,
      (BRANCH_WARNING_THRESHOLD <=? br)%nat,
      (BRANCH_ERROR_THRESHOLD <=? br)%nat; raised Ht Hp.
  - destruct (OMap.mem CLASS_KINDS (sym_kind s)) eqn:Hcls;
      [|cbn; split; [constructor|split; [lia|constructor]]].
    apply mem_elem_of in Hcls. unfold detectClassSmells. cbn zeta.
    set (span := computeLineSpan s).
    set (mc := countClassMethods (sym_text s)).
    destruct (LONG_FUNCTION_WARNING * 2 <=? span)%Z,
      (LONG_FUNCTION_ERROR * 2 <=? span)%Z,
      (LARGE_CLASS_METHOD_WARNING <=? mc)%nat,
      (LARGE_CLASS_METHOD_ERROR <=? mc)%nat; raised Ht Hp.
Qed.

(** Every smell issue belongs to a symbol of the graph: it carries the
    symbol's id, path and start line, and the symbol has a text and a
    path. Function issues come from function or component symbols and a
    many-parameters issue is never an error; class issues come from
    class symbols and are never informational. A symbol raises at most
    three issues, no two of the same type. *)
Theorem smell_issues_belong_to_symbols (symbols : list symbol) :
  Forall (fun i => exists s, s ∈ symbols /\ raisedBy s i)
    (detectCodeSmells symbols)
  /\ Forall (fun s => (length (symbolSmells s) <= 3)%nat
                      /\ NoDup (List.map i_type (symbolSmells s))) symbols
  /\ detectCodeSmells symbols = flat_map symbolSmells symbols.
Proof.
  split; [|split; [|done]].
  - unfold detectCodeSmells. induction symbols as [|s symbols IH]; [constructor|].
    cbn [flat_map]. apply Forall_app. split.
    + destruct (symbolSmells_raised s) as [H _].
      eapply Forall_impl; [exact H|]. intros i Hi. exists s.
      split; [in_head|done].
    + eapply Forall_impl; [exact IH|]. intros i (s' & Hs' & Hi).
      exists s'. split; [in_tail|done].
  - apply Forall_forall. intros s _. by destruct (symbolSmells_raised s) as (_ & ? & ?).
Qed.

End SmellIssues.

(** ** Escaping *)

Section Escaping.

Variable p : N -> bool.
Variable f : jsstring -> jsstring.

Lemma replace_with_skip (ms : list rmatch_result) (c : N) (t : jsstring)
    (off : nat) :
  fits ms t (S off) ->
  replace_with f ms (c :: t) off = c :: replace_with f ms t (S off).
Proof.
  destruct ms as [|m ms]; [done|]. cbn [fits replace_with].
  intros (i & Hi & _). 
  replace (m_index m - off)%nat with (S (m_index m - S off)) by lia.
  done.
Qed.

Section Skipping.

Variable r : regex.
Hypothesis Hfail : forall pv c t cp,
  p c = false -> rmatch r Some (Cursor pv (c :: t) cp) = None.

Lemma matches_from_skip (fuel : nat) (pv : option N) (c : N) (t : jsstring)
    (off : nat) :
  p c = false ->
  matches_from fuel r pv (c :: t) off = matches_from fuel r (Some c) t (S off).
Proof using Hfail.
  intros Hc. destruct fuel as [|fuel]; [done|].
  cbn [matches_from search]. by rewrite (Hfail _ _ _ _ Hc).
Qed.

Lemma replace_skip (fuel : nat) (pv : option N) (c : N) (t : jsstring)
    (off : nat) :
  p c = false ->
  replace_with f (matches_from fuel r pv (c :: t) off) (c :: t) off
  = c :: replace_with f (matches_from fuel r (Some c) t (S off)) t (S off).
Proof using Hfail.
  intros Hc. rewrite matches_from_skip by done.
  apply replace_with_skip, matches_from_fits.
Qed.

End Skipping.

Lemma run_split (s : jsstring) : s = runOf p s ++ afterRun p s.
Proof.
  induction s as [|c t IH]; [done|]. cbn. destruct (p c); [|done].
  cbn. by rewrite <- IH.
Qed.

Lemma afterRun_length (s : jsstring) : (length (afterRun p s) <= length s)%nat.
Proof.
  induction s as [|c t IH]; [done|]. cbn. destruct (p c); cbn; lia.
Qed.

(** A greedy starred class takes the whole run. *)
Lemma starLoop_greedy (fuel : nat) :
  forall pv s cp, (length s < fuel)%nat ->
    exists pv',
      starLoop true (RClass p) Some fuel (Cursor pv s cp)
      = Some (Cursor pv' (afterRun p s) cp).
Proof.
  induction fuel as [|fuel IH]; intros pv s cp Hfuel; [lia|].
  cbn [starLoop rmatch rest cap]. cbn zeta.
  destruct s as [|c t]; [by exists pv|].
  cbn [afterRun]. destruct (p c); [|by exists pv].
  cbn [rest length].
  destruct (Nat.ltb_spec (length t) (S (length t))) as [_|?]; [|lia].
  destruct (IH (Some c) t cp ltac:(cbn in Hfuel; lia)) as [pv' ->].
  by exists pv'.
Qed.

Lemma plus_class_fail (pv : option N) (c : N) (t : jsstring)
    (cp : option jsstring) :
  p c = false -> rmatch (plus (RClass p)) Some (Cursor pv (c :: t) cp) = None.
Proof. intros Hc. unfold plus. cbn [rmatch rest]. by rewrite Hc. Qed.

Lemma plus_class_match (pv : option N) (c : N) (t : jsstring)
    (cp : option jsstring) :
  p c = true ->
  exists pv',
    rmatch (plus (RClass p)) Some (Cursor pv (c :: t) cp)
    = Some (Cursor pv' (afterRun p t) cp).
Proof.
  intros Hc. unfold plus.
  change (rmatch (RSeq (RClass p) (RStar true (RClass p))) Some
            (Cursor pv (c :: t) cp))
    with (if p c
          then starLoop true (RClass p) Some (S (length t))
                 (Cursor (Some c) t cp)
          else None).
  rewrite Hc. apply starLoop_greedy. lia.
Qed.

(** Replacing the runs of a class, as the regex engine does it, is
    [mapRuns]. *)
Lemma replace_plus_class (n : nat) :
  forall fuel pv s off, (length s < fuel)%nat -> (length s <= n)%nat ->
    replace_with f (matches_from fuel (plus (RClass p)) pv s off) s off
    = mapRuns p f n s.
Proof.
  induction n as [|n IH]; intros fuel pv s off Hfuel Hn.
  - destruct s; [|cbn in Hn; lia]. destruct fuel; [lia|]. done.
  - destruct s as [|c t]; [destruct fuel; [lia|done]|].
    cbn [mapRuns]. destruct (p c) eqn:Hc.
    + destruct fuel as [|fuel]; [lia|]. cbn [matches_from search].
      destruct (plus_class_match pv c t None Hc) as [pv' ->].
      cbn [m_after m_text m_index rest prev].
      rewrite (consumed_app (Cursor pv (c :: t) None)
                 (Cursor pv' (afterRun p t) None) (c :: runOf p t))
        by (cbn [rest app]; f_equal; apply run_split).
      cbn [replace_with m_index m_text]. rewrite Nat.sub_diag.
      cbn [firstn app]. f_equal. cbn [Nat.add].
      assert (Hdrop : skipn (length (c :: runOf p t)) (c :: t) = afterRun p t).
      { cbn [length skipn]. rewrite (run_split t) at 2.
        change (@skipn N) with (@drop N). by rewrite drop_app_length. }
      rewrite Hdrop. pose proof (afterRun_length t).
      apply IH; cbn in *; lia.
    + rewrite (replace_skip (plus (RClass p)) plus_class_fail) by done.
      f_equal. apply IH; cbn in *; lia.
Qed.

Lemma mapRuns_fuel (n : nat) :
  forall n' s, (length s <= n)%nat -> (length s <= n')%nat ->
    mapRuns p f n s = mapRuns p f n' s.
Proof.
  induction n as [|n IH]; intros n' s Hn Hn'.
  - destruct s; [|cbn in Hn; lia]. by destruct n'.
  - destruct s as [|c t]; [by destruct n'|].
    destruct n' as [|n']; [cbn in Hn'; lia|].
    cbn [mapRuns]. pose proof (afterRun_length t).
    destruct (p c); f_equal; apply IH; cbn in *; lia.
Qed.

Lemma mapRuns_clean (a s : jsstring) (n : nat) :
  Forall (fun c => p c = false) a -> (length (a ++ s) <= n)%nat ->
  mapRuns p f n (a ++ s) = a ++ mapRuns p f (length s) s.
Proof.
  intros Ha. revert n. induction Ha as [|c a Hc _ IH]; intros n Hn.
  - cbn [app]. by apply mapRuns_fuel.
  - destruct n as [|n]; [cbn in Hn; lia|].
    cbn [app mapRuns]. rewrite Hc. f_equal. apply IH. cbn in Hn. lia.
Qed.

Lemma mapRuns_run (run b : jsstring) (n : nat) :
  run <> [] -> Forall (fun c => p c = true) run ->
  match b with [] => True | c :: _ => p c = false end ->
  (length (run ++ b) <= n)%nat ->
  mapRuns p f n (run ++ b) = f run ++ mapRuns p f (length b) b.
Proof.
  intros Hne Hrun Hb Hn.
  assert (Hsplit : forall r', Forall (fun c => p c = true) r' ->
            runOf p (r' ++ b) = r' /\ afterRun p (r' ++ b) = b).
  { induction 1 as [|c r' Hc _ [IH1 IH2]].
    - destruct b as [|c b]; [done|]. cbn. by rewrite Hb.
    - cbn. rewrite Hc. by rewrite IH1, IH2. }
  destruct run as [|c run]; [done|]. apply Forall_cons in Hrun as [Hc Hrun].
  destruct n as [|n]; [cbn in Hn; lia|].
  cbn [app mapRuns]. rewrite Hc.
  destruct (Hsplit run Hrun) as [-> ->]. f_equal.
  apply mapRuns_fuel; cbn in Hn; rewrite ?length_app in Hn; lia.
Qed.

(** Replacing the units of a class one by one. *)
Lemma replace_class (s : jsstring) :
  forall fuel pv off, (length s < fuel)%nat ->
    replace_with f (matches_from fuel (RClass p) pv s off) s off
    = flat_map (fun c => if p c then f [c] else [c]) s.
Proof.
  induction s as [|c t IH]; intros fuel pv off Hfuel.
  - destruct fuel; [lia|done].
  - cbn [flat_map]. destruct (p c) eqn:Hc.
    + destruct fuel as [|fuel]; [lia|].
      cbn [matches_from search rmatch rest cap]. rewrite Hc.
      cbn [m_after m_text m_index rest prev].
      rewrite (consumed_app (Cursor pv (c :: t) None)
                 (Cursor (Some c) t None) [c]) by done.
      cbn [replace_with m_index m_text length]. rewrite Nat.sub_diag.
      cbn [firstn app Nat.add skipn]. f_equal.
      apply IH. cbn in Hfuel. lia.
    + rewrite (replace_skip (RClass p)).
      * cbn [app]. f_equal. apply IH. cbn in Hfuel. lia.
      * intros pv' c' t' cp Hc'. cbn [rmatch rest]. by rewrite Hc'.
      * done.
Qed.

End Escaping.

Section EscapeHtml.

Lemma special_cases (c : N) :
  AppUi.special c = true -> c = 38%N \/ c = 60%N \/ c = 62%N \/ c = 34%N.
Proof.
  unfold AppUi.special. rewrite !orb_true_iff, !N.eqb_eq. tauto.
Qed.

Lemma report_escapeHtml_runs (s : jsstring) :
  AppUi.escapeHtml s
  = mapRuns AppUi.special (AppUi.entityOr AppUi.entities) (length s) s.
Proof.
  unfold AppUi.escapeHtml, replace, matches.
  apply replace_plus_class; lia.
Qed.

Lemma entityOr_lone (c : N) :
  AppUi.special c = true ->
  AppUi.entityOr AppUi.entities [c] = entityOf c.
Proof.
  intros [->|[->|[->| ->]]]%special_cases; reflexivity.
Qed.

Lemma entityOr_run (run : jsstring) :
  (2 <= length run)%nat -> AppUi.entityOr AppUi.entities run = run.
Proof.
  intros Hlen. unfold AppUi.entityOr, AppUi.entities.
  destruct run as [|c [|d run]]; [cbn in Hlen; lia..|].
  cbn [OMap.get]. by repeat case_decide.
Qed.

(** [escapeHtml] of the report page escapes a special unit only where
    it stands alone: a text without special units is unchanged, a
    special unit between units that are not special becomes its entity,
    and a run of two or more special units is written as it is. *)
Theorem report_escapeHtml_escapes_lone_specials :
  (forall text, Forall (fun c => AppUi.special c = false) text ->
     AppUi.escapeHtml text = text)
  /\ (forall a c b,
        Forall (fun c => AppUi.special c = false) a ->
        AppUi.special c = true ->
        match b with [] => True | d :: _ => AppUi.special d = false end ->
        AppUi.escapeHtml (a ++ c :: b)
        = a ++ entityOf c ++ AppUi.escapeHtml b)
  /\ (forall a run b,
        Forall (fun c => AppUi.special c = false) a ->
        (2 <= length run)%nat ->
        Forall (fun c => AppUi.special c = true) run ->
        match b with [] => True | d :: _ => AppUi.special d = false end ->
        AppUi.escapeHtml (a ++ run ++ b)
        = a ++ run ++ AppUi.escapeHtml b).
Proof.
  assert (Hgen : forall a run b,
            Forall (fun c => AppUi.special c = false) a ->
            run <> [] -> Forall (fun c => AppUi.special c = true) run ->
            match b with [] => True | d :: _ => AppUi.special d = false end ->
            AppUi.escapeHtml (a ++ run ++ b)
            = a ++ AppUi.entityOr AppUi.entities run ++ AppUi.escapeHtml b).
  { intros a run b Ha Hne Hrun Hb. rewrite !report_escapeHtml_runs.
    rewrite mapRuns_clean by done. f_equal.
    by rewrite mapRuns_run. }
  split; [|split].
  - intros text Ht. rewrite report_escapeHtml_runs.
    rewrite <- (app_nil_r text) at 2 3.
    rewrite mapRuns_clean; [by rewrite !app_nil_r|done|by rewrite app_nil_r].
  - intros a c b Ha Hc Hb.
    rewrite <- (entityOr_lone c Hc).
    apply (Hgen a [c] b); [done|done|by constructor|done].
  - intros a run b Ha Hlen Hrun Hb.
    rewrite <- (entityOr_run run Hlen) at 2.
    apply Hgen; try done. intros ->. cbn in Hlen. lia.
Qed.

Lemma report_escapeHtml_escapes_lone_specials_witness :
  AppUi.escapeHtml (str "x" ++ ([34%N] ++ str "><") ++ str "img")
  = str "x" ++ ([34%N] ++ str "><") ++ AppUi.escapeHtml (str "img").
Proof.
  apply (proj2 (proj2 report_escapeHtml_escapes_lone_specials));
    [repeat constructor | cbn; lia | repeat constructor | reflexivity].
Defined.

Lemma escapeUnit_safe (c : N) :
  Forall (fun d => d <> 60%N /\ d <> 62%N /\ d <> 34%N /\ d <> 39%N)
    (escapeUnit c).
Proof.
  unfold escapeUnit, DiagramShared.special.
  destruct (AppUi.special c) eqn:Hs; cbn [orb].
  - apply special_cases in Hs as [->|[->|[->| ->]]]; vm_compute;
      repeat constructor; discriminate.
  - destruct (N.eqb_spec c 39) as [->|Hc].
    + vm_compute. repeat constructor; discriminate.
    + unfold AppUi.special in Hs. rewrite !orb_false_iff, !N.eqb_neq in Hs.
      repeat constructor; tauto.
Qed.

(** [escapeHtml] of the diagram page escapes every special unit: the
    result is the text with each of the five units replaced by its
    entity, and holds no angle bracket, double quote or apostrophe. *)
Theorem diagram_escapeHtml_escapes_every_special (text : jsstring) :
  DiagramShared.escapeHtml text = flat_map escapeUnit text
  /\ Forall (fun d => d <> 60%N /\ d <> 62%N /\ d <> 34%N /\ d <> 39%N)
       (DiagramShared.escapeHtml text).
Proof.
  assert (H : DiagramShared.escapeHtml text = flat_map escapeUnit text).
  { unfold DiagramShared.escapeHtml, replace, matches.
    rewrite replace_class by lia. done. }
  split; [exact H|]. rewrite H. clear H.
  induction text as [|c t IH]; [constructor|].
  cbn [flat_map]. apply Forall_app. split; [apply escapeUnit_safe|done].
Qed.

End EscapeHtml.

(** ** Snippet sizes *)

Section SnippetSizes.

Import Server.

(** A snippet holds a prefix of the file: at most 512 KiB of it and at
    most [max(1024, maxBytes)] bytes, but at least the first KiB (or
    the whole file if it is shorter) whatever [maxBytes] is; it is
    marked truncated exactly when bytes were left out, and its [size]
    is the size of the file. *)
Theorem snippet_size_bounds (cwd : jsstring) (fs : jsstring -> option node)
    (utf8 : list N -> jsstring) (rootPath relativePath : jsstring)
    (maxBytes : Z) (s : snippet) :
  readSourceSnippet cwd fs utf8 rootPath relativePath maxBytes = inr s ->
  exists bytes taken,
    fs (NodePath.resolve cwd [NodePath.resolve cwd [rootPath]; relativePath])
    = Some (RegularFile bytes)
    /\ content s = utf8 (firstn taken bytes)
    /\ size s = Z.of_nat (length bytes)
    /\ (taken <= length bytes)%nat
    /\ (taken <= 512 * 1024)%nat
    /\ (Z.of_nat taken <= Z.max 1024 maxBytes)%Z
    /\ (Nat.min 1024 (length bytes) <= taken)%nat
    /\ (truncated s = true <-> (taken < length bytes)%nat).
Proof.
  intros H. apply snippet_fields in H as (bytes & Hfs & H).
  cbn zeta in H. destruct H as (_ & Hsize & Hcontent & Htrunc).
  exists bytes,
    (Z.to_nat (Z.min (Z.max 1024 (Z.min maxBytes (512 * 1024)))
                 (Z.of_nat (length bytes)))).
  rewrite Hsize in Htrunc.
  repeat split; try done; try lia.
  - intros Ht. apply Htrunc in Ht. lia.
  - intros Ht. apply Htrunc. lia.
Qed.

Lemma snippet_size_bounds_witness :
  exists bytes taken,
    siblingFs (str "/srv/app/index.js") = Some (RegularFile bytes)
    /\ (Nat.min 1024 (length bytes) <= taken)%nat
    /\ (taken <= length bytes)%nat.
Proof.
  destruct (snippet_size_bounds (str "/") siblingFs (fun b => b)
              (str "/srv/app") (str "index.js") 0
              (Snippet (str "index.js") 7 (str "main();") false)
              ltac:(reflexivity))
    as (bytes & taken & Hfs & _ & _ & Hle & _ & _ & Hmin & _).
  exists bytes, taken. split; [exact Hfs|]. split; [exact Hmin|exact Hle].
Defined.

End SnippetSizes.

(** ** The metrics pass as a whole *)

Section MetricsPass.

Import FileMetrics.

Variable cwd : jsstring.
Variable readFile : jsstring -> Fs.readResult.
Variable rootPath : jsstring.
Variable maxFileSize : N.

(** Every scanned file gets a metrics record and no other path does;
    the files read are those within the size limit, each once and in
    scan order; every issue is about a scanned file; and every record
    is consistent: skipped exactly when it has no line count, and then
    no complexity score and no TODO count either. *)
Theorem metrics_pass_covers_files (files : list Fs.file) :
  let st := computeFileMetrics cwd readFile rootPath files maxFileSize in
  (forall p, is_Some (metricsByFile st !! p)
             <-> p ∈ List.map Fs.f_path files)
  /\ reads st
     = List.map (fun f => NodePath.resolve cwd [rootPath; Fs.f_path f])
         (List.filter (fun f => negb (maxFileSize <? Fs.f_size f)%N) files)
  /\ Forall (fun i => i_path i ∈ List.map Fs.f_path files) (issues st)
  /\ (forall p m, metricsByFile st !! p = Some m ->
        consistentRecord m
        /\ exists f, f ∈ files /\ Fs.f_path f = p
             /\ size m = Fs.f_size f
             /\ language m = Language.detectLanguage (Fs.f_ext f)).
Proof.
  unfold computeFileMetrics.
  induction files as [|f files IH] using rev_ind.
  - cbn. split; [|split; [done|split; [constructor|]]].
    + intros p. rewrite lookup_empty. split; [by intros [? ?]|].
      by intros ?%elem_of_nil.
    + intros p m. by rewrite lookup_empty.
  - rewrite fold_left_app. cbn [fold_left]. cbn zeta in *.
    set (st := fold_left (fileStep cwd readFile rootPath maxFileSize) files
                 (PassState ∅ [] [])) in *.
    destruct IH as (Hdom & Hreads & Hissues & Hrec).
    change (@List.map) with (@fmap list _) in *.
    rewrite fmap_app, List.filter_app, fmap_app.
    assert (Hmono : forall (i : issue),
              i_path i ∈ Fs.f_path <$> files ->
              i_path i ∈ (Fs.f_path <$> files) ++ (Fs.f_path <$> [f])).
    { intros i Hi. apply elem_of_app. by left. }
    assert (Hnew : Fs.f_path f
                   ∈ (Fs.f_path <$> files) ++ (Fs.f_path <$> [f])).
    { apply elem_of_app. right. in_head. }
    assert (Hold : forall p m,
              metricsByFile st !! p = Some m ->
              consistentRecord m
              /\ exists g, g ∈ files ++ [f] /\ Fs.f_path g = p
                   /\ size m = Fs.f_size g
                   /\ language m = Language.detectLanguage (Fs.f_ext g)).
    { intros p m Hm. destruct (Hrec p m Hm) as (Hc & g & Hg & H').
      split; [done|]. exists g. split; [|done]. apply elem_of_app. by left. }
    assert (Hins : forall m : fileMetrics,
              consistentRecord m -> size m = Fs.f_size f ->
              language m = Language.detectLanguage (Fs.f_ext f) ->
              (forall p, is_Some (<[Fs.f_path f := m]> (metricsByFile st) !! p)
                         <-> p ∈ (Fs.f_path <$> files) ++ (Fs.f_path <$> [f]))
              /\ (forall p m',
                    <[Fs.f_path f := m]> (metricsByFile st) !! p = Some m' ->
                    consistentRecord m'
                    /\ exists g, g ∈ files ++ [f] /\ Fs.f_path g = p
                         /\ size m' = Fs.f_size g
                         /\ language m' = Language.detectLanguage (Fs.f_ext g))).
    { intros m Hc Hs Hl. split.
      - intros p. rewrite elem_of_app, <- Hdom.
        destruct (decide (Fs.f_path f = p)) as [<-|Hne].
        + rewrite lookup_insert_eq. split; [intros _; right; in_head|eauto].
        + rewrite lookup_insert_ne by done. split; [by left|].
          intros [?|Hp]; [done|].
          apply list_elem_of_singleton in Hp. by destruct Hne.
      - intros p m'. destruct (decide (Fs.f_path f = p)) as [<-|Hne].
        + rewrite lookup_insert_eq. intros [= <-]. split; [done|].
          exists f. split; [apply elem_of_app; right; in_head|done].
        + rewrite lookup_insert_ne by done. apply Hold. }
    assert (Hnone : forall (lang : jsstring) (sz : N),
              consistentRecord (FileMetricsRecord lang sz None None 0 true)).
    { intros lang sz. repeat split; done. }
    unfold fileStep.
    destruct (maxFileSize <? Fs.f_size f)%N eqn:Hbig;
      cbn [List.filter]; rewrite Hbig; cbn [negb fmap list_fmap].
    + cbn [metricsByFile issues reads language size].
      destruct (Hins _ (Hnone (Language.detectLanguage (Fs.f_ext f))
                          (Fs.f_size f)) eq_refl eq_refl) as [H1 H2].
      split; [exact H1|]. rewrite app_nil_r. split; [done|].
      split; [|exact H2]. apply Forall_app. split.
      * eapply Forall_impl; [exact Hissues|]. exact Hmono.
      * apply Forall_singleton. exact Hnew.
    + destruct (readFile _) as [content|msg];
        cbn [metricsByFile issues reads language size].
      * match goal with
        | |- context [<[_ := ?m]> _] =>
            assert (Hc : consistentRecord m)
        end.
        { unfold consistentRecord.
          cbn [skipped lineCount complexityScore todoCount].
          repeat split; try done. intros n [= <-]. unfold split_count. lia. }
        destruct (Hins _ Hc eq_refl eq_refl) as [H1 H2].
        split; [exact H1|]. split; [by rewrite Hreads|]. split; [|exact H2].
        rewrite !Forall_app. split; [|split; [|split]].
        -- eapply Forall_impl; [exact Hissues|]. exact Hmono.
        -- destruct (300 <? _)%nat;
             [apply Forall_singleton; exact Hnew|constructor].
        -- destruct (F64.gtb _ _);
             [apply Forall_singleton; exact Hnew|constructor].
        -- destruct (0 <? _)%nat;
             [apply Forall_singleton; exact Hnew|constructor].
      * destruct (Hins _ (Hnone (Language.detectLanguage (Fs.f_ext f))
                            (Fs.f_size f)) eq_refl eq_refl) as [H1 H2].
        split; [exact H1|]. split; [by rewrite Hreads|]. split; [|exact H2].
        apply Forall_app. split.
        -- eapply Forall_impl; [exact Hissues|]. exact Hmono.
        -- apply Forall_singleton. exact Hnew.
Qed.

End MetricsPass.

(** ** Fingerprints of a token sequence *)

Section Fingerprints.

Lemma dedupAdjacent_elem (l : list fingerprint) (x : fingerprint) :
  x ∈ dedupAdjacent l -> x ∈ l.
Proof.
  induction l as [|a t IH]; [done|]. destruct t as [|b t]; [done|].
  change (dedupAdjacent (a :: b :: t))
    with (if decide (a = b) then dedupAdjacent (b :: t)
          else a :: dedupAdjacent (b :: t)).
  destruct (decide (a = b)) as [->|Hab].
  - intros H. apply elem_of_cons. right. by apply IH.
  - intros [->|H]%elem_of_cons; [in_head|]. apply elem_of_cons. right.
    by apply IH.
Qed.

Lemma dedupAdjacent_head (a : fingerprint) (t : list fingerprint) :
  exists rest, dedupAdjacent (a :: t) = a :: rest.
Proof.
  revert a. induction t as [|b t IH]; intros a; [by exists []|].
  change (dedupAdjacent (a :: b :: t))
    with (if decide (a = b) then dedupAdjacent (b :: t)
          else a :: dedupAdjacent (b :: t)).
  destruct (decide (a = b)) as [->|Hab]; [apply IH|eauto].
Qed.

Lemma dedupAdjacent_rising (l : list fingerprint) :
  (forall p x y, l !! p = Some x -> l !! S p = Some y ->
     (fp_index x < fp_index y)%nat \/ x = y) ->
  risingIndex (dedupAdjacent l).
Proof.
  induction l as [|a t IH]; intros Hstep; [done|].
  destruct t as [|b t]; [done|].
  change (dedupAdjacent (a :: b :: t))
    with (if decide (a = b) then dedupAdjacent (b :: t)
          else a :: dedupAdjacent (b :: t)).
  assert (Htail : risingIndex (dedupAdjacent (b :: t))).
  { apply IH. intros p x y Hx Hy. by apply (Hstep (S p)). }
  destruct (decide (a = b)) as [->|Hab]; [done|].
  destruct (dedupAdjacent_head b t) as [rest Hrest]. rewrite Hrest in *.
  split; [|done]. destruct (Hstep 0%nat a b eq_refl eq_refl); [done|done].
Qed.

(** The minima of neighbouring windows: the same fingerprint, or one
    further to the right. *)
Lemma isWindowMin_next (hs : list N) (p : nat) (x y : fingerprint) :
  isWindowMin hs p 4 x -> isWindowMin hs (S p) 4 y ->
  (fp_index x < fp_index y)%nat \/ x = y.
Proof.
  intros (Hxr & Hxat & Hxmin) (Hyr & Hyat & Hymin).
  destruct (decide (fp_index x < fp_index y)%nat) as [|Hge]; [by left|].
  right.
  destruct (decide (fp_index x = fp_index y)) as [Heq|Hne].
  - destruct x as [hx ix], y as [hy iy]. cbn in *. subst iy.
    rewrite Hxat in Hyat. by injection Hyat as ->.
  - exfalso.
    destruct (Hymin (fp_index x) (fp_hash x) ltac:(lia) Hxat) as [Hlt|[_ ?]];
      [|lia].
    destruct (Hxmin (fp_index y) (fp_hash y) ltac:(lia) Hyat) as [?|[? _]];
      lia.
Qed.

Lemma hashShingle_bound (toks : list jsstring) (start length : nat) :
  (start + 1 <= List.length toks)%nat -> (1 <= length)%nat ->
  (hashShingle toks start length < 1000003)%N.
Proof.
  intros Hstart Hlen. unfold hashShingle.
  destruct (firstn length (skipn start toks)) as [|x l] eqn:Hl.
  { apply (f_equal List.length) in Hl.
    rewrite length_take, length_drop in Hl. cbn in Hl. lia. }
  clear Hl. induction l as [|y l IH] using rev_ind.
  - cbn. apply N.mod_lt. done.
  - rewrite app_comm_cons, fold_left_app. cbn [fold_left].
    apply N.mod_lt. done.
Qed.

(** The fingerprints [winnow] selects from the shingle hashes. *)
Lemma winnow_selection (hs : list N) :
  Forall (fun fp => hs !! fp_index fp = Some (fp_hash fp))
    (winnow (indexed hs) WINDOW_SIZE)
  /\ risingIndex (winnow (indexed hs) WINDOW_SIZE)
  /\ (hs <> [] -> winnow (indexed hs) WINDOW_SIZE <> []).
Proof.
  destruct hs as [|h0 hs0] eqn:Hhs; [by repeat split|]. rewrite <- Hhs.
  assert (Hne : hs <> []) by (by rewrite Hhs).
  assert (Hw : winnow (indexed hs) WINDOW_SIZE
               = if (length hs <=? 4)%nat then
                   match fold_left
                           (fun best current =>
                              match best with
                              | None => Some current
                              | Some b =>
                                  if beats current b then Some current
                                  else Some b
                              end) (indexed hs) None with
                   | Some min => [min]
                   | None => []
                   end
                 else slide (length hs) (indexed hs) 0 3 (-1) []).
  { unfold winnow, WINDOW_SIZE. rewrite indexed_length.
    rewrite Hhs. reflexivity. }
  rewrite Hw. clear Hw. destruct (Nat.leb_spec (length hs) 4) as [Hle|Hgt].
  - destruct (reduce_spec hs Hne) as (fp & -> & _ & Hat & _).
    split; [by apply Forall_singleton|]. split; [done|]. done.
  - destruct (slide_spec hs (length hs) 0 (-1) []) as (picks & H1 & H2 & H3);
      try done; try lia.
    change (dedupAdjacent []) with (@nil fingerprint) in H3.
    change (0 + 3)%nat with 3%nat in H3. rewrite H3.
    split; [|split].
    + rewrite Forall_forall. intros fp Hfp. apply dedupAdjacent_elem in Hfp.
      apply list_elem_of_lookup in Hfp as [p Hp].
      by destruct (H2 p fp Hp) as (_ & Hat & _).
    + apply dedupAdjacent_rising. intros p x y Hx Hy.
      by apply (isWindowMin_next hs p); [apply H2..].
    + intros _. destruct picks as [|x picks]; [cbn in H1; lia|].
      by destruct (dedupAdjacent_head x picks) as [rest ->].
Qed.

(** What the index holds: per hash at most 64 positions, each the
    position of a fingerprint with that hash. *)
Lemma indexFingerprints_positions (fps : list fingerprint) :
  NoDup (OMap.keys (indexFingerprints fps))
  /\ forall h positions,
       OMap.get (indexFingerprints fps) h = Some positions ->
       (length positions <= 64)%nat /\ positions <> []
       /\ forall i, i ∈ positions -> Fingerprint h i ∈ fps.
Proof.
  unfold indexFingerprints.
  induction fps as [|fp fps [IHnd IH]] using rev_ind; [by split; [constructor|]|].
  rewrite fold_left_app. cbn [fold_left].
  set (index := fold_left _ fps []) in *.
  assert (Hnd : forall (m : list (N * list nat)) k v,
            NoDup (OMap.keys m) -> NoDup (OMap.keys (OMap.set m k v))).
  { intros m k v Hm. rewrite omap_keys_set. case_decide as Hin; [done|].
    apply NoDup_app. split; [done|]. split; [|apply NoDup_singleton].
    intros x Hx ->%list_elem_of_singleton. done. }
  assert (IH' : forall h positions, OMap.get index h = Some positions ->
            (length positions <= 64)%nat /\ positions <> []
            /\ forall i, i ∈ positions -> Fingerprint h i ∈ fps ++ [fp]).
  { intros h positions Hget. destruct (IH h positions Hget) as (? & ? & Hi).
    split; [done|]. split; [done|]. intros i ?. apply elem_of_app.
    left. by apply Hi. }
  cbn zeta.
  set (index' := if OMap.has index (fp_hash fp) then index
                 else OMap.set index (fp_hash fp) []).
  assert (Hnd' : NoDup (OMap.keys index')).
  { unfold index'. destruct (OMap.has _ _); [done|by apply Hnd]. }
  assert (Hget' : forall h,
            OMap.get index' h
            = if decide (fp_hash fp = h)
              then Some (default [] (OMap.get index h))
              else OMap.get index h).
  { intros h. unfold index', OMap.has.
    destruct (OMap.get index (fp_hash fp)) as [a|] eqn:Hget.
    - case_decide as Hh; [|done]. subst h. by rewrite Hget.
    - rewrite omap_get_set. case_decide as Hh; [|done]. subst h.
      by rewrite Hget. }
  set (arr := default [] (OMap.get index (fp_hash fp))).
  rewrite (Hget' (fp_hash fp)), decide_True by done.
  fold arr. change (default [] (Some arr)) with arr.
  assert (Harr : (length arr <= 64)%nat
                 /\ forall i, i ∈ arr ->
                      Fingerprint (fp_hash fp) i ∈ fps ++ [fp]).
  { unfold arr. destruct (OMap.get index (fp_hash fp)) as [a|] eqn:Hget.
    - destruct (IH' _ _ Hget) as (? & _ & ?). done.
    - cbn. split; [lia|]. by intros ? ?%elem_of_nil. }
  destruct Harr as [Hlen Harr].
  destruct (Nat.ltb_spec (length arr) 64) as [Hroom|Hfull].
  - split; [by apply Hnd|]. intros h positions.
    rewrite omap_get_set. case_decide as Hh.
    + subst h. intros [= <-]. rewrite length_app. cbn [length].
      split; [lia|]. split; [by destruct arr|].
      intros i [Hi|Hi]%elem_of_app; [by apply Harr|].
      apply list_elem_of_singleton in Hi as ->.
      apply elem_of_app. right. destruct fp. in_head.
    + rewrite Hget', decide_False by done. apply IH'.
  - split; [done|]. intros h positions. rewrite Hget'.
    case_decide as Hh; [|apply IH'].
    subst h. intros [= <-]. subst arr.
    destruct (OMap.get index (fp_hash fp)) as [a|] eqn:Hget.
    + by apply IH'.
    + cbn in Hfull. lia.
Qed.

(** The fingerprints of a token sequence are shingle positions: each
    carries the index of a run of three tokens and the hash of that
    run, a hash below 1000003; they come in strictly ascending token
    order. The hash set holds their hashes, each once, and the index
    holds per hash at most 64 positions, each the position of a
    fingerprint with that hash. *)
Theorem fingerprints_are_shingle_positions (toks : list jsstring) :
  let '(fps, index, hashes) :=
    computeFingerprints toks SHINGLE_SIZE WINDOW_SIZE in
  Forall (fun fp =>
            (fp_index fp + SHINGLE_SIZE <= length toks)%nat
            /\ fp_hash fp = hashShingle toks (fp_index fp) SHINGLE_SIZE
            /\ (fp_hash fp < 1000003)%N) fps
  /\ risingIndex fps
  /\ ((SHINGLE_SIZE <= length toks)%nat -> fps <> [])
  /\ NoDup hashes
  /\ (forall h, h ∈ hashes <-> exists fp, fp ∈ fps /\ fp_hash fp = h)
  /\ (forall h positions, (h, positions) ∈ index ->
        (length positions <= 64)%nat /\ positions <> []
        /\ forall i, i ∈ positions -> Fingerprint h i ∈ fps).
Proof.
  unfold computeFingerprints.
  destruct (Nat.ltb_spec (length toks) SHINGLE_SIZE) as [Hlt|Hge].
  { split; [constructor|]. split; [done|]. split; [lia|].
    split; [constructor|]. split.
    - intros h. split; [by intros ?%elem_of_nil|].
      by intros (fp & ?%elem_of_nil & _).
    - by intros ? ? ?%elem_of_nil. }
  rewrite shingleHashes_indexed.
  set (hs := List.map (fun i => hashShingle toks i SHINGLE_SIZE)
               (seq 0 (S (length toks - SHINGLE_SIZE)))).
  assert (Hlook : forall i h, hs !! i = Some h ->
            (i + SHINGLE_SIZE <= length toks)%nat
            /\ h = hashShingle toks i SHINGLE_SIZE).
  { intros i h. unfold hs. change (@List.map) with (@fmap list _).
    rewrite list_lookup_fmap. intros Hi.
    destruct (seq 0 (S (length toks - SHINGLE_SIZE)) !! i) as [j|] eqn:Hj;
      [|done].
    apply lookup_seq in Hj as [-> Hj]. injection Hi as <-.
    split; [lia|done]. }
  destruct (winnow_selection hs) as (Hsel & Hrise & Hne).
  destruct (indexFingerprints_positions (winnow (indexed hs) WINDOW_SIZE))
    as [Hnd Hpos].
  split.
  { eapply Forall_impl; [exact Hsel|]. intros fp Hfp. cbn beta in Hfp.
    destruct (Hlook _ _ Hfp) as [Hi Hh]. split; [done|]. split; [done|].
    rewrite Hh. apply hashShingle_bound; unfold SHINGLE_SIZE in *; lia. }
  split; [done|]. split.
  { intros _. apply Hne. unfold hs. intros Hnil.
    apply (f_equal length) in Hnil. rewrite length_map, length_seq in Hnil.
    done. }
  split; [done|]. split; [apply indexFingerprints_keys|].
  intros h positions Hin. apply Hpos. by apply omap_NoDup_get.
Qed.

End Fingerprints.

(** ** External packages of the dependency insights *)

Section ExternalPackages.

Import DependencyInsights.

(** The package name [extractPackageName] takes from a specifier. *)
Lemma extractPackageName_shape (specifier pkg : jsstring) :
  extractPackageName specifier = Some pkg ->
  pkg <> []
  /\ startsWith pkg (str ".") = false
  /\ startsWith pkg (str "/") = false
  /\ (pkg = specifier
      \/ exists rest, specifier = pkg ++ NodePath.slash :: rest)
  /\ (if startsWith pkg (str "@")
      then (length (split_on NodePath.slash pkg) <= 2)%nat
      else NodePath.slash ∉ pkg)
  /\ extractPackageName pkg = Some pkg.
Proof.
  assert (Hnil : forall s : jsstring, startsWith s [] = true)
    by (by intros []).
  assert (Hown : forall c h,
            c <> 46%N -> c <> 47%N -> c <> 64%N ->
            NodePath.slash ∉ c :: h ->
            extractPackageName (c :: h) = Some (c :: h)).
  { intros c h H1 H2 H3 Hno. unfold extractPackageName.
    change (str ".") with [46%N]. change (str "/") with [47%N].
    change (str "@") with [64%N]. cbn [JS.truthy negb startsWith].
    rewrite !(proj2 (N.eqb_neq _ _)) by done. cbn [andb orb].
    by rewrite split_on_piece. }
  assert (Hscoped : forall h pieces,
            (length pieces <= 2)%nat ->
            split_on NodePath.slash (64%N :: h) = pieces ->
            extractPackageName (64%N :: h) = Some (64%N :: h)).
  { intros h pieces Hlen Hs. unfold extractPackageName.
    change (str ".") with [46%N]. change (str "/") with [47%N].
    change (str "@") with [64%N]. cbn [JS.truthy negb startsWith].
    change (46 =? 64)%N with false. change (47 =? 64)%N with false.
    change (64 =? 64)%N with true. cbn [andb orb]. rewrite Hnil.
    pose proof (join_split NodePath.slash (64%N :: h)) as Hjoin.
    rewrite Hs in *.
    destruct pieces as [|a [|b [|]]]; [done|done| |cbn in Hlen; lia].
    by rewrite <- Hjoin. }
  intros Hpkg. unfold extractPackageName in Hpkg.
  change (str ".") with [46%N] in *. change (str "/") with [47%N] in *.
  change (str "@") with [64%N] in *.
  destruct specifier as [|c t]; [done|].
  cbn [JS.truthy negb startsWith] in Hpkg.
  rewrite !Hnil, !andb_true_r in Hpkg.
  destruct (N.eqb_spec 46 c) as [|Hdot]; [by cbn in Hpkg|].
  destruct (N.eqb_spec 47 c) as [|Hslash]; [by cbn in Hpkg|].
  cbn [andb orb] in Hpkg.
  pose proof (join_split NodePath.slash (c :: t)) as Hjoin.
  pose proof (split_on_no_sep NodePath.slash (c :: t)) as Hclean.
  rewrite split_on_cons in *.
  destruct (N.eqb_spec c NodePath.slash) as [Hc|_].
  { unfold NodePath.slash in Hc. congruence. }
  destruct (N.eqb_spec 64 c) as [<-|Hat].
  - destruct (split_on NodePath.slash t) as [|h [|name more]] eqn:Hs.
    + injection Hpkg as <-. cbn [startsWith].
      change (46 =? 64)%N with false. change (47 =? 64)%N with false.
      change (64 =? 64)%N with true. cbn [andb]. rewrite Hnil.
      split; [done|]. split; [done|]. split; [done|]. split; [by left|].
      split; [rewrite split_on_cons, Hs; cbn; lia|].
      apply (Hscoped _ [[64%N]]); [cbn; lia|]. by rewrite split_on_cons, Hs.
    + injection Hpkg as <-. cbn [startsWith].
      change (46 =? 64)%N with false. change (47 =? 64)%N with false.
      change (64 =? 64)%N with true. cbn [andb]. rewrite Hnil.
      split; [done|]. split; [done|]. split; [done|]. split; [by left|].
      split; [rewrite split_on_cons, Hs; cbn; lia|].
      apply (Hscoped _ [64%N :: h]); [cbn; lia|].
      by rewrite split_on_cons, Hs.
    + injection Hpkg as <-.
      assert (Hsplit : split_on NodePath.slash
                         ((64%N :: h) ++ [47%N] ++ name)
                       = [64%N :: h; name]).
      { change ((64%N :: h) ++ [47%N] ++ name)
          with ((64%N :: h) ++ NodePath.slash :: name).
        rewrite split_on_app.
        rewrite !split_on_piece; [done| |]; apply Hclean.
        - apply elem_of_cons. right. in_head.
        - in_head. }
      cbn [app startsWith] in *.
      change (46 =? 64)%N with false. change (47 =? 64)%N with false.
      change (64 =? 64)%N with true. cbn [andb]. rewrite Hnil.
      split; [done|]. split; [done|]. split; [done|]. split.
      { destruct more as [|m more]; [left|right].
        - rewrite <- Hjoin. done.
        - exists (join [NodePath.slash] (m :: more)). rewrite <- Hjoin.
          cbn [join app]. rewrite <- !app_assoc. done. }
      split; [rewrite Hsplit; cbn; lia|].
      apply (Hscoped _ [64%N :: h; name]); [cbn; lia|done].
  - assert (Hno : forall h more,
              split_on NodePath.slash t = h :: more ->
              NodePath.slash ∉ c :: h).
    { intros h more Hs. apply Hclean. rewrite Hs. in_head. }
    destruct (split_on NodePath.slash t) as [|h more] eqn:Hs.
    + by destruct (split_on_nonempty NodePath.slash t).
    + cbn [JS.truthy] in Hpkg. injection Hpkg as <-.
      cbn [startsWith].
      rewrite !(proj2 (N.eqb_neq _ _)) by done. cbn [andb].
      split; [done|]. split; [done|]. split; [done|]. split.
      { destruct more as [|m more]; [left|right].
        - by rewrite <- Hjoin.
        - exists (join [NodePath.slash] (m :: more)). by rewrite <- Hjoin. }
      split; [by eapply Hno|].
      apply Hown; [congruence..|by eapply Hno].
Qed.

Lemma countsExternal_spec (e : dependencyEdge) (pkg : jsstring) :
  countsExternal e = Some pkg
  <-> dep_source e <> [] /\ dep_kind e = str "external"
      /\ extractPackageName (dep_target e) = Some pkg.
Proof.
  unfold countsExternal. split.
  - destruct (dep_source e) as [|c s]; [done|]. cbn [JS.truthy andb].
    unfold eqb at 2.
    case_bool_decide as Hkind; [|by rewrite andb_false_r].
    destruct (extractPackageName (dep_target e)) as [p|] eqn:Hp;
      [|by destruct (_ && _)].
    destruct (_ && _); [|done].
    destruct p; [done|]. by intros [= <-].
  - intros (Hsrc & Hkind & Hpkg).
    assert (Htarget : JS.truthy (dep_target e) = true).
    { destruct (dep_target e); [|done]. done. }
    destruct (dep_source e) as [|c s]; [done|]. rewrite Hkind, Htarget, Hpkg.
    destruct (extractPackageName_shape _ _ Hpkg) as (Hne & _).
    destruct pkg; [done|]. done.
Qed.

Lemma degree_positive (sel : dependencyEdge -> option jsstring)
    (edges : list dependencyEdge) (p : jsstring) :
  (0 < degree sel edges p)%nat -> exists e, e ∈ edges /\ sel e = Some p.
Proof.
  unfold degree. induction edges as [|e edges IH]; [cbn; lia|].
  cbn [List.filter]. case_bool_decide as He.
  - intros _. exists e. split; [in_head|done].
  - intros Hpos. destruct (IH Hpos) as (e' & ? & ?). exists e'.
    split; [|done]. apply elem_of_cons. by right.
Qed.

(** The external packages of the dependency insights: at most five
    entries, one per package, in descending order of their counts. An
    edge counts for a package when it has a source, is of kind external
    and extractPackageName gives the package for its target; the count
    of a listed package is the number of those edges, it is positive,
    and a package with a larger count than a listed one is listed too.
    A listed package name is not empty, does not start with a dot or a
    slash, contains no slash unless it starts with an at sign, in which
    case it has at most two segments, and is its own package name. The
    package of a specifier is the specifier or the part of it before a
    slash. *)
Theorem external_packages_counts (edges : list dependencyEdge) :
  let r := externalPackages (computeDependencyInsights edges) in
  let counts e pkg :=
    dep_source e <> [] /\ dep_kind e = str "external"
    /\ extractPackageName (dep_target e) = Some pkg in
  (length r <= MAX_ITEMS)%nat
  /\ NoDup (List.map fst r)
  /\ descending (fun e => Z.of_nat (snd e)) r
  /\ (forall e pkg, countsExternal e = Some pkg <-> counts e pkg)
  /\ (forall e pkg, counts e pkg ->
        pkg = dep_target e
        \/ exists rest, dep_target e = pkg ++ NodePath.slash :: rest)
  /\ (forall pkg c, (pkg, c) ∈ r ->
        c = degree countsExternal edges pkg /\ (0 < c)%nat
        /\ pkg <> []
        /\ startsWith pkg (str ".") = false
        /\ startsWith pkg (str "/") = false
        /\ (if startsWith pkg (str "@")
            then (length (split_on NodePath.slash pkg) <= 2)%nat
            else NodePath.slash ∉ pkg)
        /\ extractPackageName pkg = Some pkg)
  /\ (forall pkg c q, (pkg, c) ∈ r ->
        (c < degree countsExternal edges q)%nat ->
        (q, degree countsExternal edges q) ∈ r).
Proof.
  unfold computeDependencyInsights. cbn zeta. cbn [externalPackages].
  destruct (edgeStep_fold edges (Maps [] [] [])) as (_ & _ & ->).
  cbn [externalMap].
  destruct (pickTopEntries_counts countsExternal edges)
    as (Hlen & Hnd & Hdesc & Hcount & Htop).
  split; [done|]. split; [done|]. split; [done|].
  split; [apply countsExternal_spec|]. split.
  { intros e pkg (_ & _ & Hpkg).
    by destruct (extractPackageName_shape _ _ Hpkg) as (_ & _ & _ & ? & _). }
  split; [|done].
  intros pkg c Hin. destruct (Hcount _ _ Hin) as [Hc Hpos].
  split; [done|]. split; [done|].
  rewrite Hc in Hpos. destruct (degree_positive _ _ _ Hpos) as (e & _ & He).
  apply countsExternal_spec in He as (_ & _ & Hpkg).
  destruct (extractPackageName_shape _ _ Hpkg) as (? & ? & ? & _ & ? & ?).
  done.
Qed.

End ExternalPackages.

(** ** The Dice score of two token sequences *)

Section DiceScore.

Lemma count_perm (t : jsstring) (A A' : list jsstring) :
  A ≡ₚ A' -> count t A = count t A'.
Proof.
  intros H. unfold count. induction H as [|x l l' _ IH|x y l|l l' l'' _ IH1 _ IH2].
  - done.
  - cbn [List.filter]. destruct (eqb x t); cbn; by rewrite IH.
  - cbn [List.filter]. by destruct (eqb x t), (eqb y t).
  - by rewrite IH1.
Qed.

Lemma sum_list_with_nonzero {X : Type} (f : X -> nat) (l : list X) :
  sum_list_with f l = sum_list_with f (filter (fun x => f x <> 0%nat) l).
Proof.
  induction l as [|x l IH]; [done|].
  rewrite filter_cons. case_decide as Hx; cbn [sum_list_with]; lia.
Qed.

Lemma sum_list_with_support {X : Type} (f : X -> nat) (l1 l2 : list X) :
  NoDup l1 -> NoDup l2 ->
  (forall x, f x <> 0%nat -> x ∈ l1 <-> x ∈ l2) ->
  sum_list_with f l1 = sum_list_with f l2.
Proof.
  intros H1 H2 Hsame.
  rewrite (sum_list_with_nonzero f l1), (sum_list_with_nonzero f l2).
  apply sum_list_with_Permutation_proper.
  apply NoDup_Permutation; [by apply NoDup_filter..|].
  intros x. rewrite !list_elem_of_filter. naive_solver.
Qed.

Lemma multisetIntersection_comm (A B : list jsstring) :
  multisetIntersection A B = multisetIntersection B A.
Proof.
  unfold multisetIntersection.
  rewrite (sum_list_with_ext_in
             (fun t => Nat.min (count t B) (count t A))
             (fun t => Nat.min (count t A) (count t B)))
    by (intros; lia).
  apply sum_list_with_support; [apply NoDup_remove_dups..|].
  intros t Ht. rewrite !elem_of_remove_dups.
  pose proof (count_zero t A). pose proof (count_zero t B).
  split; intros Hin.
  - destruct (decide (t ∈ B)) as [|Hno]; [done|]. apply H0 in Hno. lia.
  - destruct (decide (t ∈ A)) as [|Hno]; [done|]. apply H in Hno. lia.
Qed.

Lemma multisetIntersection_perm (A B A' B' : list jsstring) :
  A ≡ₚ A' -> B ≡ₚ B' ->
  multisetIntersection A B = multisetIntersection A' B'.
Proof.
  intros HA HB. unfold multisetIntersection.
  rewrite (sum_list_with_ext_in
             (fun t => Nat.min (count t A) (count t B))
             (fun t => Nat.min (count t A') (count t B'))).
  - apply sum_list_with_Permutation_proper.
    apply NoDup_Permutation; [apply NoDup_remove_dups..|].
    intros t. by rewrite !elem_of_remove_dups, HA.
  - intros t _. by rewrite (count_perm t A A'), (count_perm t B B').
Qed.

Lemma indicator_sum (a : jsstring) (l : list jsstring) :
  NoDup l ->
  sum_list_with (fun t => if eqb a t then 1 else 0)%nat l
  = if decide (a ∈ l) then 1%nat else 0%nat.
Proof.
  induction 1 as [|x l Hx Hnd IH]; [done|].
  cbn [sum_list_with]. rewrite IH. unfold eqb.
  case_bool_decide as Hax.
  - subst x. destruct (decide (a ∈ l)); [done|].
    destruct (decide (a ∈ a :: l)) as [|Hno]; [done|].
    destruct Hno. in_head.
  - destruct (decide (a ∈ l)), (decide (a ∈ x :: l)) as [Hin|Hno]; try done.
    + destruct Hno. by in_tail.
    + by apply elem_of_cons in Hin as [|].
Qed.

Lemma count_total (A : list jsstring) :
  sum_list_with (fun t => count t A) (remove_dups A) = length A.
Proof.
  induction A as [|a A IH]; [done|].
  assert (Hstep : forall l, NoDup l ->
            sum_list_with (fun t => count t (a :: A)) l
            = ((if decide (a ∈ l) then 1 else 0)
               + sum_list_with (fun t => count t A) l)%nat).
  { intros l Hl. rewrite <- (indicator_sum a l Hl).
    clear Hl. induction l as [|x l IHl]; [done|].
    cbn [sum_list_with]. rewrite IHl. unfold count.
    cbn [List.filter]. destruct (eqb a x); cbn [length]; lia. }
  cbn [remove_dups length]. case_decide as Hin.
  - rewrite Hstep by apply NoDup_remove_dups.
    rewrite decide_True by (by apply elem_of_remove_dups). by rewrite IH.
  - cbn [sum_list_with]. rewrite Hstep by apply NoDup_remove_dups.
    rewrite decide_False by (by rewrite elem_of_remove_dups).
    rewrite IH. unfold count. cbn [List.filter].
    unfold eqb at 1. rewrite bool_decide_eq_true_2 by done.
    apply count_zero in Hin. unfold count in Hin. cbn [length]. lia.
Qed.

Lemma multisetIntersection_le (A B : list jsstring) :
  (multisetIntersection A B <= length A)%nat.
Proof.
  rewrite <- (count_total A). unfold multisetIntersection.
  induction (remove_dups A) as [|t l IH]; [done|].
  cbn [sum_list_with]. lia.
Qed.

(** The Dice score diceCoefficient gives for the token counts and
    totals of two token sequences: it is the same in both directions and
    depends only on the tokens as multisets, not on their order; it is
    zero when one sequence is empty, and otherwise twice the number of
    shared tokens divided by the sum of the lengths, where the shared
    tokens are at most as many as the tokens of the shorter sequence,
    all of them when the sequences are reorderings of each other and
    none when no token of the first occurs in the second. *)
Theorem dice_score_symmetric (A B : list jsstring) :
  let score X Y :=
    diceCoefficient (buildTokenCounts X) (length X)
                    (buildTokenCounts Y) (length Y) in
  let shared := multisetIntersection A B in
  score A B = score B A
  /\ (forall A' B', A ≡ₚ A' -> B ≡ₚ B' -> score A B = score A' B')
  /\ (A = [] \/ B = [] -> score A B = F64.of_Z 0)
  /\ (A <> [] -> B <> [] ->
      score A B
      = F64.div (F64.of_nat (2 * shared)) (F64.of_nat (length A + length B)))
  /\ (shared <= Nat.min (length A) (length B))%nat
  /\ (A ≡ₚ B -> shared = length A)
  /\ ((forall t, t ∈ A -> t ∉ B) -> shared = 0%nat).
Proof.
  cbn zeta.
  assert (Hempty : forall X Y : list jsstring, X = [] \/ Y = [] ->
            diceCoefficient (buildTokenCounts X) (length X)
                            (buildTokenCounts Y) (length Y) = F64.of_Z 0).
  { intros X Y [->| ->]; unfold diceCoefficient; cbn [length Nat.eqb orb];
      [done|]. by rewrite orb_true_r. }
  assert (Hperm : forall X Y X' Y' : list jsstring, X ≡ₚ X' -> Y ≡ₚ Y' ->
            diceCoefficient (buildTokenCounts X) (length X)
                            (buildTokenCounts Y) (length Y)
            = diceCoefficient (buildTokenCounts X') (length X')
                              (buildTokenCounts Y') (length Y')).
  { intros X Y X' Y' HX HY.
    destruct (decide (X = [])) as [->|HXn].
    { apply Permutation_nil_l in HX. subst X'.
      by rewrite !Hempty by by left. }
    destruct (decide (Y = [])) as [->|HYn].
    { apply Permutation_nil_l in HY. subst Y'.
      by rewrite !Hempty by by right. }
    rewrite !diceCoefficient_dice; try done.
    - unfold dice.
      by rewrite (multisetIntersection_perm X Y X' Y'), HX, HY.
    - intros ->. by apply Permutation_nil_r in HX.
    - intros ->. by apply Permutation_nil_r in HY. }
  split.
  { destruct (decide (A = [])) as [->|HA].
    { rewrite !Hempty; [done|by right|by left]. }
    destruct (decide (B = [])) as [->|HB].
    { rewrite !Hempty; [done|by left|by right]. }
    rewrite !diceCoefficient_dice by done. unfold dice.
    by rewrite multisetIntersection_comm, Nat.add_comm. }
  split; [intros A' B'; apply Hperm|]. split; [apply Hempty|].
  split; [apply diceCoefficient_dice|]. split.
  { pose proof (multisetIntersection_le A B).
    pose proof (multisetIntersection_le B A).
    rewrite (multisetIntersection_comm B A) in *. lia. }
  split.
  - intros HAB. rewrite <- (count_total A). unfold multisetIntersection.
    apply sum_list_with_ext_in. intros t _.
    rewrite (count_perm t A B HAB). lia.
  - intros Hnone. unfold multisetIntersection.
    rewrite (sum_list_with_ext_in _ (fun _ => 0%nat)).
    + induction (remove_dups A); [done|]. cbn. done.
    + intros t Ht. rewrite elem_of_remove_dups in Ht.
      apply Hnone, count_zero in Ht. lia.
Qed.

End DiceScore.
